(** * openapi-include: the merge engine of [src/merger.js]

    A shallow embedding of the [Merger] class over an explicit store of
    JavaScript objects.  The walk of [mergeRefs] builds new containers but
    also keeps references to containers of its input, and [handleRef],
    [handleInclude] and [handleDiscriminator] write through those
    references, so containers live in a heap and values point into it. *)

From Stdlib Require Import ZArith Lia Ascii.
From stdpp Require Import base option list strings pretty.

Local Open Scope nat_scope.

(** ** JavaScript values and objects *)

Abbreviation loc := nat.

(** A value as a JavaScript variable holds it: a primitive, or a reference
    to an object of the heap. *)
Inductive value :=
  | VUndef
  | VNull
  | VBool (b : bool)
  | VNum (z : Z)
  | VStr (s : string)
  | VRef (l : loc).

Global Instance value_eq_dec : EqDecision value.
Proof. solve_decision. Defined.

(** Own enumerable properties in the order [Object.entries] lists them.
    An array keeps its elements by position ([None] is a hole) and, apart,
    the properties whose name is not an index. *)
Inductive jsobj :=
  | JObj (props : list (string * value))
  | JArr (elems : list (option value)) (props : list (string * value)).

Global Instance jsobj_eq_dec : EqDecision jsobj.
Proof. solve_decision. Defined.

Abbreviation heap := (list jsobj).

(** ** Property names *)

Definition digit_of (a : ascii) : option N :=
  let n := N_of_ascii a in
  if decide (48 ≤ n ∧ n ≤ 57)%N then Some (n - 48)%N else None.

Fixpoint digits_value (acc : N) (s : string) : option N :=
  match s with
  | EmptyString => Some acc
  | String a s' =>
      match digit_of a with
      | Some d => digits_value (acc * 10 + d)%N s'
      | None => None
      end
  end.

(** An array index is the canonical decimal spelling of an integer below
    2^32 - 1; such names are enumerated first, in ascending order. *)
Definition index_of (k : string) : option nat :=
  match k with
  | EmptyString => None
  | _ =>
      match digits_value 0%N k with
      | Some n =>
          if decide (pretty n = k ∧ (n < 4294967295)%N)
          then Some (N.to_nat n) else None
      | None => None
      end
  end.

Definition index_key (i : nat) : string := pretty (N.of_nat i).

(** ** Association lists in enumeration order *)

Fixpoint alist_get (k : string) (ps : list (string * value)) : option value :=
  match ps with
  | [] => None
  | (k', v) :: ps' => if decide (k' = k) then Some v else alist_get k ps'
  end.

Fixpoint alist_replace (k : string) (v : value) (ps : list (string * value))
  : list (string * value) :=
  match ps with
  | [] => []
  | (k', v') :: ps' =>
      if decide (k' = k) then (k, v) :: ps'
      else (k', v') :: alist_replace k v ps'
  end.

Fixpoint alist_delete (k : string) (ps : list (string * value))
  : list (string * value) :=
  match ps with
  | [] => []
  | (k', v') :: ps' =>
      if decide (k' = k) then alist_delete k ps'
      else (k', v') :: alist_delete k ps'
  end.

(** A new index-like name goes before the first name that is not an index
    or is a larger index; any other new name goes last. *)
Fixpoint alist_insert_index (i : nat) (k : string) (v : value)
  (ps : list (string * value)) : list (string * value) :=
  match ps with
  | [] => [(k, v)]
  | (k', v') :: ps' =>
      match index_of k' with
      | Some j =>
          if decide (j < i) then (k', v') :: alist_insert_index i k v ps'
          else (k, v) :: ps
      | None => (k, v) :: ps
      end
  end.

Definition alist_set (k : string) (v : value) (ps : list (string * value))
  : list (string * value) :=
  match alist_get k ps with
  | Some _ => alist_replace k v ps
  | None =>
      match index_of k with
      | Some i => alist_insert_index i k v ps
      | None => ps ++ [(k, v)]
      end
  end.

(** ** Arrays *)

(** [a[i] = v]: past the end the array grows and the gap is holes. *)
Definition elems_set (i : nat) (v : value) (es : list (option value))
  : list (option value) :=
  if decide (i < length es) then <[i := Some v]> es
  else es ++ replicate (i - length es) None ++ [Some v].

Fixpoint elems_entries (i : nat) (es : list (option value))
  : list (string * value) :=
  match es with
  | [] => []
  | Some v :: es' => (index_key i, v) :: elems_entries (S i) es'
  | None :: es' => elems_entries (S i) es'
  end.

(** ** Operations on one object *)

(** [o[k]] *)
Definition obj_get (k : string) (o : jsobj) : value :=
  match o with
  | JObj ps => default VUndef (alist_get k ps)
  | JArr es ps =>
      match index_of k with
      | Some i => default VUndef (mjoin (es !! i))
      | None =>
          if decide (k = "length") then VNum (Z.of_nat (length es))
          else default VUndef (alist_get k ps)
      end
  end.

(** [o[k] = v], for the names that denote an own data property.  Two
    names are outside this model: [__proto__], which on an ordinary object
    sets the prototype instead of defining a property, and [length] on an
    array, which resizes it.  The properties below that speak of what a
    write leaves in an object keep to the other names. *)
Definition obj_set (k : string) (v : value) (o : jsobj) : jsobj :=
  match o with
  | JObj ps => JObj (alist_set k v ps)
  | JArr es ps =>
      match index_of k with
      | Some i => JArr (elems_set i v es) ps
      | None => JArr es (alist_set k v ps)
      end
  end.

(** [delete o[k]] *)
Definition obj_delete (k : string) (o : jsobj) : jsobj :=
  match o with
  | JObj ps => JObj (alist_delete k ps)
  | JArr es ps =>
      match index_of k with
      | Some i => JArr (<[i := None]> es) ps
      | None => JArr es (alist_delete k ps)
      end
  end.

(** [Object.entries(o)] *)
Definition obj_entries (o : jsobj) : list (string * value) :=
  match o with
  | JObj ps => ps
  | JArr es ps => elems_entries 0 es ++ ps
  end.

(** [Object.keys(o)] *)
Definition obj_keys (o : jsobj) : list string := (obj_entries o).*1.

Definition obj_is_array (o : jsobj) : bool :=
  match o with JArr _ _ => true | JObj _ => false end.

(** [a.splice(i, 1)] *)
Definition obj_splice1 (i : nat) (o : jsobj) : jsobj :=
  match o with
  | JArr es ps => JArr (take i es ++ drop (S i) es) ps
  | JObj ps => JObj ps
  end.

(** The coercion of the test position of [if], [!] and [? :]. *)
Definition truthy (v : value) : bool :=
  match v with
  | VUndef | VNull => false
  | VBool b => b
  | VNum z => negb (Z.eqb z 0)
  | VStr s => negb (String.eqb s "")
  | VRef _ => true
  end.

(** ** Documents as the loaders deliver them *)

(** What the YAML reader and the downloader return: a tree without
    sharing.  It becomes heap objects when the engine receives it. *)
#[local] Set Warnings "-register-all,-clear-no-such-hyp".
Inductive Node :=
  | NNull
  | NBool (b : bool)
  | NNum (z : Z)
  | NStr (s : string)
  | NSeq (items : list Node)
  | NMap (fields : list (string * Node)).

Definition heap_alloc (o : jsobj) (h : heap) : loc * heap :=
  (length h, h ++ [o]).

Definition heap_update (l : loc) (f : jsobj → jsobj) (h : heap) : heap :=
  match h !! l with
  | Some o => <[l := f o]> h
  | None => h
  end.

(** The objects of a freshly parsed tree, children first. *)
Fixpoint alloc_node (n : Node) (h : heap) : value * heap :=
  match n with
  | NNull => (VNull, h)
  | NBool b => (VBool b, h)
  | NNum z => (VNum z, h)
  | NStr s => (VStr s, h)
  | NSeq items =>
      let fix go (ns : list Node) (h : heap) : list (option value) * heap :=
        match ns with
        | [] => ([], h)
        | n' :: ns' =>
            let '(v, h1) := alloc_node n' h in
            let '(vs, h2) := go ns' h1 in
            (Some v :: vs, h2)
        end in
      let '(vs, h1) := go items h in
      let '(l, h2) := heap_alloc (JArr vs []) h1 in
      (VRef l, h2)
  | NMap fields =>
      let fix go (fs : list (string * Node)) (acc : jsobj) (h : heap)
        : jsobj * heap :=
        match fs with
        | [] => (acc, h)
        | (k, n') :: fs' =>
            let '(v, h1) := alloc_node n' h in
            go fs' (obj_set k v acc) h1
        end in
      let '(o, h1) := go fields (JObj []) h in
      let '(l, h2) := heap_alloc o h1 in
      (VRef l, h2)
  end.

(** Reading a value back as a tree, to a given depth; a hole reads as
    absent, and names of an array that are not indices are not part of a
    tree. *)
Fixpoint read_node (depth : nat) (h : heap) (v : value) : option Node :=
  match depth with
  | 0 => None
  | S d =>
      match v with
      | VUndef => None
      | VNull => Some NNull
      | VBool b => Some (NBool b)
      | VNum z => Some (NNum z)
      | VStr s => Some (NStr s)
      | VRef l =>
          match h !! l with
          | Some (JObj ps) =>
              NMap <$> mapM (λ kv, pair kv.1 <$> read_node d h kv.2) ps
          | Some (JArr es []) =>
              NSeq <$> mapM (λ e, e ≫= read_node d h) es
          | _ => None
          end
      end
  end.

(** ** The state of a merge *)

(** [Component] of components.js: identity is the position in the
    registry; [content] is the one mutable field. *)
Record Component := mkComponent {
  c_type : string;
  c_url : string;
  c_name : string;
  c_content : value;
}.

(** What a run did, in order; not part of the program's state. *)
Inductive event :=
  | EvLoad (url : string)
  | EvRead (file : string)
  | EvDownload (url : string)
  | EvContent (url : string).

Global Instance event_eq_dec : EqDecision event.
Proof. solve_decision. Defined.

(** [this.manager]: the registry of the pass, and the components of the
    first pass when the manager was built with a name resolver. *)
Record manager := mkManager {
  m_components : list Component;
  m_resolver : option (list Component);
}.

Record state := mkState {
  st_heap : heap;
  st_manager : manager;
  st_trace : list event;
}.

Inductive error :=
  | StructuralMergeError (include : value) (jsonPath : string)
  | LoadError
  | FetchError
  | UnresolvableReferenceError
  | TypeError.

(** The outcome of an async function: it resolves with a value in a new
    state, rejects, or has not settled within the given number of nested
    calls. *)
Inductive res (A : Type) :=
  | Ok (a : A) (s : state)
  | Throw (e : error)
  | Unsettled.
Arguments Ok {A} a s.
Arguments Throw {A} e.
Arguments Unsettled {A}.

Definition M (A : Type) := state → res A.

Global Instance M_ret : MRet M := λ A a s, Ok a s.
Global Instance M_bind : MBind M := λ A B f m s,
  match m s with
  | Ok a s' => f a s'
  | Throw e => Throw e
  | Unsettled => Unsettled
  end.
Definition throw {A} (e : error) : M A := λ _, Throw e.

Definition get_heap : M heap := λ s, Ok (st_heap s) s.
Definition put_heap (h : heap) : M unit :=
  λ s, Ok () (mkState h (st_manager s) (st_trace s)).
Definition get_manager : M manager := λ s, Ok (st_manager s) s.
Definition put_manager (m : manager) : M unit :=
  λ s, Ok () (mkState (st_heap s) m (st_trace s)).
Definition emit (e : event) : M unit :=
  λ s, Ok () (mkState (st_heap s) (st_manager s) (st_trace s ++ [e])).

(** [new] object in the heap. *)
Definition new_obj (o : jsobj) : M value :=
  h ← get_heap;
  let '(l, h') := heap_alloc o h in
  put_heap h';; mret (VRef l).

(** The object a reference points to. *)
Definition deref (l : loc) : M jsobj :=
  h ← get_heap;
  match h !! l with
  | Some o => mret o
  | None => throw TypeError
  end.

(** [v[k]]: a property read fails on [null] and [undefined]; the other
    primitives have no own property the engine asks for. *)
Definition get_prop (v : value) (k : string) : M value :=
  match v with
  | VUndef | VNull => throw TypeError
  | VRef l => o ← deref l; mret (obj_get k o)
  | _ => mret VUndef
  end.

(** [v[k] = x] on an object. *)
Definition set_prop (l : loc) (k : string) (x : value) : M unit :=
  h ← get_heap; put_heap (heap_update l (obj_set k x) h).

(** [delete v[k]] on an object. *)
Definition delete_prop (l : loc) (k : string) : M unit :=
  h ← get_heap; put_heap (heap_update l (obj_delete k) h).

(** A parsed tree enters the heap. *)
Definition receive (n : Node) : M value :=
  h ← get_heap;
  let '(v, h') := alloc_node n h in
  put_heap h';; mret v.

(** [Object(v)]: an object is itself; anything else gives a new object,
    modelled by its own enumerable properties (none, or the characters of
    a string). *)
Fixpoint string_entries (i : nat) (s : string) : list (string * value) :=
  match s with
  | EmptyString => []
  | String a s' =>
      (index_key i, VStr (String a EmptyString)) :: string_entries (S i) s'
  end.

Definition to_object (v : value) : M loc :=
  match v with
  | VRef l => mret l
  | VStr s =>
      r ← new_obj (JObj (string_entries 0 s));
      match r with VRef l => mret l | _ => throw TypeError end
  | _ =>
      r ← new_obj (JObj []);
      match r with VRef l => mret l | _ => throw TypeError end
  end.

(** [Object.entries(v)] *)
Definition entries_of (v : value) : M (list (string * value)) :=
  match v with
  | VUndef | VNull => throw TypeError
  | VRef l => o ← deref l; mret (obj_entries o)
  | VStr s => mret (string_entries 0 s)
  | _ => mret []
  end.

(** [v[k] = x] under "use strict": writing a property of a primitive
    throws. *)
Definition assign (v : value) (k : string) (x : value) : M unit :=
  match v with
  | VRef l => set_prop l k x
  | _ => throw TypeError
  end.

(** [delete v[k]]: on a primitive there is nothing to delete (a character
    or the length of a string cannot be deleted under "use strict"). *)
Definition delete_ (v : value) (k : string) : M unit :=
  match v with
  | VRef l => delete_prop l k
  | VUndef | VNull => throw TypeError
  | VStr s =>
      if decide (is_Some (index_of k ≫= λ i, String.get i s)
                 ∨ k = "length"%string)
      then throw TypeError else mret ()
  | _ => mret ()
  end.

(** [_.isObject(v)] and [_.isArray(v)] *)
Definition isObject (v : value) : bool :=
  match v with VRef _ => true | _ => false end.

Definition isArray (v : value) : M bool :=
  match v with
  | VRef l => o ← deref l; mret (obj_is_array o)
  | _ => mret false
  end.

(** ** The include pattern: [/^\$include(#.*?)?(\/.*?\/)?$/]

    Names are strings of 8-bit characters, so of the characters [.]
    refuses only line feed and carriage return are represented. *)

Definition line_terminator (a : ascii) : bool :=
  bool_decide (a = "010"%char ∨ a = "013"%char).

Fixpoint no_line_terminator (s : string) : bool :=
  match s with
  | EmptyString => true
  | String a s' => negb (line_terminator a) && no_line_terminator s'
  end.

Fixpoint last_char (s : string) : option ascii :=
  match s with
  | EmptyString => None
  | String a EmptyString => Some a
  | String _ s' => last_char s'
  end.

(** The whole of [s] is [\/.*?\/]: the lazy star stops at a slash that
    ends the name, there being [$] next. *)
Definition slashed (s : string) : bool :=
  match s with
  | String "/"%char s' =>
      bool_decide (last_char s' = Some "/"%char) && no_line_terminator s'
  | _ => false
  end.

(** After [#]: the lazy star of the first group takes the fewest
    characters after which the rest is the second group or nothing. *)
Fixpoint after_fragment (t : string) : option (option string) :=
  if slashed t then Some (Some t)
  else match t with
       | EmptyString => Some None
       | String a t' =>
           if line_terminator a then None else after_fragment t'
       end.

Definition after_prefix (p s : string) : option string :=
  if String.prefix p s
  then Some (String.substring (String.length p)
                              (String.length s - String.length p) s)
  else None.

(** [key.match(Merger.INCLUDE_PATTERN)]: [None] when there is no match,
    else the second group ([None] when it takes no part). *)
Definition INCLUDE_PATTERN_match (key : string) : option (option string) :=
  match after_prefix "$include" key with
  | None => None
  | Some rest =>
      match rest with
      | String "#"%char t => after_fragment t
      | EmptyString => Some None
      | _ => if slashed rest then Some (Some rest) else None
      end
  end.

Definition getKeyPattern (key : string) : option string :=
  let groups := INCLUDE_PATTERN_match key in
  let pattern := match groups with Some g => g | None => None end in
  match pattern with
  | Some p =>
      if String.eqb p "" then None
      else Some (String.substring 1 (String.length p - 2) p)
  | None => None
  end.

(** ** The collaborators of the engine *)

(** What [parseUrl] of util.js returns. *)
Record parsed_url := mkParsed {
  isHttp : bool;
  isLocal : bool;
  href : string;
  hrefWoHash : string;
  hash : string;
}.

(** The functions the engine requires and does not define: the helpers
    of util.js, ref.js, yaml.js and http.js, the naming of components.js,
    and Node's [path], [url] and [glob].  A loader that answers [None]
    throws. *)
Record World := mkWorld {
  parseUrl : value → option parsed_url;
  getRefType : string → string;
  shouldInclude : string → bool;
  readYAML : string → option Node;
  download : string → option Node;
  sliceObject : heap → value → string → value;
  re_test : string → string → bool;
  Glob_sync : string → list string;
  Path_resolve_cwd : string → string;
  Path_dirname : string → string;
  Path_join : string → string → string;
  Path_relative : string → string → string;
  Path_stem : string → string;
  Url_resolve : string → string → string;
  loadContent : string → option Node;
  defaultName : string → string;
  resolvedName : list Component → string → string → string;
  localRefOf : string → string → string;
  ref_matches : Component → value → bool;
}.

(** ** [_.merge] of lodash

    [merge dest src] writes the properties of [src] into [dest] and,
    where both sides hold an object, goes on inside it; an object or
    array of [src] that has no object to go into is copied.  The source
    is a tree, so the stack lodash keeps against cyclic sources is left
    out, as are inherited names. *)

Definition has_own (k : string) (o : jsobj) : bool :=
  match o with
  | JObj ps => bool_decide (is_Some (alist_get k ps))
  | JArr es ps =>
      match index_of k with
      | Some i => bool_decide (is_Some (mjoin (es !! i)))
      | None => bool_decide (k = "length"%string ∨ is_Some (alist_get k ps))
      end
  end.

(** [keysIn(src)] with the value of each: every position of an array,
    holes as [undefined], then its other names. *)
Definition merge_entries (o : jsobj) : list (string * value) :=
  match o with
  | JObj ps => ps
  | JArr es ps => imap (λ i e, (index_key i, default VUndef e)) es ++ ps
  end.

(** [assignMergeValue]: [undefined] does not replace a property. *)
Definition assignMergeValue (dest : loc) (k : string) (v : value) : M unit :=
  o ← deref dest;
  if bool_decide (v = VUndef) && has_own k o then mret ()
  else set_prop dest k v.

Fixpoint baseMerge (fuel : nat) (dest : loc) (src : jsobj) : M unit :=
  match fuel with
  | 0 => λ _, Unsettled
  | S n =>
      let baseMergeDeep (k : string) (l : loc) : M unit :=
        srcValue ← deref l;
        o ← deref dest;
        let objValue := obj_get k o in
        isArr ← isArray objValue;
        newValue ←
          (if obj_is_array srcValue then
             if isArr : bool then mret objValue else new_obj (JArr [] [])
           else
             if isObject objValue then mret objValue
             else new_obj (JObj [])) : M value;
        match newValue with
        | VRef l' =>
            (if bool_decide (l' = l) then mret ()
             else baseMerge n l' srcValue);;
            assignMergeValue dest k newValue
        | _ => throw TypeError
        end in
      let fix each (kvs : list (string * value)) : M unit :=
        match kvs with
        | [] => mret ()
        | (k, v) :: kvs' =>
            match v with
            | VRef l => baseMergeDeep k l
            | _ => assignMergeValue dest k v
            end;;
            each kvs'
        end in
      each (merge_entries src)
  end.

(** [_.merge(object, source)]: returns [Object(object)]; a falsy source
    is skipped. *)
Definition lodash_merge (fuel : nat) (object source : value) : M value :=
  dest ← to_object object;
  (if truthy source then
     if bool_decide (VRef dest = source) then mret ()
     else
       match source with
       | VRef l => src ← deref l; baseMerge fuel dest src
       | VStr s => baseMerge fuel dest (JObj (string_entries 0 s))
       | _ => mret ()
       end
   else mret ());;
  mret (VRef dest).

Section Engine.

Context (W : World).

(** ** The component registry *)

(** Modelled from the spec: components.js is missing.  [new
    ComponentManager(nameResolver)] starts with no component; the
    resolver, when given, is the one built from the components of the
    first pass. *)
Definition ComponentManager_new (resolver : option (list Component))
  : manager := mkManager [] resolver.

(** Modelled from the spec: components.js is missing.  [get(refString)]
    answers the registered component the string designates, if any. *)
Definition manager_get (m : manager) (v : value) : option nat :=
  fst <$> list_find (λ c, ref_matches W c v = true) (m_components m).

(** Modelled from the spec: components.js is missing.  [getOrCreate]
    returns the existing component of the canonical key if seen; else it
    loads the content, names the component (provisionally, or as the
    resolver decided), registers it and returns it. *)
Definition getOrCreate (type url : string) : M nat :=
  m ← get_manager;
  match list_find (λ c, c_url c = url) (m_components m) with
  | Some (i, _) => mret i
  | None =>
      match loadContent W url with
      | None => throw LoadError
      | Some n =>
          emit (EvLoad url);;
          content ← receive n;
          let name :=
            match m_resolver m with
            | None => defaultName W url
            | Some cs => resolvedName W cs type url
            end in
          put_manager
            (mkManager (m_components m ++ [mkComponent type url name content])
                       (m_resolver m));;
          mret (length (m_components m))
      end
  end.

(** The component at a position of the registry. *)
Definition component (i : nat) : M Component :=
  m ← get_manager;
  match m_components m !! i with
  | Some c => mret c
  | None => throw TypeError
  end.

(** [cmp.content = v] *)
Definition set_content (i : nat) (v : value) : M unit :=
  m ← get_manager;
  match m_components m !! i with
  | Some c =>
      emit (EvContent (c_url c));;
      put_manager
        (mkManager
           (<[i := mkComponent (c_type c) (c_url c) (c_name c) v]>
              (m_components m))
           (m_resolver m))
  | None => throw TypeError
  end.

(** Modelled from the spec: components.js is missing.  [getLocalRef]
    renders the pointer put at the reference site. *)
Definition getLocalRef (c : Component) : string :=
  localRefOf W (c_type c) (c_name c).

(** Modelled from the spec: components.js is missing.
    [getComponentsSection] is a new map holding the content of every
    component under its kind and its assigned name. *)
Fixpoint section_entries (section : value) (cs : list Component) : M unit :=
  match cs with
  | [] => mret ()
  | c :: cs' =>
      sub ← get_prop section (c_type c);
      sub' ← (if isObject sub then mret sub
              else s ← new_obj (JObj []);
                   assign section (c_type c) s;; mret s) : M value;
      assign sub' (c_name c) (c_content c);;
      section_entries section cs'
  end.

Definition getComponentsSection : M value :=
  m ← get_manager;
  section ← new_obj (JObj []);
  section_entries section (m_components m);;
  mret section.

(** Modelled from the spec: util.js is missing.  [filterObject] keeps the
    names the pattern matches, in a new map; with no pattern, or on what
    is not an object, it returns its argument. *)
Definition filterObject (merged : value) (keyPattern : option string) : M value :=
  match keyPattern, merged with
  | Some p, VRef l =>
      o ← deref l;
      new_obj (JObj (filter (λ kv, re_test W p kv.1 = true) (obj_entries o)))
  | _, _ => mret merged
  end.

(** ** The merger: [src/merger.js] *)

(** [parseUrl(v)] *)
Definition parse (v : value) : M parsed_url :=
  match parseUrl W v with
  | Some p => mret p
  | None => throw TypeError
  end.

(** A value where [path] and [url] require a string. *)
Definition as_string (v : value) : M string :=
  match v with
  | VStr s => mret s
  | _ => throw TypeError
  end.

(** [Number(key)] as [splice] takes it: the position an index names; a
    name that is no number counts as 0.  Other spellings of numbers are
    not modelled. *)
Definition splice_start (key : string) : nat := default 0 (index_of key).

(** [a.splice(Number(key), 1)] *)
Definition splice (a : value) (key : string) : M unit :=
  match a with
  | VRef l =>
      h ← get_heap; put_heap (heap_update l (obj_splice1 (splice_start key)) h)
  | _ => throw TypeError
  end.

(** [a.concat(b)] for arrays [a] and [b]: a new array of the elements of
    both. *)
Definition concat (a b : value) : M value :=
  match a, b with
  | VRef la, VRef lb =>
      oa ← deref la;
      ob ← deref lb;
      match oa, ob with
      | JArr ea _, JArr eb _ => new_obj (JArr (ea ++ eb) [])
      | _, _ => throw TypeError
      end
  | _, _ => throw TypeError
  end.

(** The target of a reference that is neither absolute nor local,
    lines 97-102 and 129-134. *)
Definition relative_target (pFile : parsed_url) (val : value) : M string :=
  s ← as_string val;
  if isHttp pFile
  then mret (Url_resolve W (Path_dirname W (hrefWoHash pFile) +:+ "/") s)
  else mret (Path_join W (Path_dirname W (hrefWoHash pFile)) s).

Definition do_download (url : string) : M value :=
  match download W url with
  | Some n => emit (EvDownload url);; receive n
  | None => throw FetchError
  end.

Definition do_readYAML (file : string) : M value :=
  match readYAML W file with
  | Some n => emit (EvRead file);; receive n
  | None => throw LoadError
  end.

(** Lines 163-181 of [handleInclude]: what becomes of [ret] once the
    included content is merged. *)
Definition include_result (fuel : nat) (ret : value) (key : string) (val : value)
    (jsonPath : string) (keyPattern : option string) (merged : value)
  : M value :=
  ma ← isArray merged;
  if ma : bool then
    ra ← isArray ret;
    if ra : bool then concat ret merged
    else
      es ← entries_of ret;
      if decide (length es = 1) then mret merged
      else throw (StructuralMergeError val jsonPath)
  else
    filtered ← filterObject merged keyPattern;
    lodash_merge fuel ret filtered;;
    delete_ ret key;;
    mret ret.

(** The four methods call each other; each is written first over the
    methods it calls, and the knot is tied below. *)
Section Methods.

Variable mergeRefs : value → string → string → M value.
Variable handleRef : value → string → value → string → string → M unit.
Variable handleInclude : value → string → value → string → string → M value.
Variable handleDiscriminator :
  value → string → value → string → string → M unit.
Variable fuel : nat.

(** Lines 53-69: one turn of the loop of [mergeRefs]; the result is the
    [ret] of the next turn. *)
Definition mergeRefs_entry (file jsonPath : string) (ret : value)
    (key : string) (val : value) : M value :=
  assign ret key val;;
  if decide (key = "$ref"%string) then
    handleRef ret key val file jsonPath;; mret ret
  else if INCLUDE_PATTERN_match key is Some _ then
    handleInclude ret key val file jsonPath
  else if decide (key = "discriminator"%string) then
    handleDiscriminator ret key val file jsonPath;; mret ret
  else
    merged ← mergeRefs val file (jsonPath +:+ "." +:+ key);
    ra ← isArray ret;
    ma ← isArray merged;
    if ra && ma then
      splice ret key;;
      concat ret merged
    else
      assign ret key merged;; mret ret.

Fixpoint mergeRefs_loop (file jsonPath : string)
    (entries : list (string * value)) (ret : value) : M value :=
  match entries with
  | [] => mret ret
  | (key, val) :: rest =>
      ret' ← mergeRefs_entry file jsonPath ret key val;
      mergeRefs_loop file jsonPath rest ret'
  end.

Definition mergeRefs_body (obj : value) (file jsonPath : string) : M value :=
  if negb (isObject obj) then mret obj
  else
    isArr ← isArray obj;
    ret ← new_obj (if isArr : bool then JArr [] [] else JObj []);
    entries ← entries_of obj;
    mergeRefs_loop file jsonPath entries ret.

(** Lines 84-106 of [handleRef]: the component and the file to go on
    with, or nothing when the method returns early. *)
Definition handleRef_target (val : value) (pRef pFile : parsed_url)
    (refType : string) : M (option (nat * string)) :=
  if isHttp pRef then
    cmp ← getOrCreate refType (href pRef);
    mret (Some (cmp, hrefWoHash pRef))
  else if isLocal pRef then
    m ← get_manager;
    if manager_get m val is Some _ then mret None
    else
      cmp ← getOrCreate refType (hrefWoHash pFile +:+ hash pRef);
      mret (Some (cmp, hrefWoHash pFile))
  else
    target ← relative_target pFile val;
    parsedTarget ← parse (VStr target);
    cmp ← getOrCreate refType target;
    mret (Some (cmp, hrefWoHash parsedTarget)).

Definition handleRef_body (ret : value) (key : string) (val : value)
    (file jsonPath : string) : M unit :=
  pRef ← parse val;
  pFile ← parse (VStr file);
  let refType := getRefType W jsonPath in
  if shouldInclude W refType then
    handleInclude ret key val file jsonPath;; mret ()
  else
    t ← handleRef_target val pRef pFile refType;
    match t with
    | None => mret ()
    | Some (cmp, nextFile) =>
        c ← component cmp;
        assign ret key (VStr (getLocalRef c));;
        merged ← mergeRefs (c_content c) nextFile jsonPath;
        set_content cmp merged
    end.

(** Lines 144-154: the files a glob matched, each included under its
    base name. *)
Fixpoint include_matched (key file jsonPath : string) (content : value)
    (matchedFiles : list string) : M unit :=
  match matchedFiles with
  | [] => mret ()
  | mf :: rest =>
      let basename := Path_stem W mf in
      arg ← new_obj (obj_set key (VStr mf) (JObj []));
      inc ← handleInclude arg key (VStr mf) file
              (jsonPath +:+ "." +:+ basename);
      assign content basename inc;;
      include_matched key file jsonPath content rest
  end.

(** Lines 117-160 of [handleInclude]: the content and the file to go on
    with, or nothing when the method returns early. *)
Definition handleInclude_content (key : string) (val : value)
    (file jsonPath : string) (pRef pFile : parsed_url)
  : M (option (value * string)) :=
  if isHttp pRef then
    content ← do_download (hrefWoHash pRef);
    mret (Some (content, hrefWoHash pRef))
  else if isLocal pRef then
    m ← get_manager;
    if manager_get m val is Some _ then mret None
    else
      content ← do_readYAML file;
      mret (Some (content, hrefWoHash pFile))
  else
    target ← relative_target pFile val;
    parsedTarget ← parse (VStr target);
    content ←
      (if isHttp parsedTarget then do_download (hrefWoHash parsedTarget)
       else
         content ← new_obj (JObj []);
         let matchedFiles :=
           Path_relative W (Path_dirname W (hrefWoHash pFile))
             <$> Glob_sync W (hrefWoHash parsedTarget) in
         if decide (1 < length matchedFiles) then
           include_matched key file jsonPath content matchedFiles;;
           mret content
         else do_readYAML (hrefWoHash parsedTarget)) : M value;
    mret (Some (content, hrefWoHash parsedTarget)).

Definition handleInclude_body (ret : value) (key : string) (val : value)
    (file jsonPath : string) : M value :=
  pRef ← parse val;
  pFile ← parse (VStr file);
  let keyPattern := getKeyPattern key in
  t ← handleInclude_content key val file jsonPath pRef pFile;
  match t with
  | None => mret ret
  | Some (content, nextFile) =>
      h ← get_heap;
      let sliced := sliceObject W h content (hash pRef) in
      merged ← mergeRefs sliced nextFile jsonPath;
      include_result fuel ret key val jsonPath keyPattern merged
  end.

(** Lines 189-200: one turn of the loop of [handleDiscriminator]. *)
Definition handleDiscriminator_entry (mapping : value) (file jsonPath : string)
    (mkey : string) (mval : value) : M unit :=
  parsedRef ← parse mval;
  m ← get_manager;
  if isLocal parsedRef && bool_decide (is_Some (manager_get m mval))
  then mret ()
  else if truthy mval then
    handleRef mapping mkey mval file
      (jsonPath +:+ ".discriminator." +:+ mkey)
  else mret ().

Fixpoint handleDiscriminator_loop (mapping : value) (file jsonPath : string)
    (entries : list (string * value)) : M unit :=
  match entries with
  | [] => mret ()
  | (mkey, mval) :: rest =>
      handleDiscriminator_entry mapping file jsonPath mkey mval;;
      handleDiscriminator_loop mapping file jsonPath rest
  end.

Definition handleDiscriminator_body (ret : value) (key : string) (val : value)
    (file jsonPath : string) : M unit :=
  mapping ← get_prop val "mapping";
  if negb (truthy mapping) then mret ()
  else
    entries ← entries_of mapping;
    handleDiscriminator_loop mapping file jsonPath entries.

End Methods.

(** The methods proper.  [fuel] bounds the depth of nested calls: a
    call that would go deeper has not settled. *)
Fixpoint mergeRefs (fuel : nat) : value → string → string → M value :=
  match fuel with
  | 0 => λ _ _ _ _, Unsettled
  | S n =>
      mergeRefs_body
        (λ obj file jsonPath, mergeRefs n obj file jsonPath)
        (λ ret key val file jsonPath, handleRef n ret key val file jsonPath)
        (λ ret key val file jsonPath, handleInclude n ret key val file jsonPath)
        (λ ret key val file jsonPath,
           handleDiscriminator n ret key val file jsonPath)
  end
with handleRef (fuel : nat) : value → string → value → string → string → M unit :=
  match fuel with
  | 0 => λ _ _ _ _ _ _, Unsettled
  | S n =>
      handleRef_body
        (λ obj file jsonPath, mergeRefs n obj file jsonPath)
        (λ ret key val file jsonPath, handleInclude n ret key val file jsonPath)
  end
with handleInclude (fuel : nat)
  : value → string → value → string → string → M value :=
  match fuel with
  | 0 => λ _ _ _ _ _ _, Unsettled
  | S n =>
      handleInclude_body
        (λ obj file jsonPath, mergeRefs n obj file jsonPath)
        (λ ret key val file jsonPath, handleInclude n ret key val file jsonPath)
        n
  end
with handleDiscriminator (fuel : nat)
  : value → string → value → string → string → M unit :=
  match fuel with
  | 0 => λ _ _ _ _ _ _, Unsettled
  | S n =>
      handleDiscriminator_body
        (λ ret key val file jsonPath, handleRef n ret key val file jsonPath)
  end.

(** Lines 27-45: [merge(doc, inputFile)]. *)
Definition merge (fuel : nat) (doc : value) (inputFile : string) : M value :=
  let currentFile := Path_resolve_cwd W inputFile in
  put_manager (ComponentManager_new None);;
  mergeRefs fuel doc currentFile "$";;
  m ← get_manager;
  let nameResolver := m_components m in
  put_manager (ComponentManager_new (Some nameResolver));;
  doc ← mergeRefs fuel doc currentFile "$";
  components ← get_prop doc "components";
  section ← getComponentsSection;
  merged ← lodash_merge fuel components section;
  assign doc "components" merged;;
  mret doc.

End Engine.

(** * The words of the specification, for comparison *)

Module Spec.

(** A shallow merge: every property of the source is written to the
    destination as it is. *)
Definition shallow_merge (dest src : value) : M unit :=
  entries ← entries_of src;
  (fix each (kvs : list (string * value)) : M unit :=
     match kvs with
     | [] => mret ()
     | (k, v) :: kvs' => assign dest k v;; each kvs'
     end) entries.

(** "Map result: apply key-filter pattern if present, shallow-merge
    remaining keys into the surrounding map, delete the directive key." *)
Definition include_map_result (W : World) (ret : value) (key : string)
    (keyPattern : option string) (merged : value) : M value :=
  filtered ← filterObject W merged keyPattern;
  shallow_merge ret filtered;;
  delete_ ret key;;
  mret ret.

(** A deep merge of two registries in which the entries of the first
    win: maps are merged key by key, and where the two sides do not both
    hold a map the first is kept. *)
Fixpoint deep_merge (a b : Node) : Node :=
  match a, b with
  | NMap fa, NMap fb =>
      let fix both (fs : list (string * Node)) : list (string * Node) :=
        match fs with
        | [] => []
        | (k, va) :: fs' =>
            (k, match list_find (λ kv, kv.1 = k) fb with
                | Some (_, (_, vb)) => deep_merge va vb
                | None => va
                end) :: both fs'
        end in
      NMap (both fa
            ++ filter (λ kv, list_find (λ kv', kv'.1 = kv.1) fa = None) fb)
  | _, _ => a
  end.

End Spec.

(** * A small world for examples

    One flat directory of YAML files, no network.  References are
    [file], [file#/pointer] or [#/pointer]; every reference is hoisted
    as a schema; a glob matches what the table says. *)
Module Fixture.

Fixpoint assoc {A} (k : string) (l : list (string * A)) : option A :=
  match l with
  | [] => None
  | (k', a) :: l' => if decide (k' = k) then Some a else assoc k l'
  end.

Definition before (c : ascii) (s : string) : string :=
  match String.index 0 (String c EmptyString) s with
  | Some i => String.substring 0 i s
  | None => s
  end.

Definition from (c : ascii) (s : string) : string :=
  match String.index 0 (String c EmptyString) s with
  | Some i => String.substring i (String.length s - i) s
  | None => EmptyString
  end.

(** The segments of [#/a/b]. *)
Fixpoint segments (cur : string) (s : string) : list string :=
  match s with
  | EmptyString => [cur]
  | String a s' =>
      if Ascii.eqb a "/" then cur :: segments EmptyString s'
      else segments (cur +:+ String a EmptyString) s'
  end.

Definition pointer (hash : string) : list string :=
  match hash with
  | String "#" (String "/" rest) => segments EmptyString rest
  | _ => []
  end.

Fixpoint node_at (segs : list string) (n : Node) : option Node :=
  match segs with
  | [] => Some n
  | k :: segs' =>
      match n with
      | NMap fields => assoc k fields ≫= node_at segs'
      | _ => None
      end
  end.

Fixpoint value_at (h : heap) (segs : list string) (v : value) : value :=
  match segs with
  | [] => v
  | k :: segs' =>
      match v with
      | VRef l =>
          match h !! l with
          | Some o => value_at h segs' (obj_get k o)
          | None => VUndef
          end
      | _ => VUndef
      end
  end.

Definition parse_string (s : string) : parsed_url :=
  mkParsed (String.prefix "http" s) (String.prefix "#" s) s
           (before "#" s) (from "#" s).

Definition name_of (url : string) : string :=
  match pointer (from "#" url) with
  | [] => before "." url
  | segs => default EmptyString (last segs)
  end.

Definition local_ref (type name : string) : string :=
  "#/components/" +:+ type +:+ "/" +:+ name.

Definition world (files : list (string * Node))
    (globs : list (string * list string)) : World :=
  {| parseUrl := λ v,
       match v with VStr s => Some (parse_string s) | _ => None end;
     getRefType := λ _, "schemas";
     shouldInclude := λ _, false;
     readYAML := λ f, assoc f files;
     download := λ _, None;
     sliceObject := λ h v hash, value_at h (pointer hash) v;
     re_test := λ p k, String.prefix p k;
     Glob_sync := λ p, default [] (assoc p globs);
     Path_resolve_cwd := λ f, f;
     Path_dirname := λ _, EmptyString;
     Path_join := λ _ s, s;
     Path_relative := λ _ s, s;
     Path_stem := before ".";
     Url_resolve := λ _ s, s;
     loadContent := λ url,
       assoc (before "#" url) files ≫= node_at (pointer (from "#" url));
     defaultName := name_of;
     resolvedName := λ _ _ url, name_of url;
     localRefOf := local_ref;
     ref_matches := λ c v,
       bool_decide (v = VStr (local_ref (c_type c) (c_name c))) |}.

(** The state a program starts in. *)
Definition start : state := mkState [] (ComponentManager_new None) [].

(** A run on a document given as a tree: the tree enters the empty heap,
    the method runs on it, and the result is read back. *)
Definition run {A} (doc : Node) (f : value → M A) : res (value * A) :=
  (v ← receive doc; r ← f v; mret (v, r)) start.

Definition tree_of (s : state) (v : value) : option Node :=
  read_node 32 (st_heap s) v.

(** The document as a value, and the state that holds just it. *)
Definition enter (doc : Node) : value * state :=
  let '(v, h) := alloc_node doc [] in
  (v, mkState h (ComponentManager_new None) []).

End Fixture.

(** * Example documents *)
Module Examples.

Import Fixture.

Definition Error_yaml : Node := NMap [("type", NStr "object")].
Definition Cat_yaml : Node := NMap [("type", NStr "cat")].
Definition list_yaml : Node := NSeq [NStr "a"; NStr "b"].
Definition obj_yaml : Node :=
  NMap [("x", NNum 1); ("a", NMap [("q", NNum 7)])].

(** A root document with a schema of its own named [Cat] and a
    discriminator that maps to a file. *)
Definition main_yaml : Node :=
  NMap [("components",
         NMap [("schemas", NMap [("Cat", NMap [("type", NStr "local cat")])])]);
        ("discriminator", NMap [("mapping", NMap [("cat", NStr "Cat.yaml")])])].

Definition files : list (string * Node) :=
  [("main.yaml", main_yaml); ("Error.yaml", Error_yaml);
   ("Cat.yaml", Cat_yaml); ("list.yaml", list_yaml); ("obj.yaml", obj_yaml)].

(** [*.yml] is a glob that matches no file. *)
Definition W0 : World := world files [("*.yml", [])].

(** A document with a schema of its own under the name a hoisted file
    gets. *)
Definition local_Error : Node :=
  NMap [("schemas",
         NMap [("Error", NMap [("type", NStr "local"); ("title", NStr "mine")])])].
Definition hoisted_Error : Node := NMap [("schemas", NMap [("Error", Error_yaml)])].
Definition doc_conflict : Node :=
  NMap [("components", local_Error);
        ("x", NMap [("$ref", NStr "Error.yaml")])].

(** Two references to one file. *)
Definition doc_two_refs : Node :=
  NMap [("a", NMap [("$ref", NStr "Error.yaml")]);
        ("b", NMap [("$ref", NStr "Error.yaml")])].

(** An included sequence, followed by another element. *)
Definition doc_flatten : Node :=
  NMap [("items", NSeq [NMap [("$include", NStr "list.yaml")]; NStr "c"])].

(** An included sequence in a map that has another key, after and before
    the directive. *)
Definition doc_include_first : Node :=
  NMap [("$include", NStr "list.yaml"); ("k", NNum 1)].
Definition doc_include_last : Node :=
  NMap [("k", NNum 1); ("$include", NStr "list.yaml")].

(** An included map that shares a name with the surrounding map. *)
Definition doc_include_map : Node :=
  NMap [("a", NMap [("p", NNum 1)]); ("$include", NStr "obj.yaml")].

(** An inclusion by a glob that matches nothing. *)
Definition doc_glob : Node := NMap [("$include", NStr "*.yml")].

(** A state whose registry holds the schema [Pet] of the current file,
    and whose heap holds a map with a reference to it. *)
Definition Pet : Component :=
  mkComponent "schemas" "main.yaml#/components/schemas/Pet" "Pet" VNull.
Definition registered : state :=
  mkState [JObj [("$ref", VStr "#/components/schemas/Pet")]]
          (mkManager [Pet] None) [].

(** A state whose heap holds a discriminator without mapping, at 0, and a
    mapping with an empty target, at 1. *)
Definition discriminators : state :=
  mkState [JObj [("propertyName", VStr "type")]; JObj [("a", VStr "")]]
          (ComponentManager_new None) [].

(** A state whose heap holds a surrounding map, at 0, and merged
    content, at 1. *)
Definition surrounding : state :=
  mkState [JObj [("$include", VStr "obj.yaml")]; JObj [("x", VNum 1)]]
          (ComponentManager_new None) [].

(** A state whose heap holds a surrounding map, at 1, with a map under
    [a], at 0, and merged content, at 3, with a map under [a], at 2. *)
Definition shared_name : state :=
  mkState [JObj [("p", VNum 1)];
           JObj [("a", VRef 0); ("$include", VStr "obj.yaml")];
           JObj [("q", VNum 7)];
           JObj [("x", VNum 1); ("a", VRef 2)]]
          (ComponentManager_new None) [].

(** A state whose heap holds a mapping to a file. *)
Definition mapping_to_file : state :=
  mkState [JObj [("cat", VStr "Cat.yaml")]] (ComponentManager_new None) [].

(** A state whose registry holds the schema [Pet] of the current file
    under its canonical key, the file and the pointer [#/Pet], and whose
    heap holds a map with a reference to that pointer, at 0, the content
    of the schema, at 1, a mapping to that pointer, at 2, and the
    discriminator that has the mapping, at 3. *)
Definition Pet_by_key : Component :=
  mkComponent "schemas" "main.yaml#/Pet" "Pet" (VRef 1).
Definition registered_by_key : state :=
  mkState [JObj [("$ref", VStr "#/Pet")]; JObj [("type", VStr "object")];
           JObj [("pet", VStr "#/Pet")]; JObj [("mapping", VRef 2)]]
          (mkManager [Pet_by_key] None) [].

(** A state whose heap holds a mapping with an empty target and a target
    that is a file, at 0, the discriminator that has the mapping, at 1,
    and a discriminator without mapping, at 2, in a map under
    construction, at 3. *)
Definition mapped_to_file : state :=
  mkState [JObj [("none", VStr ""); ("cat", VStr "Cat.yaml")];
           JObj [("propertyName", VStr "type"); ("mapping", VRef 0)];
           JObj [("propertyName", VStr "type")];
           JObj []]
          (ComponentManager_new None) [].

(** A discriminator that is [null]. *)
Definition doc_null_discriminator : Node := NMap [("discriminator", NNull)].

(** [merge] on a document, from the state that holds just it. *)
Definition merged (fuel : nat) (doc : Node) : res value :=
  merge W0 fuel (enter doc).1 "main.yaml" (enter doc).2.

(** The result of a run as a tree. *)
Definition result_tree (r : res value) : option Node :=
  match r with
  | Ok v s => tree_of s v
  | _ => None
  end.

End Examples.

(** Further examples. *)
Module Samples.
Import Fixture Examples.

(** A document without reference: status codes, which an object
    enumerates first, and a sequence that holds a map. *)
Definition codes : Node :=
  NMap [("200", NStr "ok"); ("404", NStr "missing");
        ("tags", NSeq [NStr "a"; NMap [("b", NNull)]])].

(** A world in which the glob [E*.yaml] matches one file, and a file
    has the name of the glob. *)
Definition W1 : World :=
  world (("E*.yaml", NNull) :: files) [("E*.yaml", ["Error.yaml"])].

(** A state whose registry holds the schema [Pet], and whose heap holds
    a mapping, at 0, to that schema and to nothing, and the discriminator
    that has the mapping, at 1. *)
Definition mapped : state :=
  mkState [JObj [("cat", VStr "#/components/schemas/Pet"); ("none", VStr "")];
           JObj [("propertyName", VStr "type"); ("mapping", VRef 0)]]
          (mkManager [Pet] None) [].

(** A state whose heap holds two arrays, at 0 and 1, and a map whose one
    name is an inclusion, at 2. *)
Definition arrays : state :=
  mkState [JArr [Some (VNum 1)] []; JArr [Some (VNum 2)] [];
           JObj [("$include", VStr "list.yaml")]]
          (ComponentManager_new None) [].

(** A sequence whose last element is a sequence. *)
Definition nested : Node :=
  NSeq [NStr "a"; NSeq [NStr "b"; NStr "c"]].

(** A world with a file that refers to itself, and a state whose heap
    holds a reference to that file. *)
Definition W2 : World :=
  world [("loop.yaml", NMap [("$ref", NStr "loop.yaml")])] [].

Definition looping : state :=
  mkState [JObj [("$ref", VStr "loop.yaml")]] (ComponentManager_new None) [].

(** A document with a discriminator without mapping, followed by an
    inclusion of a file that has a discriminator as well; and a document
    whose discriminator is a string, with a reference to a file. *)
Definition d_yaml : Node :=
  NMap [("discriminator", NMap [("extra", NNum 1)])].
Definition W3 : World := world (("d.yaml", d_yaml) :: files) [].
Definition doc_tag_include : Node :=
  NMap [("discriminator", NMap [("propertyName", NStr "type")]);
        ("$include", NStr "d.yaml")].
Definition doc_tagged : Node :=
  NMap [("discriminator", NStr "petType");
        ("x", NMap [("$ref", NStr "Error.yaml")])].

(** A state whose heap holds a surrounding map, at 1, with a map under
    [a], at 0, and an inclusion whose key has the filter [a]. *)
Definition including : state :=
  mkState [JObj [("p", VNum 1)];
           JObj [("a", VRef 0); ("$include/a/", VStr "obj.yaml")]]
          (ComponentManager_new None) [].

(** A document with a schema that refers to itself by a pointer of the
    document. *)
Definition doc_self : Node :=
  NMap [("Node", NMap [("next", NMap [("$ref", NStr "#/Node")])])].
Definition W4 : World := world [("main.yaml", doc_self)] [].

End Samples.

(** * A mapping, entry by entry

    The loop of [handleDiscriminator] as a relation between the entries
    still to take, the state, and the outcome.  The entries are taken in
    order.  An entry [parseUrl] refuses ends the run.  An entry is passed
    over, the state being left as it is, when its target is same-document
    and [manager.get] finds the target string, or when the target is
    falsy.  Any other entry is resolved by [handleRef] on the mapping
    object, the type tag and the target, at the json path extended with
    [.discriminator.<typeTag>]; and the run ends as the first of these
    calls that does not return does. *)
Inductive mapping_run (W : World) (n : nat) (mapping : value)
    (file jsonPath : string)
  : list (string * value) → state → res unit → Prop :=
  | mapping_done s :
      mapping_run W n mapping file jsonPath [] s (Ok () s)
  | mapping_refused tag target rest s :
      parseUrl W target = None →
      mapping_run W n mapping file jsonPath ((tag, target) :: rest) s
        (Throw TypeError)
  | mapping_skipped tag target rest s r p :
      parseUrl W target = Some p →
      (isLocal p = true ∧ is_Some (manager_get W (st_manager s) target))
      ∨ truthy target = false →
      mapping_run W n mapping file jsonPath rest s r →
      mapping_run W n mapping file jsonPath ((tag, target) :: rest) s r
  | mapping_resolved tag target rest s s1 r p :
      parseUrl W target = Some p →
      ¬ (isLocal p = true ∧ is_Some (manager_get W (st_manager s) target)) →
      truthy target = true →
      handleRef W n mapping tag target file
        (jsonPath +:+ ".discriminator." +:+ tag) s = Ok () s1 →
      mapping_run W n mapping file jsonPath rest s1 r →
      mapping_run W n mapping file jsonPath ((tag, target) :: rest) s r
  | mapping_stopped tag target rest s r p :
      parseUrl W target = Some p →
      ¬ (isLocal p = true ∧ is_Some (manager_get W (st_manager s) target)) →
      truthy target = true →
      handleRef W n mapping tag target file
        (jsonPath +:+ ".discriminator." +:+ tag) s = r →
      (∀ u s1, r ≠ Ok u s1) →
      mapping_run W n mapping file jsonPath ((tag, target) :: rest) s r.

(** * What a merge may write

    The vocabulary of the frame property: which containers an object
    holds, which containers are held by something, and the invariant a
    merge keeps with respect to the heap [h0] it started from. *)

(** The values an object holds. *)
Definition vals (o : jsobj) : list value :=
  match o with
  | JObj ps => ps.*2
  | JArr es ps => omap id es ++ ps.*2
  end.

(** The containers a container leads to, through what the objects of
    the heap hold. *)
Inductive reach (h : heap) : loc → loc → Prop :=
  | reach_here l : reach h l l
  | reach_step l o l1 l2 :
      h !! l = Some o → VRef l1 ∈ vals o → reach h l1 l2 → reach h l l2.

(** The part of [h0] a merge may write to: the containers that the value
    of a name [discriminator] leads to. *)
Definition region (h0 : heap) (l : loc) : Prop :=
  ∃ l0 o lv, h0 !! l0 = Some o
             ∧ ("discriminator"%string, VRef lv) ∈ obj_entries o
             ∧ reach h0 lv l.

(** A container a merge may write to: one made since [h0], or one of the
    region of [h0]. *)
Definition writable (h0 : heap) (l : loc) : Prop :=
  length h0 ≤ l ∨ region h0 l.

(** The object is clean: every container it holds may be written to. *)
Definition clean (h0 : heap) (o : jsobj) : Prop :=
  ∀ l, VRef l ∈ vals o → writable h0 l.

(** Some object of the heap, or the content of some component, is the
    container at [l]. *)
Definition referenced (s : state) (l : loc) : Prop :=
  (∃ l0 o, st_heap s !! l0 = Some o ∧ VRef l ∈ vals o)
  ∨ (∃ c, c ∈ m_components (st_manager s) ∧ c_content c = VRef l).

(** The heap has the objects of [h0], each as it was or, if of the
    region, holding only containers that may be written to; no reference
    dangles; the contents of the registry were made by the merge; and a
    container that may be written to and that something holds is
    clean. *)
Record Inv (h0 : heap) (s : state) : Prop := mkInv {
  inv_length : length h0 ≤ length (st_heap s);
  inv_old : ∀ l, l < length h0 →
    st_heap s !! l = h0 !! l
    ∨ (region h0 l ∧ ∀ o, st_heap s !! l = Some o → clean h0 o);
  inv_closed : ∀ l0 o l,
    st_heap s !! l0 = Some o → VRef l ∈ vals o → l < length (st_heap s);
  inv_registry : ∀ c l,
    c ∈ m_components (st_manager s) → c_content c = VRef l →
    length h0 ≤ l < length (st_heap s);
  inv_clean : ∀ l o,
    writable h0 l → referenced s l → st_heap s !! l = Some o →
    clean h0 o;
}.

(** The containers of [U] exist and nothing holds them. *)
Definition guarded (U : list loc) (s : state) : Prop :=
  ∀ l, l ∈ U → l < length (st_heap s) ∧ ¬ referenced s l.

(** From [s] to [s']: the invariant holds, the heap has grown, the
    guarded containers other than [ex] are as they were and still
    guarded, and every object that was clean is clean. *)
Record ext (h0 : heap) (U ex : list loc) (s s' : state) : Prop := mkExt {
  ext_inv : Inv h0 s';
  ext_guarded : guarded U s';
  ext_length : length (st_heap s) ≤ length (st_heap s');
  ext_frame : ∀ l, l ∈ U → l ∉ ex → st_heap s' !! l = st_heap s !! l;
  ext_clean : ∀ l o o',
    st_heap s !! l = Some o → st_heap s' !! l = Some o' →
    clean h0 o → clean h0 o';
}.

(** The test that a list of locations has the region of a heap: it has
    the containers the names [discriminator] hold and those its own
    containers hold. *)
Definition has_region (D : list loc) (h : heap) : bool :=
  forallb (λ o, forallb (λ kv, match kv.2 with
                               | VRef lv =>
                                   negb (String.eqb kv.1 "discriminator")
                                   || bool_decide (lv ∈ D)
                               | _ => true
                               end) (obj_entries o)) h
  && forallb (λ l, match h !! l with
                   | Some o =>
                       forallb (λ v, match v with
                                     | VRef lv => bool_decide (lv ∈ D)
                                     | _ => true
                                     end) (vals o)
                   | None => true
                   end) D.

(** The test that no object of the heap holds an object under the name
    [discriminator]; the test that no object of the heap has a property
    named [discriminator] at all; and the test that no reference of the
    heap dangles. *)
Definition no_discriminator_object (h : heap) : bool :=
  forallb (λ o, forallb (λ kv, negb (String.eqb kv.1 "discriminator"
                                     && isObject kv.2))
                        (obj_entries o)) h.

Definition no_discriminator (h : heap) : bool :=
  forallb (λ o, forallb (λ kv, negb (String.eqb kv.1 "discriminator"))
                        (obj_entries o)) h.

Definition closed (h : heap) : bool :=
  forallb (λ o, forallb (λ v, match v with
                              | VRef l => l <? length h
                              | _ => true
                              end) (vals o)) h.

(** A value that, if a container, may be written to and holds only
    containers that may be. *)
Definition made (h0 : heap) (s : state) (v : value) : Prop :=
  ∀ lv, v = VRef lv →
    (writable h0 lv ∧ lv < length (st_heap s))
    ∧ ∀ ov, st_heap s !! lv = Some ov → clean h0 ov.

(** What the frame property asks of the helpers: [parseUrl] accepts no
    object, and [sliceObject] answers its argument or something held by
    an object of the heap. *)
Definition parses_no_object (W : World) : Prop :=
  ∀ l, parseUrl W (VRef l) = None.

Definition slices_held (W : World) : Prop :=
  ∀ h v hash l,
    sliceObject W h v hash = VRef l →
    v = VRef l ∨ ∃ l0 o, h !! l0 = Some o ∧ VRef l ∈ vals o.

(** The objects of a block put at [n0] hold objects of the block only,
    each put before the one that holds it. *)
Definition fresh_block (n0 : nat) (hn : heap) : Prop :=
  ∀ i o x, hn !! i = Some o → VRef x ∈ vals o → n0 ≤ x < n0 + i.

(** How a tree enters the heap: as a block of new objects, its root the
    last of them. *)
Definition alloc_ok (n : Node) : Prop :=
  ∀ h v h', alloc_node n h = (v, h') →
    ∃ hn, h' = h ++ hn ∧ fresh_block (length h) hn
          ∧ ∀ lv, v = VRef lv →
              length h ≤ lv ∧ lv + 1 = length h + length hn.

(** A value a call made: if a container, it was put in the heap during
    the call, nothing holds it, and it is clean. *)
Definition owned (h0 : heap) (s s' : state) (v : value) : Prop :=
  ∀ lv, v = VRef lv →
    length (st_heap s) ≤ lv < length (st_heap s')
    ∧ ¬ referenced s' lv
    ∧ ∃ o, st_heap s' !! lv = Some o ∧ clean h0 o.

(** What the frame property says of each method.  A container a method
    writes to may be written to and is clean; the
    method then keeps the invariant, leaves the guarded containers alone
    (but the one it is to write to), and what it returns is what it was
    given or a container of its own. *)
Definition ret_ok (h0 : heap) (s : state) (ret : value) : Prop :=
  ∀ lr, ret = VRef lr →
    writable h0 lr ∧ ∃ o, st_heap s !! lr = Some o ∧ clean h0 o.

Definition ex_of (ret : value) : list loc :=
  match ret with VRef l => [l] | _ => [] end.

Definition obj_ok (h0 : heap) (s : state) (obj : value) : Prop :=
  ∀ lo, obj = VRef lo →
    lo < length (st_heap s)
    ∧ (length h0 ≤ lo → ∀ o, st_heap s !! lo = Some o → clean h0 o).

Definition mergeRefs_spec (h0 : heap)
    (f : value → string → string → M value) : Prop :=
  ∀ U obj file jsonPath s r s',
    Inv h0 s → guarded U s → obj_ok h0 s obj →
    f obj file jsonPath s = Ok r s' →
    ext h0 U [] s s' ∧ owned h0 s s' r.

Definition handleRef_spec (h0 : heap)
    (f : value → string → value → string → string → M unit) : Prop :=
  ∀ U ret key val file jsonPath s u s',
    Inv h0 s → guarded U s → ret_ok h0 s ret →
    f ret key val file jsonPath s = Ok u s' →
    ext h0 U (ex_of ret) s s'.

Definition handleInclude_spec (h0 : heap)
    (f : value → string → value → string → string → M value) : Prop :=
  ∀ U ret key val file jsonPath s r s',
    Inv h0 s → guarded U s → ret_ok h0 s ret →
    f ret key val file jsonPath s = Ok r s' →
    ext h0 U (ex_of ret) s s'
    ∧ (r = ret ∨ (isObject r = true ∧ owned h0 s s' r)).

Definition handleDiscriminator_spec (h0 : heap)
    (f : value → string → value → string → string → M unit) : Prop :=
  ∀ U ret key val file jsonPath s u s',
    Inv h0 s → guarded U s → ret_ok h0 s val →
    f ret key val file jsonPath s = Ok u s' →
    ext h0 U [] s s'.

(** The [ret] of a walk: a container made since [sb] that is clean and
    that nothing holds. *)
Definition own_ret (h0 : heap) (sb s : state) (ret : value) : Prop :=
  ∃ lr o, ret = VRef lr ∧ length (st_heap sb) ≤ lr
          ∧ st_heap s !! lr = Some o ∧ clean h0 o
          ∧ ¬ referenced s lr.

(** An entry of the node under walk, as it was at [sb]. *)
Definition entry_ok (h0 : heap) (U : list loc) (sb : state)
    (key : string) (val : value) : Prop :=
  ∀ lv, val = VRef lv →
    lv < length (st_heap sb) ∧ (lv ∉ U)
    ∧ (writable h0 lv →
       ∀ ov, st_heap sb !! lv = Some ov → clean h0 ov)
    ∧ (key = "discriminator"%string → writable h0 lv).

(** A method that fails when the reference it is given is an object. *)
Definition rejects_objects {A}
    (f : value → string → value → string → string → M A) : Prop :=
  ∀ ret key l file jsonPath s a s',
    f ret key (VRef l) file jsonPath s ≠ Ok a s'.

(** ** Trees the walk only copies *)

Definition is_seq (n : Node) : bool :=
  match n with NSeq _ => true | _ => false end.

(** A name [mergeRefs] has no branch of its own for, and that [ret[key] =
    val] (line 53) defines as an own property: [__proto__] is not such a
    name, the assignment sets the prototype of [ret] and the name is lost. *)
Definition ordinary (k : string) : bool :=
  negb (String.eqb k "$ref")
  && negb (bool_decide (is_Some (INCLUDE_PATTERN_match k)))
  && negb (String.eqb k "discriminator")
  && negb (String.eqb k "__proto__").

(** The name is new and an object that has the names [seen], in this
    order, enumerates it after them: an index comes after smaller
    indices only. *)
Definition precedes (seen : list string) (k : string) : bool :=
  bool_decide (k ∉ seen)
  && match index_of k with
     | Some i =>
         forallb (λ k', match index_of k' with
                        | Some j => bool_decide (j < i)
                        | None => false
                        end) seen
     | None => true
     end.

(** The names are in the order in which an object enumerates them. *)
Fixpoint enumerated (seen ks : list string) : bool :=
  match ks with
  | [] => true
  | k :: ks' => precedes seen k && enumerated (seen ++ [k]) ks'
  end.

(** A tree with ordinary names only, the names of each map in the order
    of enumeration, no sequence that is an element of a sequence, and
    sequences of a length an array can have. *)
Fixpoint plain (n : Node) : bool :=
  match n with
  | NSeq items =>
      (N.of_nat (length items) <? 4294967295)%N
      && forallb (λ x, negb (is_seq x) && plain x) items
  | NMap fields =>
      enumerated [] fields.*1
      && forallb (λ kv, ordinary kv.1 && plain kv.2) fields
  | _ => true
  end.

(** The value reads as the tree, and the reading looks at nothing
    below [lo]: it is the same in any heap that has the objects of [h]
    from [lo] on. *)
Definition reads_in (d lo : nat) (h : heap) (v : value) (n : Node) : Prop :=
  ∀ h', (∀ l, lo ≤ l < length h → h' !! l = h !! l) →
        read_node d h' v = Some n.

(** A walk that copies: run on a value that reads as a plain tree, it
    settles with a value that reads as the same tree, having loaded and
    registered nothing and changed no object that was there; the copy
    of a container holds its values in objects made after it. *)
Definition copies (d : nat) (f : value → string → string → M value) : Prop :=
  ∀ v n s file jsonPath,
    read_node d (st_heap s) v = Some n → plain n = true →
    ∃ r s',
      f v file jsonPath s = Ok r s'
      ∧ length (st_heap s) ≤ length (st_heap s')
      ∧ (∀ l, l < length (st_heap s) → st_heap s' !! l = st_heap s !! l)
      ∧ st_manager s' = st_manager s ∧ st_trace s' = st_trace s
      ∧ (∀ l, r = VRef l → length (st_heap s) ≤ l)
      ∧ reads_in d (length (st_heap s)) (st_heap s') r n
      ∧ (∀ fields, n = NMap fields →
           ∃ lr ps,
             r = VRef lr ∧ st_heap s' !! lr = Some (JObj ps)
             ∧ Forall2 (λ kv kn,
                          kn.1 = kv.1
                          ∧ ∀ d0, d = S d0 →
                              reads_in d0 (S lr) (st_heap s') kv.2 kn.2)
                       ps fields)
      ∧ (∀ items, n = NSeq items →
           ∃ lr rs,
             r = VRef lr ∧ st_heap s' !! lr = Some (JArr (Some <$> rs) [])
             ∧ Forall2 (λ v x,
                          ∀ d0, d = S d0 →
                            reads_in d0 (S lr) (st_heap s') v x)
                       rs items).

(** The helper definitions of the properties below. *)
Definition urls (s : state) : list string :=
  c_url <$> m_components (st_manager s).

Definition primitive (v : value) : Prop :=
  match v with VRef _ | VUndef => False | _ => True end.

Definition with_manager (m : manager) (s : state) : state :=
  mkState (st_heap s) m (st_trace s).

(** * [_.merge] on trees

    What the deep merge of lodash comes to on documents, said on trees:
    the source is taken name by name; a name that holds a scalar in the
    source holds that scalar afterwards; a name that holds a map or a
    sequence in the source holds the merge of it into what the destination
    held under that name, when that was a container of a kind to go into,
    and into a new empty container otherwise.  The result is [None] where
    the outcome is not a tree or depends on names this model does not treat
    ([__proto__], a name of a sequence that is not the next position, the
    [length] of an array-like map). *)
Module Deep.

Fixpoint fields_get (k : string) (fs : list (string * Node)) : option Node :=
  match fs with
  | [] => None
  | (k', n) :: fs' => if decide (k' = k) then Some n else fields_get k fs'
  end.

Fixpoint fields_replace (k : string) (n : Node) (fs : list (string * Node))
  : list (string * Node) :=
  match fs with
  | [] => []
  | (k', n') :: fs' =>
      if decide (k' = k) then (k, n) :: fs'
      else (k', n') :: fields_replace k n fs'
  end.

Fixpoint fields_insert_index (i : nat) (k : string) (n : Node)
  (fs : list (string * Node)) : list (string * Node) :=
  match fs with
  | [] => [(k, n)]
  | (k', n') :: fs' =>
      match index_of k' with
      | Some j =>
          if decide (j < i) then (k', n') :: fields_insert_index i k n fs'
          else (k, n) :: fs
      | None => (k, n) :: fs
      end
  end.

(** A name that is there keeps its place; a new name goes where an object
    enumerates it. *)
Definition fields_set (k : string) (n : Node) (fs : list (string * Node))
  : list (string * Node) :=
  match fields_get k fs with
  | Some _ => fields_replace k n fs
  | None =>
      match index_of k with
      | Some i => fields_insert_index i k n fs
      | None => fs ++ [(k, n)]
      end
  end.

Definition fields_delete (k : string) (fs : list (string * Node))
  : list (string * Node) :=
  filter (λ kn, kn.1 ≠ k) fs.

(** What a container holds under a name, and the container with a name
    set: in a sequence the names are the positions, and the one that can
    be added is the next. *)
Definition node_get (k : string) (t : Node) : option Node :=
  match t with
  | NMap fs => fields_get k fs
  | NSeq items => index_of k ≫= λ i, items !! i
  | _ => None
  end.

Definition node_set (k : string) (n : Node) (t : Node) : option Node :=
  match t with
  | NMap fs =>
      if decide (k = "__proto__"%string) then None
      else Some (NMap (fields_set k n fs))
  | NSeq items =>
      match index_of k with
      | Some i =>
          if decide (i < length items) then Some (NSeq (<[i := n]> items))
          else if decide (i = length items) then Some (NSeq (items ++ [n]))
          else None
      | None => None
      end
  | _ => None
  end.

Definition node_entries (t : Node) : list (string * Node) :=
  match t with
  | NMap fs => fs
  | NSeq items => imap (λ i c, (index_key i, c)) items
  | _ => []
  end.

(** The entries of a source, one after the other, into a container. *)
Fixpoint fold_entries (value_of : Node → option Node → option Node)
    (entries : list (string * Node)) (acc : Node) : option Node :=
  match entries with
  | [] => Some acc
  | (k, c) :: rest =>
      x ← value_of c (node_get k acc);
      acc' ← node_set k x acc;
      fold_entries value_of rest acc'
  end.

(** The container a map, or a sequence, of the source goes into. *)
Definition map_base (dst : option Node) : option Node :=
  match dst with
  | Some (NMap fd) => Some (NMap fd)
  | Some (NSeq items) => Some (NSeq items)
  | _ => Some (NMap [])
  end.

Definition seq_base (dst : option Node) : option Node :=
  match dst with
  | Some (NSeq items) => Some (NSeq items)
  | Some (NMap fd) =>
      if decide (is_Some (fields_get "length" fd)) then None
      else Some (NSeq [])
  | _ => Some (NSeq [])
  end.

(** What a name holds after the merge, where the source holds [src]
    under it and the destination held [dst]. *)
Fixpoint merge_value (src : Node) (dst : option Node) : option Node :=
  match src with
  | NMap fs =>
      let fix go (fs : list (string * Node)) (acc : Node) : option Node :=
        match fs with
        | [] => Some acc
        | (k, c) :: rest =>
            x ← merge_value c (node_get k acc);
            acc' ← node_set k x acc;
            go rest acc'
        end in
      map_base dst ≫= go fs
  | NSeq items =>
      let fix go (i : nat) (cs : list Node) (acc : Node) : option Node :=
        match cs with
        | [] => Some acc
        | c :: rest =>
            x ← merge_value c (node_get (index_key i) acc);
            acc' ← node_set (index_key i) x acc;
            go (S i) rest acc'
        end in
      seq_base dst ≫= go 0 items
  | _ => Some src
  end.

(** [_.merge(object, source)] on two containers. *)
Definition merge_into (src dst : Node) : option Node :=
  fold_entries merge_value (node_entries src) dst.

End Deep.

(** The containers a value leads to, to a given depth, each as often as
    it is met. *)
Fixpoint footprint (d : nat) (h : heap) (v : value) : list loc :=
  match d with
  | 0 => []
  | S d' =>
      match v with
      | VRef l =>
          l :: match h !! l with
               | Some o => vals o ≫= footprint d' h
               | None => []
               end
      | _ => []
      end
  end.

(** An object read as a tree. *)
Definition read_obj (d : nat) (h : heap) (o : jsobj) : option Node :=
  match o with
  | JObj ps => NMap <$> mapM (λ kv, pair kv.1 <$> read_node d h kv.2) ps
  | JArr es [] => NSeq <$> mapM (λ e, e ≫= read_node d h) es
  | JArr _ _ => None
  end.

(** An entry of an object reads as an entry of a tree. *)
Definition entry_reads (d : nat) (h : heap)
    (kv : string * value) (kn : string * Node) : Prop :=
  kn.1 = kv.1 ∧ read_node d h kv.2 = Some kn.2.

(** The loop of [baseMerge] and its body, by name. *)
Definition baseMerge_entry (n : nat) (dest : loc) (k : string) (v : value)
  : M unit :=
  match v with
  | VRef l =>
      srcValue ← deref l;
      o ← deref dest;
      let objValue := obj_get k o in
      isArr ← isArray objValue;
      newValue ←
        (if obj_is_array srcValue then
           if isArr : bool then mret objValue else new_obj (JArr [] [])
         else
           if isObject objValue then mret objValue
           else new_obj (JObj [])) : M value;
      match newValue with
      | VRef l' =>
          (if bool_decide (l' = l) then mret ()
           else baseMerge n l' srcValue);;
          assignMergeValue dest k newValue
      | _ => throw TypeError
      end
  | _ => assignMergeValue dest k v
  end.

Fixpoint baseMerge_each (n : nat) (dest : loc) (kvs : list (string * value))
  : M unit :=
  match kvs with
  | [] => mret ()
  | (k, v) :: kvs' =>
      baseMerge_entry n dest k v;; baseMerge_each n dest kvs'
  end.

(** What a merge into the object at [ld] leaves, where [F] is the
    footprint of [ld] before: [ld] reads as the tree [t]; what it leads
    to is met once, and was in its footprint or is new; the objects
    outside the footprint are as they were; nothing is registered or
    loaded. *)
Definition merged_into (d : nat) (ld : loc) (F : list loc) (s s' : state)
    (t : Node) : Prop :=
  read_node (S d) (st_heap s') (VRef ld) = Some t
  ∧ NoDup (footprint (S d) (st_heap s') (VRef ld))
  ∧ (∀ l, l ∈ footprint (S d) (st_heap s') (VRef ld) →
          l ∈ F ∨ length (st_heap s) ≤ l)
  ∧ (∀ l, l < length (st_heap s) → l ∉ F →
          st_heap s' !! l = st_heap s !! l)
  ∧ length (st_heap s) ≤ length (st_heap s')
  ∧ st_manager s' = st_manager s
  ∧ st_trace s' = st_trace s.

(** [baseMerge] at depth [n] goes by the tree: run on a destination and a
    source that read as trees and share no container, it settles, and
    leaves the destination reading as the merge of the two trees. *)
Definition merges_by_tree (n : nat) : Prop :=
  ∀ s ld od td src ts t,
    st_heap s !! ld = Some od →
    read_obj n (st_heap s) od = Some td →
    read_obj n (st_heap s) src = Some ts →
    NoDup (ld :: (vals od ≫= footprint n (st_heap s))
              ++ (vals src ≫= footprint n (st_heap s))) →
    Deep.merge_into ts td = Some t →
    ∃ s', baseMerge (S n) ld src s = Ok () s'
          ∧ merged_into n ld (ld :: (vals od ≫= footprint n (st_heap s)))
              s s' t.

(** [Object(v)] as the destination of [_.merge], read as a tree: an
    object as it reads, and a new empty map for what is no object (a
    string, which becomes an object of characters, is left out). *)
Definition destination_tree (d : nat) (h : heap) (v : value) : option Node :=
  match v with
  | VRef _ => read_node d h v
  | VStr _ => None
  | _ => Some (NMap [])
  end.

(** The names [filterObject] retains. *)
Definition retained (W : World) (keyPattern : option string) (k : string)
  : bool :=
  match keyPattern with
  | Some p => re_test W p k
  | None => true
  end.

(** * Properties *)

(** ** Running the monad *)

Lemma bind_Ok {A B} (m : M A) (f : A → M B) s a s' :
  m s = Ok a s' → (m ≫= f) s = f a s'.
Proof. intros H. unfold mbind, M_bind. by rewrite H. Qed.

Lemma bind_Throw {A B} (m : M A) (f : A → M B) s e :
  m s = Throw e → (m ≫= f) s = Throw e.
Proof. intros H. unfold mbind, M_bind. by rewrite H. Qed.

Lemma bind_inv_Ok {A B} (m : M A) (f : A → M B) s b s' :
  (m ≫= f) s = Ok b s' → ∃ a s1, m s = Ok a s1 ∧ f a s1 = Ok b s'.
Proof.
  unfold mbind, M_bind. destruct (m s) as [a s1| |]; [eauto|done|done].
Qed.

Lemma mret_Ok {A} (a : A) s : mret (M := M) a s = Ok a s.
Proof. reflexivity. Qed.

Lemma get_manager_Ok s : get_manager s = Ok (st_manager s) s.
Proof. reflexivity. Qed.

Lemma get_heap_Ok s : get_heap s = Ok (st_heap s) s.
Proof. reflexivity. Qed.

Section Guards.

Context (W : World).

Lemma parse_Some v p s : parseUrl W v = Some p → parse W v s = Ok p s.
Proof. intros H. unfold parse. by rewrite H. Qed.

(** The guard of [handleInclude], lines 121-125. *)
Lemma handleInclude_guard n ret key val file jsonPath pRef pFile i s :
  parseUrl W val = Some pRef →
  parseUrl W (VStr file) = Some pFile →
  isHttp pRef = false →
  isLocal pRef = true →
  manager_get W (st_manager s) val = Some i →
  handleInclude W (S n) ret key val file jsonPath s = Ok ret s.
Proof.
  intros Hr Hf Hh Hl Hg. simpl. unfold handleInclude_body.
  rewrite (bind_Ok _ _ _ _ _ (parse_Some _ _ s Hr)).
  rewrite (bind_Ok _ _ _ _ _ (parse_Some _ _ s Hf)).
  unfold handleInclude_content. rewrite Hh, Hl.
  unfold mbind at 1, M_bind. unfold mbind at 1, M_bind.
  rewrite get_manager_Ok, Hg. reflexivity.
Qed.


End Guards.

Section Discriminator.

Context (W : World).

(** A falsy target that [parseUrl] accepts takes no part in the loop. *)
Lemma handleDiscriminator_loop_truthy hRef mapping file jsonPath entries :
  (∀ k v, (k, v) ∈ entries → truthy v = false → is_Some (parseUrl W v)) →
  ∀ s,
    handleDiscriminator_loop W hRef mapping file jsonPath entries s
    = handleDiscriminator_loop W hRef mapping file jsonPath
        (filter (λ kv, truthy kv.2 = true) entries) s.
Proof.
  induction entries as [|[k v] entries IH]; intros Hall s; [done|].
  assert (∀ k' v', (k', v') ∈ entries → truthy v' = false →
                   is_Some (parseUrl W v')) as Hrest.
  { intros k' v' Hin. apply (Hall k' v'). by right. }
  destruct (truthy v) eqn:Ht.
  - rewrite filter_cons_True by done. cbn [handleDiscriminator_loop].
    unfold mbind, M_bind.
    destruct (handleDiscriminator_entry _ _ _ _ _ _ _ _); [|done..].
    by apply IH.
  - rewrite filter_cons_False by (simpl; by rewrite Ht).
    cbn [handleDiscriminator_loop].
    destruct (Hall k v (list_elem_of_here _ _) Ht) as [p Hp].
    assert (handleDiscriminator_entry W hRef mapping file jsonPath k v s
            = Ok () s) as He.
    { unfold handleDiscriminator_entry.
      rewrite (bind_Ok _ _ _ _ _ (parse_Some W _ _ s Hp)).
      unfold mbind at 1, M_bind. rewrite get_manager_Ok, Ht.
      by destruct (_ && _). }
    rewrite (bind_Ok _ _ _ _ _ He). by apply IH.
Qed.

(** C10, amended.  [handleDiscriminator] reads [val.mapping] first: on a
    discriminator that is [null] or absent it fails with a TypeError.  On
    any other value whose [mapping] is absent or falsy it settles with the
    state unchanged, and the turn of the walk it is called from leaves
    the discriminator in the map under construction as the very value the
    input holds, by reference.  Within a mapping, the entries whose
    target is falsy (and which [parseUrl] accepts) take no part: the
    method does what its loop does on the other entries alone. *)
Theorem discriminator_without_mapping_unchanged
    n ret key val file jsonPath s :
  (val = VNull ∨ val = VUndef →
   handleDiscriminator W (S n) ret key val file jsonPath s = Throw TypeError)
  ∧ (∀ mapping,
       get_prop val "mapping" s = Ok mapping s →
       truthy mapping = false →
       handleDiscriminator W (S n) ret key val file jsonPath s = Ok () s
       ∧ ∀ lr mRefs hRef hInc,
           val ≠ VRef lr →
           is_Some (st_heap s !! lr) →
           mergeRefs_entry mRefs hRef hInc (handleDiscriminator W (S n))
             file jsonPath (VRef lr) "discriminator" val s
           = Ok (VRef lr)
                (mkState (heap_update lr (obj_set "discriminator" val)
                            (st_heap s))
                         (st_manager s) (st_trace s)))
  ∧ (∀ mapping entries,
       get_prop val "mapping" s = Ok mapping s →
       truthy mapping = true →
       entries_of mapping s = Ok entries s →
       (∀ k v, (k, v) ∈ entries → truthy v = false →
               is_Some (parseUrl W v)) →
       handleDiscriminator W (S n) ret key val file jsonPath s
       = handleDiscriminator_loop W (handleRef W n) mapping file jsonPath
           (filter (λ kv, truthy kv.2 = true) entries) s).
Proof.
  split_and!.
  - intros [-> | ->]; reflexivity.
  - intros mapping Hm Ht. split.
    + cbn [handleDiscriminator]. unfold handleDiscriminator_body.
      rewrite (bind_Ok _ _ _ _ _ Hm), Ht. reflexivity.
    + intros lr mRefs hRef hInc Hne [o Ho]. unfold mergeRefs_entry.
      set (s1 := mkState (heap_update lr (obj_set "discriminator" val)
                            (st_heap s)) (st_manager s) (st_trace s)).
      assert (assign (VRef lr) "discriminator" val s = Ok () s1) as Ha
        by reflexivity.
      rewrite (bind_Ok _ _ _ _ _ Ha).
      rewrite decide_False by done. cbn [INCLUDE_PATTERN_match].
      replace (INCLUDE_PATTERN_match "discriminator") with
        (@None (option string)) by reflexivity.
      rewrite decide_True by done.
      assert (get_prop val "mapping" s1 = Ok mapping s1) as Hm1.
      { destruct val as [| | | | |lv]; try done;
          try (cbn in Hm |- *; by injection Hm as <-).
        unfold get_prop, deref in Hm |- *.
        unfold mbind, M_bind in Hm |- *.
        rewrite get_heap_Ok in Hm |- *. cbn [st_heap s1].
        unfold heap_update. rewrite Ho.
        rewrite list_lookup_insert_ne by (intros ->; done).
        destruct (st_heap s !! lv); [|done].
        cbn in Hm |- *. by injection Hm as <-. }
      assert (handleDiscriminator W (S n) (VRef lr) "discriminator" val file
                jsonPath s1 = Ok () s1) as Hd.
      { cbn [handleDiscriminator]. unfold handleDiscriminator_body.
        rewrite (bind_Ok _ _ _ _ _ Hm1), Ht. reflexivity. }
      rewrite (bind_Ok _ _ _ _ _ Hd). reflexivity.
  - intros mapping entries Hm Ht He Hall.
    cbn [handleDiscriminator]. unfold handleDiscriminator_body.
    rewrite (bind_Ok _ _ _ _ _ Hm), Ht. cbn [negb].
    rewrite (bind_Ok _ _ _ _ _ He).
    by apply handleDiscriminator_loop_truthy.
Qed.

(** The pointer [handleRef] writes at the reference site, and the state
    it goes on from: lines 107-108. *)
Lemma handleRef_hoists n ret key val file jsonPath pRef pFile s cmp nextFile
    s1 c :
  parseUrl W val = Some pRef →
  parseUrl W (VStr file) = Some pFile →
  shouldInclude W (getRefType W jsonPath) = false →
  handleRef_target W val pRef pFile (getRefType W jsonPath) s
    = Ok (Some (cmp, nextFile)) s1 →
  m_components (st_manager s1) !! cmp = Some c →
  handleRef W (S n) (VRef ret) key val file jsonPath s
  = (merged ← mergeRefs W n (c_content c) nextFile jsonPath;
     set_content cmp merged)
      (mkState (heap_update ret (obj_set key (VStr (getLocalRef W c)))
                  (st_heap s1))
               (st_manager s1) (st_trace s1)).
Proof.
  intros Hr Hf Hs Ht Hc. cbn [handleRef]. unfold handleRef_body.
  rewrite (bind_Ok _ _ _ _ _ (parse_Some W _ _ s Hr)).
  rewrite (bind_Ok _ _ _ _ _ (parse_Some W _ _ s Hf)).
  rewrite Hs, (bind_Ok _ _ _ _ _ Ht).
  assert (component cmp s1 = Ok c s1) as Hcmp.
  { unfold component. unfold mbind, M_bind. by rewrite get_manager_Ok, Hc. }
  rewrite (bind_Ok _ _ _ _ _ Hcmp).
  unfold mbind at 1, M_bind. reflexivity.
Qed.

(** The loop of [handleDiscriminator] runs as [mapping_run] says. *)
Lemma handleDiscriminator_loop_run n mapping file jsonPath entries :
  ∀ s,
    mapping_run W n mapping file jsonPath entries s
      (handleDiscriminator_loop W (handleRef W n) mapping file jsonPath
         entries s).
Proof.
  induction entries as [|[tag target] entries IH]; intros s.
  { constructor. }
  cbn [handleDiscriminator_loop]. unfold handleDiscriminator_entry.
  destruct (parseUrl W target) as [p|] eqn:Hp.
  2:{ unfold parse. rewrite Hp. by constructor. }
  unfold mbind at 1, M_bind.
  rewrite (bind_Ok _ _ _ _ _ (parse_Some W _ _ s Hp)).
  unfold mbind at 1, M_bind. rewrite get_manager_Ok.
  destruct (isLocal p && bool_decide (is_Some (manager_get W (st_manager s)
                                                 target))) eqn:Hg.
  { apply andb_true_iff in Hg as [Hl Hg%bool_decide_eq_true_1].
    eapply mapping_skipped; [done|by left|]. apply IH. }
  assert (¬ (isLocal p = true
             ∧ is_Some (manager_get W (st_manager s) target))) as Hn.
  { intros [Hl Hf]. rewrite Hl, bool_decide_eq_true_2 in Hg by done.
    discriminate. }
  destruct (truthy target) eqn:Ht.
  2:{ eapply mapping_skipped; [done|by right|]. apply IH. }
  destruct (handleRef W n mapping tag target file
              (jsonPath +:+ ".discriminator." +:+ tag) s)
    as [[] s1| e |] eqn:Hr.
  - eapply mapping_resolved; eauto.
  - eapply mapping_stopped; eauto; by rewrite ?Hr.
  - eapply mapping_stopped; eauto; by rewrite ?Hr.
Qed.


End Discriminator.

Section Inclusion.

Context (W : World).

(** C7, amended.  For an inclusion whose target is a path of the file
    system, relative to the current file, that as a glob matches nothing,
    the engine reads the path itself as a YAML file; when the reader
    cannot read it, [handleInclude] fails with the reader's error, the
    state being dropped with it.  No check of its own refuses the empty
    match. *)
Theorem glob_without_match_is_read_as_file
    n ret key target_ file jsonPath pRef pFile pTarget s :
  let val := VStr target_ in
  let target :=
    if isHttp pFile
    then Url_resolve W (Path_dirname W (hrefWoHash pFile) +:+ "/") target_
    else Path_join W (Path_dirname W (hrefWoHash pFile)) target_ in
  parseUrl W val = Some pRef →
  parseUrl W (VStr file) = Some pFile →
  isHttp pRef = false →
  isLocal pRef = false →
  parseUrl W (VStr target) = Some pTarget →
  isHttp pTarget = false →
  Glob_sync W (hrefWoHash pTarget) = [] →
  readYAML W (hrefWoHash pTarget) = None →
  handleInclude W (S n) ret key val file jsonPath s = Throw LoadError.
Proof.
  intros val target Hr Hf Hh Hl Ht Hth Hg Hy.
  cbn [handleInclude]. unfold handleInclude_body.
  rewrite (bind_Ok _ _ _ _ _ (parse_Some W _ _ s Hr)).
  rewrite (bind_Ok _ _ _ _ _ (parse_Some W _ _ s Hf)).
  apply bind_Throw. unfold handleInclude_content. rewrite Hh, Hl.
  assert (relative_target W pFile val s = Ok target s) as Htg.
  { unfold relative_target, val, target. cbn [as_string].
    rewrite (bind_Ok _ _ _ _ _ (mret_Ok _ s)). by destruct (isHttp pFile). }
  rewrite (bind_Ok _ _ _ _ _ Htg).
  rewrite (bind_Ok _ _ _ _ _ (parse_Some W _ _ s Ht)).
  apply bind_Throw. rewrite Hth.
  unfold mbind at 1, M_bind, new_obj.
  unfold mbind at 1, M_bind. rewrite get_heap_Ok. cbn.
  rewrite Hg. cbn. unfold do_readYAML. by rewrite Hy.
Qed.

End Inclusion.

(** ** Names and the include pattern *)

Lemma alist_get_delete k ps : alist_get k (alist_delete k ps) = None.
Proof.
  induction ps as [|[k' v'] ps IH]; [done|]. simpl.
  destruct (decide (k' = k)) as [->|Hne]; [done|].
  simpl. by rewrite decide_False.
Qed.

Lemma has_own_delete k o :
  index_of k = None → k ≠ "length"%string → has_own k (obj_delete k o) = false.
Proof.
  intros Hi Hl. destruct o as [ps|es ps]; simpl.
  - rewrite alist_get_delete. apply bool_decide_eq_false_2.
    by intros [? ?].
  - rewrite Hi. simpl. rewrite Hi, alist_get_delete.
    apply bool_decide_eq_false_2. intros [?|[? ?]]; done.
Qed.

Lemma after_prefix_dollar p k r :
  after_prefix (String "$" p) k = Some r →
  index_of k = None ∧ k ≠ "length"%string.
Proof.
  unfold after_prefix. destruct (String.prefix _ k) eqn:E; [|discriminate].
  intros _. destruct k as [|a k]; [discriminate|].
  cbn [String.prefix] in E.
  destruct (Ascii.ascii_dec "$" a) as [<-|]; [|discriminate].
  split; [reflexivity|discriminate].
Qed.

Lemma include_key_no_index key g :
  INCLUDE_PATTERN_match key = Some g →
  index_of key = None ∧ key ≠ "length"%string.
Proof.
  unfold INCLUDE_PATTERN_match.
  destruct (after_prefix "$include" key) eqn:H; [|done].
  intros _. by eapply after_prefix_dollar.
Qed.

Lemma substring_all s : String.substring 0 (String.length s) s = s.
Proof. induction s; simpl; by f_equal. Qed.

Lemma substring_app_l s t :
  String.substring 0 (String.length s) (s +:+ t) = s.
Proof.
  induction s as [|a s IH]; simpl.
  - by destruct t.
  - by f_equal.
Qed.

Lemma length_app_string s t :
  String.length (s +:+ t) = String.length s + String.length t.
Proof. induction s; simpl; by f_equal. Qed.

Lemma last_char_app s a : last_char (s +:+ String a EmptyString) = Some a.
Proof.
  induction s as [|b s IH]; [done|]. simpl in *.
  destruct (s +:+ String a EmptyString) eqn:E; [|done].
  by destruct s.
Qed.

Lemma no_line_terminator_app s t :
  no_line_terminator (s +:+ t) = no_line_terminator s && no_line_terminator t.
Proof.
  induction s as [|a s IH]; [done|]. simpl. rewrite IH.
  by rewrite andb_assoc.
Qed.

Lemma prefix_app p r : String.prefix p (p +:+ r) = true.
Proof.
  induction p as [|a p IH]; simpl; [by destruct r|].
  by destruct (Ascii.ascii_dec a a).
Qed.

Lemma substring_skip p r m :
  String.substring (String.length p) m (p +:+ r) = String.substring 0 m r.
Proof. induction p as [|a p IH]; simpl; [done|apply IH]. Qed.

Lemma after_prefix_app p r : after_prefix p (p +:+ r) = Some r.
Proof.
  unfold after_prefix. rewrite prefix_app, substring_skip, length_app_string.
  replace (String.length p + String.length r - String.length p)
    with (String.length r) by lia.
  by rewrite substring_all.
Qed.

(** The key pattern of [$include/p/] is [p]. *)
Lemma getKeyPattern_slashes p :
  no_line_terminator p = true →
  getKeyPattern ("$include/" +:+ p +:+ "/") = Some p.
Proof.
  intros Hp. unfold getKeyPattern, INCLUDE_PATTERN_match.
  change ("$include/" +:+ p +:+ "/")
    with ("$include" +:+ String "/" (p +:+ "/")).
  rewrite after_prefix_app.
  assert (slashed (String "/" (p +:+ "/")) = true) as Hs.
  { simpl. rewrite last_char_app, no_line_terminator_app, Hp.
    by rewrite bool_decide_eq_true_2. }
  cbv beta iota. rewrite Hs. cbn [String.eqb Ascii.eqb Bool.eqb].
  cbn [String.length]. rewrite length_app_string. cbn [String.length].
  replace (S (String.length p + 1) - 2) with (String.length p) by lia.
  cbn [String.substring]. by rewrite substring_app_l.
Qed.

Section IncludeResult.

Context (W : World).

Lemma isArray_deref l o s :
  st_heap s !! l = Some o → isArray (VRef l) s = Ok (obj_is_array o) s.
Proof.
  intros H. unfold isArray, deref.
  unfold mbind at 1, M_bind. unfold mbind at 1, M_bind.
  by rewrite get_heap_Ok, H.
Qed.

(** What [filterObject] keeps. *)
Lemma filterObject_pattern p l o s :
  st_heap s !! l = Some o →
  ∃ lf s1,
    filterObject W (VRef l) (Some p) s = Ok (VRef lf) s1
    ∧ st_heap s1 !! lf
      = Some (JObj (filter (λ kv, re_test W p kv.1 = true) (obj_entries o))).
Proof.
  intros H. exists (length (st_heap s)). eexists. split.
  - unfold filterObject, deref.
    unfold mbind at 1, M_bind. unfold mbind at 1, M_bind.
    rewrite get_heap_Ok, H. reflexivity.
  - cbn. rewrite lookup_app_r by done. by rewrite Nat.sub_diag.
Qed.

(** X12.  Lines 163-174: the merged content is an array.  A surrounding
    array gives a new array of the elements of both, the state being
    otherwise as it was; a surrounding map that has exactly one name
    when the directive is met is replaced by the merged array, nothing
    being written; any other surrounding map makes the inclusion fail
    with the structural error, which names the target and the path. *)
Lemma include_result_sequence fuel ret key val jsonPath pat lm em pm s :
  st_heap s !! lm = Some (JArr em pm) →
  (∀ lr er pr, ret = VRef lr → st_heap s !! lr = Some (JArr er pr) →
     include_result W fuel ret key val jsonPath pat (VRef lm) s
     = Ok (VRef (length (st_heap s)))
          (mkState (st_heap s ++ [JArr (er ++ em) []])
                   (st_manager s) (st_trace s)))
  ∧ (∀ lr ps, ret = VRef lr → st_heap s !! lr = Some (JObj ps) →
     include_result W fuel ret key val jsonPath pat (VRef lm) s
     = if decide (length ps = 1) then Ok (VRef lm) s
       else Throw (StructuralMergeError val jsonPath)).
Proof.
  intros Hm. split.
  - intros lr er pr -> Hr. unfold include_result.
    rewrite (bind_Ok _ _ _ _ _ (isArray_deref _ _ _ Hm)). cbn [obj_is_array].
    rewrite (bind_Ok _ _ _ _ _ (isArray_deref _ _ _ Hr)). cbn [obj_is_array].
    unfold concat, deref.
    unfold mbind at 1, M_bind. unfold mbind at 1, M_bind.
    rewrite get_heap_Ok, Hr. cbn.
    unfold mbind at 1, M_bind. unfold mbind at 1, M_bind.
    rewrite get_heap_Ok, Hm. reflexivity.
  - intros lr ps -> Hr. unfold include_result.
    rewrite (bind_Ok _ _ _ _ _ (isArray_deref _ _ _ Hm)). cbn [obj_is_array].
    rewrite (bind_Ok _ _ _ _ _ (isArray_deref _ _ _ Hr)). cbn [obj_is_array].
    unfold entries_of, deref.
    unfold mbind at 1, M_bind. unfold mbind at 1, M_bind.
    unfold mbind at 1, M_bind.
    rewrite get_heap_Ok, Hr. cbn. by destruct (decide _).
Qed.

End IncludeResult.

Section Registry.

Context (W : World).

Ltac run :=
  unfold getOrCreate, set_content, component, receive, emit, put_manager,
    put_heap, get_heap, get_manager, mbind, M_bind, mret, M_ret in *;
  cbn [st_heap st_manager st_trace m_components m_resolver] in *.

Lemma getOrCreate_registered type url s i c :
  list_find (λ c, c_url c = url) (m_components (st_manager s)) = Some (i, c) →
  getOrCreate W type url s = Ok i s.
Proof. intros H. run. by rewrite H. Qed.

(** C2, amended.  Registration is idempotent: in a registry that holds
    at most one component per canonical key, [getOrCreate] keeps it so,
    answers a component of that key, loads the content at most once (only
    when the key was not registered), and answers the same component,
    with no load and no change of state, whenever it is asked again for
    the key, also after the component's content has been assigned.  Every
    assignment of a content is a step of its own in the run: nothing in
    the registry stops a second one. *)
Theorem getOrCreate_idempotent type url s i s1 :
  NoDup (urls s) →
  getOrCreate W type url s = Ok i s1 →
  NoDup (urls s1)
  ∧ (∃ c, m_components (st_manager s1) !! i = Some c ∧ c_url c = url)
  ∧ (st_trace s1 = st_trace s
     ∨ ((url ∉ urls s) ∧ st_trace s1 = st_trace s ++ [EvLoad url]))
  ∧ (∀ type', getOrCreate W type' url s1 = Ok i s1)
  ∧ (∀ v, ∃ s2,
       set_content i v s1 = Ok () s2
       ∧ urls s2 = urls s1
       ∧ st_trace s2 = st_trace s1 ++ [EvContent url]
       ∧ ∀ type', getOrCreate W type' url s2 = Ok i s2).
Proof.
  intros Hnd Hg.
  assert (∃ c, list_find (λ c, c_url c = url) (m_components (st_manager s1))
               = Some (i, c)
          ∧ NoDup (urls s1)
          ∧ (st_trace s1 = st_trace s
             ∨ ((url ∉ urls s) ∧ st_trace s1 = st_trace s ++ [EvLoad url])))
    as (c & Hfind & Hnd1 & Htr).
  { unfold getOrCreate in Hg. apply bind_inv_Ok in Hg as (m & s0 & Hm & Hg).
    rewrite get_manager_Ok in Hm. inversion Hm; subst m s0; clear Hm.
    destruct (list_find _ _) as [[i' c']|] eqn:Hf.
    - inversion Hg; subst. eauto.
    - destruct (loadContent W url) as [n|]; [|done].
      run. destruct (alloc_node n (st_heap s)) as [v h'] eqn:Ha.
      inversion Hg; subst; clear Hg.
      unfold urls; cbn [st_manager m_components st_trace].
      apply list_find_None in Hf.
      assert (url ∉ c_url <$> m_components (st_manager s)) as Hnot.
      { intros (c0 & -> & Hin)%list_elem_of_fmap.
        by eapply Forall_forall in Hf. }
      eexists. split; [|split].
      + rewrite list_find_app_r by (by apply list_find_None).
        cbn. rewrite decide_True by done. cbn. reflexivity.
      + rewrite fmap_app. apply NoDup_app. split; [done|]. split.
        * intros x Hx ->%list_elem_of_singleton. done.
        * apply NoDup_singleton.
      + right. done. }
  apply list_find_Some in Hfind as Hc. destruct Hc as (Hi & Hu & Hleast).
  split; [done|]. split; [eauto|]. split; [done|]. split.
  { intros type'. by eapply getOrCreate_registered. }
  intros v. eexists. split; [|split; [|split]].
  - run. rewrite Hi. reflexivity.
  - unfold urls. cbn [st_manager m_components].
    rewrite list_fmap_insert. cbn [c_url].
    apply list_insert_id. by rewrite list_lookup_fmap, Hi.
  - cbn [st_trace]. by rewrite Hu.
  - intros type'. eapply getOrCreate_registered.
    cbn [st_manager m_components]. apply list_find_Some. split; [|split].
    + apply list_lookup_insert_eq. by eapply lookup_lt_Some.
    + done.
    + intros j y Hj Hlt. rewrite list_lookup_insert_ne in Hj by lia. eauto.
Qed.

End Registry.

(** ** Reading what was written *)

Lemma alist_get_replace k v ps :
  is_Some (alist_get k ps) → alist_get k (alist_replace k v ps) = Some v.
Proof.
  induction ps as [|[k' v'] ps IH]; simpl; [by intros [? ?]|].
  destruct (decide (k' = k)) as [->|Hne]; simpl.
  - by rewrite decide_True.
  - rewrite decide_False by done. apply IH.
Qed.

Lemma alist_get_insert_index i k v ps :
  alist_get k ps = None → alist_get k (alist_insert_index i k v ps) = Some v.
Proof.
  induction ps as [|[k' v'] ps IH]; simpl.
  - by rewrite decide_True.
  - destruct (decide (k' = k)) as [->|Hne]; [done|]. intros Hn.
    destruct (index_of k') as [j|]; [destruct (decide (j < i))|]; simpl;
      rewrite ?decide_True, ?decide_False by done; auto.
Qed.

Lemma alist_get_app_None k ps qs :
  alist_get k ps = None → alist_get k (ps ++ qs) = alist_get k qs.
Proof.
  induction ps as [|[k' v'] ps IH]; simpl; [done|].
  by destruct (decide (k' = k)).
Qed.

Lemma alist_get_set k v ps : alist_get k (alist_set k v ps) = Some v.
Proof.
  unfold alist_set. destruct (alist_get k ps) eqn:E.
  - apply alist_get_replace. by rewrite E.
  - destruct (index_of k).
    + by apply alist_get_insert_index.
    + rewrite alist_get_app_None by done. simpl. by rewrite decide_True.
Qed.

(** * The examples, run *)

Section Runs.

Import Fixture Examples Samples.


(** C2, as stated, fails.  Two references to one file: in each pass the
    file is loaded once, and the content of its component is merged and
    assigned twice, once for each reference. *)
Lemma content_assigned_per_reference :
  ∃ v s,
    merged 8 doc_two_refs = Ok v s
    ∧ st_trace s
      = [EvLoad "Error.yaml"; EvContent "Error.yaml"; EvContent "Error.yaml";
         EvLoad "Error.yaml"; EvContent "Error.yaml"; EvContent "Error.yaml"]
    ∧ length (filter (λ e, e = EvContent "Error.yaml") (drop 3 (st_trace s)))
      ≠ 1.
Proof.
  eexists _, _. split; [vm_compute; reflexivity|].
  split; [reflexivity|]. vm_compute. discriminate.
Qed.

(** C3: the defect.  The sequence [[{$include: list.yaml}, "c"]], where
    [list.yaml] is [["a", "b"]], should become [["a", "b", "c"]]; the
    element after the flattened child is written at its old position, over
    ["b"]. *)
Theorem flattened_child_is_overwritten :
  result_tree (merged 8 doc_flatten) ≫= node_at ["items"]
  = Some (NSeq [NStr "a"; NStr "c"]).
Proof. vm_compute. reflexivity. Qed.

(** C4: the defect.  A map whose key after the directive is another key
    is not refused: when the directive is met the map under construction
    has one key, so the included sequence replaces it, and the later key
    becomes a property of the array.  With the other key first the merge
    fails as the claim says. *)
Theorem sequence_into_map_with_later_key :
  (∃ l s,
     merged 8 doc_include_first = Ok (VRef l) s
     ∧ st_heap s !! l
       = Some (JArr [Some (VStr "a"); Some (VStr "b")]
                    [("k", VNum 1); ("components", VRef (S (S l)))]))
  ∧ merged 8 doc_include_last
    = Throw (StructuralMergeError (VStr "list.yaml") "$").
Proof.
  split; [|vm_compute; reflexivity].
  eexists _, _. split; vm_compute; reflexivity.
Qed.


(** C7, as stated, fails.  The glob [*.yml] matches nothing and there
    is no file of that name: the merge fails with the error of the
    reader, not with [UnresolvableReferenceError]. *)
Lemma glob_without_match_is_load_error :
  Glob_sync W0 "*.yml" = []
  ∧ merged 8 doc_glob = Throw LoadError
  ∧ merged 8 doc_glob ≠ Throw UnresolvableReferenceError.
Proof. split_and!; [reflexivity|vm_compute; reflexivity|]. vm_compute. discriminate. Qed.



(** C9, as stated, fails.  The root document maps a type tag to
    [Cat.yaml]; when [merge] has returned, the mapping of the document
    that was passed in holds the local pointer instead.  And where a
    discriminator without mapping is followed by an inclusion of a map
    that has a discriminator too, the discriminator of the document that
    was passed in has the properties of the included one: the walk put
    the object itself in the map under construction, and [_.merge] went
    into it. *)
Lemma merge_rewrites_input_mapping :
  (∃ v s,
     merged 8 main_yaml = Ok v s
     ∧ tree_of (enter main_yaml).2 (enter main_yaml).1 = Some main_yaml
     ∧ tree_of s (enter main_yaml).1
         ≫= node_at ["discriminator"; "mapping"; "cat"]
       = Some (NStr "#/components/schemas/Cat")
     ∧ tree_of s (enter main_yaml).1 ≠ Some main_yaml)
  ∧ ∃ v s,
      merge W3 8 (enter doc_tag_include).1 "main.yaml"
        (enter doc_tag_include).2 = Ok v s
      ∧ tree_of (enter doc_tag_include).2 (enter doc_tag_include).1
        = Some doc_tag_include
      ∧ tree_of s (enter doc_tag_include).1
        = Some (NMap [("discriminator",
                       NMap [("propertyName", NStr "type");
                             ("extra", NNum 1)]);
                      ("$include", NStr "d.yaml")]).
Proof.
  split.
  - eexists _, _. split; [vm_compute; reflexivity|].
    split_and!; [vm_compute; reflexivity..|]. vm_compute. discriminate.
  - eexists _, _. split; [vm_compute; reflexivity|].
    split; vm_compute; reflexivity.
Qed.

(** C10, as stated, fails.  On a discriminator that is [null] the merge
    fails with a TypeError.  And a discriminator without mapping that is
    followed by an inclusion of a map with a discriminator of its own is
    not left as it was: the result holds it with the properties of the
    included one. *)
Lemma discriminator_value_not_left_alone :
  merged 8 doc_null_discriminator = Throw TypeError
  ∧ ∃ v s,
      merge W3 8 (enter doc_tag_include).1 "main.yaml"
        (enter doc_tag_include).2 = Ok v s
      ∧ tree_of s v ≫= node_at ["discriminator"]
        = Some (NMap [("propertyName", NStr "type"); ("extra", NNum 1)])
      ∧ tree_of s v ≫= node_at ["discriminator"]
        ≠ Some doc_tag_include ≫= node_at ["discriminator"].
Proof.
  split; [vm_compute; reflexivity|].
  eexists _, _. split; [vm_compute; reflexivity|].
  split; [vm_compute; reflexivity|]. vm_compute. discriminate.
Qed.

(** The theorems above, at the examples. *)


Lemma discriminator_without_mapping_witness :
  handleDiscriminator W0 1 (VRef 3) "discriminator" VNull "main.yaml" "$"
    mapped_to_file = Throw TypeError
  ∧ handleDiscriminator W0 1 (VRef 3) "discriminator" (VRef 2) "main.yaml"
      "$" mapped_to_file = Ok () mapped_to_file
  ∧ mergeRefs_entry (mergeRefs W0 0) (handleRef W0 0) (handleInclude W0 0)
      (handleDiscriminator W0 1) "main.yaml" "$" (VRef 3) "discriminator"
      (VRef 2) mapped_to_file
    = Ok (VRef 3)
         (mkState (heap_update 3 (obj_set "discriminator" (VRef 2))
                     (st_heap mapped_to_file))
                  (st_manager mapped_to_file) (st_trace mapped_to_file))
  ∧ handleDiscriminator W0 4 (VRef 3) "discriminator" (VRef 1) "main.yaml"
      "$" mapped_to_file
    = handleDiscriminator_loop W0 (handleRef W0 3) (VRef 0) "main.yaml" "$"
        [("cat", VStr "Cat.yaml")] mapped_to_file.
Proof.
  split_and!.
  - apply (proj1 (discriminator_without_mapping_unchanged W0 0 (VRef 3)
                    "discriminator" VNull "main.yaml" "$" mapped_to_file)).
    by left.
  - apply (proj1 (proj1 (proj2
             (discriminator_without_mapping_unchanged W0 0 (VRef 3)
                "discriminator" (VRef 2) "main.yaml" "$" mapped_to_file))
             VUndef eq_refl eq_refl)).
  - apply (proj2 (proj1 (proj2
             (discriminator_without_mapping_unchanged W0 0 (VRef 3)
                "discriminator" (VRef 2) "main.yaml" "$" mapped_to_file))
             VUndef eq_refl eq_refl) 3).
    + discriminate.
    + by eexists.
  - apply (proj2 (proj2
             (discriminator_without_mapping_unchanged W0 3 (VRef 3)
                "discriminator" (VRef 1) "main.yaml" "$" mapped_to_file))
             (VRef 0) [("none", VStr ""); ("cat", VStr "Cat.yaml")]
             eq_refl eq_refl eq_refl).
    intros k v Hin _.
    apply elem_of_cons in Hin as [[= -> ->]|Hin]; [by eexists|].
    apply elem_of_cons in Hin as [[= -> ->]|Hin]; [by eexists|].
    by apply elem_of_nil in Hin.
Defined.


Lemma glob_without_match_witness :
  Glob_sync W0 "*.yml" = []
  ∧ readYAML W0 "*.yml" = None
  ∧ handleInclude W0 1 (VRef 0) "$include" (VStr "*.yml") "main.yaml" "$"
      (enter doc_glob).2 = Throw LoadError.
Proof.
  split; [reflexivity|]. split; [reflexivity|].
  apply (glob_without_match_is_read_as_file W0 0 (VRef 0) "$include" "*.yml"
           "main.yaml" "$" (parse_string "*.yml") (parse_string "main.yaml")
           (parse_string "*.yml") (enter doc_glob).2); reflexivity.
Defined.

Lemma getOrCreate_idempotent_witness :
  ∃ s1,
    getOrCreate W0 "schemas" "Error.yaml" start = Ok 0 s1
    ∧ getOrCreate W0 "schemas" "Error.yaml" s1 = Ok 0 s1.
Proof.
  eexists. split; [vm_compute; reflexivity|].
  refine (proj1 (proj2 (proj2 (proj2
    (getOrCreate_idempotent W0 "schemas" "Error.yaml" start 0 _ _ _)))) _).
  - apply NoDup_nil_2.
  - vm_compute. reflexivity.
Defined.

End Runs.

(** * The frame of a merge *)

(** Arithmetic on locations, where some may be written to. *)
Ltac frame_lia :=
  unfold writable in *;
  solve [lia | tauto | intuition lia | intuition eauto | naive_solver lia].

(** ** What the operations on one object hold *)

Lemma alist_get_elem k ps v : alist_get k ps = Some v → v ∈ ps.*2.
Proof.
  induction ps as [|[k' v'] ps IH]; simpl; [done|].
  destruct (decide (k' = k)).
  - intros [= ->]. left.
  - intros H. right. auto.
Qed.

Lemma alist_replace_vals k v ps x :
  x ∈ (alist_replace k v ps).*2 → x = v ∨ x ∈ ps.*2.
Proof.
  induction ps as [|[k' v'] ps IH]; simpl; [auto|].
  destruct (decide (k' = k)); simpl.
  - rewrite !elem_of_cons. naive_solver.
  - rewrite !elem_of_cons. naive_solver.
Qed.

Lemma alist_insert_index_vals i k v ps x :
  x ∈ (alist_insert_index i k v ps).*2 → x = v ∨ x ∈ ps.*2.
Proof.
  induction ps as [|[k' v'] ps IH]; simpl.
  - rewrite elem_of_cons. naive_solver.
  - destruct (index_of k') as [j|]; [destruct (decide (j < i))|]; simpl;
      rewrite !elem_of_cons; naive_solver.
Qed.

Lemma alist_set_vals k v ps x :
  x ∈ (alist_set k v ps).*2 → x = v ∨ x ∈ ps.*2.
Proof.
  unfold alist_set. destruct (alist_get k ps).
  - apply alist_replace_vals.
  - destruct (index_of k).
    + apply alist_insert_index_vals.
    + rewrite fmap_app, elem_of_app. simpl. rewrite list_elem_of_singleton.
      naive_solver.
Qed.

Lemma alist_delete_vals k ps x : x ∈ (alist_delete k ps).*2 → x ∈ ps.*2.
Proof.
  induction ps as [|[k' v'] ps IH]; simpl; [done|].
  destruct (decide (k' = k)); simpl; rewrite ?elem_of_cons; naive_solver.
Qed.

Lemma omap_id_elem (es : list (option value)) x :
  x ∈ omap id es ↔ Some x ∈ es.
Proof.
  rewrite list_elem_of_omap. split.
  - intros (y & Hy & E). simpl in E. by subst.
  - intros H. by exists (Some x).
Qed.

Lemma elems_set_vals i v es x :
  Some x ∈ elems_set i v es → x = v ∨ Some x ∈ es.
Proof.
  unfold elems_set. destruct (decide (i < length es)).
  - intros H. apply list_elem_of_lookup in H as [j Hj].
    apply list_lookup_insert_Some in Hj as [(-> & [= ->] & _)|[_ Hj]].
    + by left.
    + right. by eapply list_elem_of_lookup_2.
  - rewrite !elem_of_app, list_elem_of_singleton.
    intros [H|[H|H]]; [by right| |left; congruence].
    apply elem_of_replicate in H as [? _]. done.
Qed.

Lemma vals_obj_set k v o x :
  x ∈ vals (obj_set k v o) → x = v ∨ x ∈ vals o.
Proof.
  destruct o as [ps|es ps]; simpl.
  - apply alist_set_vals.
  - destruct (index_of k); simpl; rewrite !elem_of_app, ?omap_id_elem.
    + intros [H|H]; [|auto]. apply elems_set_vals in H. naive_solver.
    + intros [H|H]; [auto|]. apply alist_set_vals in H. naive_solver.
Qed.

Lemma vals_obj_delete k o x : x ∈ vals (obj_delete k o) → x ∈ vals o.
Proof.
  destruct o as [ps|es ps]; simpl.
  - apply alist_delete_vals.
  - destruct (index_of k); simpl; rewrite !elem_of_app, ?omap_id_elem.
    + intros [H|H]; [|auto]. left.
      apply list_elem_of_lookup in H as [j Hj].
      apply list_lookup_insert_Some in Hj as [(_ & [=] & _)|[_ Hj]].
      by eapply list_elem_of_lookup_2.
    + intros [H|H]; [auto|]. right. by eapply alist_delete_vals.
Qed.

Lemma vals_obj_splice1 i o x : x ∈ vals (obj_splice1 i o) → x ∈ vals o.
Proof.
  destruct o as [ps|es ps]; simpl; [done|].
  rewrite !elem_of_app, !omap_id_elem, elem_of_app.
  intros [[H|H]|H]; [left|left|by right].
  - by eapply subseteq_take.
  - by eapply subseteq_drop.
Qed.

Lemma elems_entries_vals i es k v :
  (k, v) ∈ elems_entries i es → Some v ∈ es.
Proof.
  revert i. induction es as [|[e|] es IH]; intros i; simpl.
  - by intros ?%elem_of_nil.
  - rewrite !elem_of_cons. intros [[= _ ->]|H]; [by left|right; eauto].
  - rewrite elem_of_cons. intros H. right. eauto.
Qed.

Lemma entries_vals k v o : (k, v) ∈ obj_entries o → v ∈ vals o.
Proof.
  destruct o as [ps|es ps]; simpl.
  - intros H. apply list_elem_of_fmap. by exists (k, v).
  - rewrite !elem_of_app, omap_id_elem. intros [H|H].
    + left. by eapply elems_entries_vals.
    + right. apply list_elem_of_fmap. by exists (k, v).
Qed.

Lemma obj_get_vals k o l : obj_get k o = VRef l → VRef l ∈ vals o.
Proof.
  destruct o as [ps|es ps]; simpl.
  - destruct (alist_get k ps) eqn:E; simpl; [|done].
    intros ->. by eapply alist_get_elem.
  - rewrite elem_of_app, omap_id_elem. destruct (index_of k) as [i|].
    + destruct (es !! i) as [[e|]|] eqn:E; simpl; try done.
      intros ->. left. by eapply list_elem_of_lookup_2.
    + destruct (decide _); [done|].
      destruct (alist_get k ps) eqn:E; simpl; [|done].
      intros ->. right. by eapply alist_get_elem.
Qed.

Lemma merge_entries_vals k l o :
  (k, VRef l) ∈ merge_entries o → VRef l ∈ vals o.
Proof.
  destruct o as [ps|es ps]; simpl.
  - intros H. apply list_elem_of_fmap. by exists (k, VRef l).
  - rewrite !elem_of_app, omap_id_elem. intros [H|H].
    + left. apply list_elem_of_lookup in H as [j Hj].
      apply list_lookup_imap_Some in Hj as (e & He & [= _ E]).
      destruct e as [e|]; simpl in E; [|done]. subst e.
      by eapply list_elem_of_lookup_2.
    + right. apply list_elem_of_fmap. by exists (k, VRef l).
Qed.

(** ** The invariant under one write *)

Section Frame.

Context (h0 : heap).

Local Abbreviation B := (length h0).

Lemma Inv_bound s : Inv h0 s → B ≤ length (st_heap s).
Proof. by intros [Hlen _ _ _ _]. Qed.

Lemma Inv_old_lookup s l :
  Inv h0 s → l < B →
  st_heap s !! l = h0 !! l
  ∨ (region h0 l ∧ ∀ o, st_heap s !! l = Some o → clean h0 o).
Proof. intros [_ Hold _ _ _] Hl. auto. Qed.

Lemma fresh_writable l : B ≤ l → writable h0 l.
Proof. by left. Qed.

Lemma writable_old l : writable h0 l → l < B → region h0 l.
Proof. intros [?|?] ?; [lia|done]. Qed.

Local Hint Resolve fresh_writable : core.

Lemma ext_refl U ex s : Inv h0 s → guarded U s → ext h0 U ex s s.
Proof.
  intros HI HU. split; auto. intros l o o' H1 H2.
  rewrite H1 in H2. by injection H2 as <-.
Qed.

Lemma ext_trans U ex s1 s2 s3 :
  ext h0 U ex s1 s2 → ext h0 U ex s2 s3 → ext h0 U ex s1 s3.
Proof.
  intros [_ _ L1 F1 C1] [I2 G2 L2 F2 C2]. split; auto.
  - lia.
  - intros l Hl Hex. rewrite F2, F1; auto.
  - intros l o o' H1 H3 Hc.
    destruct (lookup_lt_is_Some_2 (st_heap s2) l) as [o2 H2].
    { apply lookup_lt_Some in H1. lia. }
    eauto.
Qed.

Lemma ext_mono U ex ex' s s' :
  (∀ l, l ∈ ex → l ∈ U → l ∈ ex') → ext h0 U ex s s' → ext h0 U ex' s s'.
Proof.
  intros Hsub [I G L F C]. split; try done.
  intros l Hl Hn. apply F; [done|]. intros He. apply Hn. auto.
Qed.

(** Guarding fewer containers. *)
Lemma ext_weaken U U' ex s s' :
  (∀ l, l ∈ U' → l ∈ U) → ext h0 U ex s s' → ext h0 U' ex s s'.
Proof.
  intros Hsub [I G L F C]. split; try done.
  - intros l Hl. apply G. auto.
  - intros l Hl. apply F. auto.
Qed.

(** Writing an object [o'] in the place of [o], where that may be
    written to: what [o'] holds more than [o] exists and, if it may be
    written to, is clean; and [o'] is clean itself, unless it was made
    by the merge and nothing holds it. *)
Lemma Inv_update s l o o' :
  Inv h0 s → writable h0 l → st_heap s !! l = Some o →
  (∀ lv, VRef lv ∈ vals o' → VRef lv ∈ vals o
     ∨ (lv < length (st_heap s)
        ∧ (writable h0 lv → lv ≠ l →
           ∀ ov, st_heap s !! lv = Some ov → clean h0 ov))) →
  (clean h0 o' ∨ (B ≤ l ∧ ¬ referenced s l ∧ VRef l ∉ vals o')) →
  Inv h0 (mkState (<[l := o']> (st_heap s)) (st_manager s) (st_trace s)).
Proof.
  intros HI Hl Ho Hnew Hself. pose proof HI as [Hlen Hold Hcl Hreg HJ].
  assert (l < length (st_heap s)) as Hlt by (by eapply lookup_lt_Some).
  split; cbn [st_heap st_manager].
  - by rewrite length_insert.
  - intros l1 Hl1. destruct (decide (l1 = l)) as [->|Hne].
    + right. split; [by apply writable_old|].
      rewrite list_lookup_insert_eq by done. intros ? [= <-].
      destruct Hself as [?|[? _]]; [done|lia].
    + rewrite list_lookup_insert_ne by done. auto.
  - intros l0 o0 lv H0 Hv. rewrite length_insert.
    apply list_lookup_insert_Some in H0 as [(-> & <- & _)|[Hne H0]].
    + destruct (Hnew lv Hv) as [?|[? _]]; eauto.
    + eauto.
  - intros c lv Hc Hv. rewrite length_insert. eauto.
  - intros l1 o1 Hl1 Href H1.
    assert (l1 ≠ l → referenced s l1
            ∨ (∀ ov, st_heap s !! l1 = Some ov → clean h0 ov)) as Hcase.
    { intros Hne. destruct Href as [(l0 & o0 & H0 & Hv)|Hr];
        [|left; by right].
      apply list_lookup_insert_Some in H0 as [(-> & <- & _)|[Hne0 H0]].
      - destruct (Hnew l1 Hv) as [?|[_ Hc]].
        + left. left. eauto.
        + right. auto.
      - left. left. eauto. }
    apply list_lookup_insert_Some in H1 as [(-> & <- & _)|[Hne H1]].
    + destruct Hself as [?|(_ & Hnr & Hnv)]; [done|]. exfalso.
      destruct Href as [(l0 & o0 & H0 & Hv)|Hr]; [|apply Hnr; by right].
      apply list_lookup_insert_Some in H0 as [(-> & <- & _)|[Hne0 H0]].
      * done.
      * apply Hnr. left. eauto.
    + destruct Hcase as [Hr|Hc]; [done| |]; eauto.
Qed.

(** A new object at the end of the heap: what it holds exists and, if
    it may be written to, is clean. *)
Lemma Inv_alloc s o :
  Inv h0 s →
  (∀ lv, VRef lv ∈ vals o →
     lv < length (st_heap s)
     ∧ (writable h0 lv → ∀ ov, st_heap s !! lv = Some ov → clean h0 ov)) →
  Inv h0 (mkState (st_heap s ++ [o]) (st_manager s) (st_trace s))
  ∧ ¬ referenced
        (mkState (st_heap s ++ [o]) (st_manager s) (st_trace s))
        (length (st_heap s)).
Proof.
  intros HI Hnew. pose proof HI as [Hlen Hold Hcl Hreg HJ].
  pose proof (Inv_bound s HI) as Hb.
  assert (∀ l0 o0 lv, (st_heap s ++ [o]) !! l0 = Some o0 →
            VRef lv ∈ vals o0 → lv < length (st_heap s)) as Hcl'.
  { intros l0 o0 lv H0 Hv.
    apply lookup_app_Some in H0 as [H0|[_ H0]]; [eauto|].
    apply list_lookup_singleton_Some in H0 as [_ <-].
    by apply Hnew. }
  assert (¬ referenced
            (mkState (st_heap s ++ [o]) (st_manager s) (st_trace s))
            (length (st_heap s))) as Hfree.
  { intros [(l0 & o0 & H0 & Hv)|(c & Hc & Hv)]; cbn in *.
    - eapply Hcl' in Hv; [lia|done].
    - eapply Hreg in Hv; [lia|done]. }
  split; [|done]. split; cbn [st_heap st_manager].
  - rewrite length_app. lia.
  - intros l1 Hl1. rewrite lookup_app_l by lia. auto.
  - intros l0 o0 lv H0 Hv. rewrite length_app. simpl.
    eapply Hcl' in Hv; [lia|done].
  - intros c lv Hc Hv. rewrite length_app. simpl.
    eapply Hreg in Hv; [lia|done].
  - intros l1 o1 Hl1 Href H1.
    apply lookup_app_Some in H1 as [H1|[Hge H1]].
    + destruct Href as [(l0 & o0 & H0 & Hv)|Hr]; cbn in *.
      * apply lookup_app_Some in H0 as [H0|[_ H0]].
        -- eapply HJ; [done| |done]. left. eauto.
        -- apply list_lookup_singleton_Some in H0 as [_ <-].
           destruct (Hnew l1 Hv) as [_ Hc]. eauto.
      * eapply HJ; [done| |done]. by right.
    + exfalso. apply list_lookup_singleton_Some in H1 as [E _].
      assert (l1 = length (st_heap s)) as -> by lia. done.
Qed.

Lemma referenced_update s l o o' lv :
  st_heap s !! l = Some o →
  referenced (mkState (<[l := o']> (st_heap s)) (st_manager s) (st_trace s))
    lv →
  referenced s lv ∨ (VRef lv ∈ vals o' ∧ VRef lv ∉ vals o).
Proof.
  intros Ho [(l0 & o0 & H0 & Hv)|Hr]; [|left; by right].
  cbn in H0. apply list_lookup_insert_Some in H0 as [(-> & <- & _)|[Hne H0]].
  - destruct (decide (VRef lv ∈ vals o)); [left; left; eauto|by right].
  - left. left. eauto.
Qed.

(** A write to a clean object that may be written to: what is added
    may be written to, is clean, and is not guarded. *)
Lemma ext_write U ex s l o o' :
  Inv h0 s → guarded U s → writable h0 l → st_heap s !! l = Some o →
  (l ∈ U → l ∈ ex) →
  clean h0 o →
  (∀ lv, VRef lv ∈ vals o' → VRef lv ∈ vals o
     ∨ ((writable h0 lv ∧ lv < length (st_heap s)) ∧ (lv ∉ U)
        ∧ (lv ≠ l → ∀ ov, st_heap s !! lv = Some ov → clean h0 ov))) →
  ext h0 U ex s
    (mkState (<[l := o']> (st_heap s)) (st_manager s) (st_trace s)).
Proof.
  intros HI HU Hl Ho Hex Hc Hnew.
  assert (clean h0 o') as Hc'.
  { intros lv Hv.
    destruct (Hnew lv Hv) as [?|[[? _] _]]; [by apply Hc|done]. }
  split; cbn [st_heap].
  - eapply Inv_update; eauto.
    intros lv Hv. destruct (Hnew lv Hv) as [?|([? ?] & ? & ?)]; [by left|].
    right. split; [done|]. auto.
  - intros u Hu. destruct (HU u Hu) as [Hlt Hnr]. cbn [st_heap].
    rewrite length_insert.
    split; [done|]. intros Hr.
    apply (referenced_update s l o o' u Ho) in Hr as [?|[Hv Hnv]]; [done|].
    destruct (Hnew u Hv) as [?|(_ & ? & _)]; done.
  - by rewrite length_insert.
  - intros u Hu Hnex. apply list_lookup_insert_ne. intros ->. auto.
  - intros l1 o1 o1' H1 H1' Hc1.
    apply list_lookup_insert_Some in H1' as [(-> & <- & _)|[Hne H1']].
    + done.
    + rewrite H1 in H1'. by injection H1' as <-.
Qed.

(** A write to an object made since [s0]: it may come to hold a
    container that may not be written to, as long as nothing holds it. *)
Lemma ext_own_write U ex s0 s l o o' :
  ext h0 U ex s0 s → B ≤ l → length (st_heap s0) ≤ l →
  st_heap s !! l = Some o → l ∉ U →
  (∀ lv, VRef lv ∈ vals o' → VRef lv ∈ vals o
     ∨ (lv < length (st_heap s) ∧ (lv ∉ U)
        ∧ (writable h0 lv → lv ≠ l →
           ∀ ov, st_heap s !! lv = Some ov → clean h0 ov))) →
  (clean h0 o' ∨ (¬ referenced s l ∧ VRef l ∉ vals o')) →
  ext h0 U ex s0
    (mkState (<[l := o']> (st_heap s)) (st_manager s) (st_trace s)).
Proof.
  intros [HI HU HL HF HC] Hl Hl0 Ho HlU Hnew Hself. split; cbn [st_heap].
  - eapply Inv_update; eauto; [|tauto].
    intros lv Hv. destruct (Hnew lv Hv) as [?|(? & ? & ?)]; auto.
  - intros u Hu. destruct (HU u Hu) as [Hlt Hnr]. cbn [st_heap].
    rewrite length_insert.
    split; [done|]. intros Hr.
    apply (referenced_update s l o o' u Ho) in Hr as [?|[Hv Hnv]]; [done|].
    destruct (Hnew u Hv) as [?|(_ & ? & _)]; done.
  - by rewrite length_insert.
  - intros u Hu Hnex. rewrite list_lookup_insert_ne; [auto|].
    intros ->. done.
  - intros l1 o1 o1' H1 H1' Hc1.
    assert (l1 ≠ l) as Hne by (apply lookup_lt_Some in H1; lia).
    rewrite list_lookup_insert_ne in H1' by done. eauto.
Qed.

(** A new object: what it holds exists, is not guarded and, if it may
    be written to, is clean. *)
Lemma ext_alloc U ex s o :
  Inv h0 s → guarded U s →
  (∀ lv, VRef lv ∈ vals o →
     lv < length (st_heap s) ∧ (lv ∉ U)
     ∧ (writable h0 lv → ∀ ov, st_heap s !! lv = Some ov → clean h0 ov)) →
  let s' := mkState (st_heap s ++ [o]) (st_manager s) (st_trace s) in
  ext h0 U ex s s' ∧ ¬ referenced s' (length (st_heap s)).
Proof.
  intros HI HU Hnew s'.
  destruct (Inv_alloc s o HI) as [HI' Hfree].
  { intros lv Hv. destruct (Hnew lv Hv) as (? & _ & ?). auto. }
  split; [|done]. split; auto; unfold s'; cbn [st_heap].
  - intros u Hu. destruct (HU u Hu) as [Hlt Hnr]. cbn [st_heap].
    rewrite length_app.
    split; [lia|]. intros [(l0 & o0 & H0 & Hv)|Hr]; [|apply Hnr; by right].
    cbn in H0. apply lookup_app_Some in H0 as [H0|[_ H0]].
    + apply Hnr. left. eauto.
    + apply list_lookup_singleton_Some in H0 as [_ <-].
      destruct (Hnew u Hv) as (_ & ? & _). done.
  - rewrite length_app. lia.
  - intros u Hu _. destruct (HU u Hu) as [Hlt _]. by apply lookup_app_l.
  - intros l1 o1 o1' H1 H1' Hc.
    rewrite lookup_app_l in H1' by (by eapply lookup_lt_Some).
    rewrite H1 in H1'. by injection H1' as <-.
Qed.

(** The invariant looks at the heap and the registry only. *)
Lemma referenced_same s s' l :
  st_heap s' = st_heap s → st_manager s' = st_manager s →
  referenced s l → referenced s' l.
Proof. unfold referenced. intros -> ->. done. Qed.

Lemma ext_same U ex s s' :
  st_heap s' = st_heap s → st_manager s' = st_manager s →
  Inv h0 s → guarded U s → ext h0 U ex s s'.
Proof.
  intros Hh Hm [Hlen Hold Hcl Hreg HJ] HU. split.
  - split; rewrite ?Hh, ?Hm; auto.
    intros l o Hl Hr. apply HJ; [done|]. by eapply referenced_same.
  - intros u Hu. rewrite Hh. destruct (HU u Hu) as [? Hnr]. split; [done|].
    intros Hr. apply Hnr. by eapply referenced_same.
  - by rewrite Hh.
  - intros. by rewrite Hh.
  - intros l o o' H1 H2. rewrite Hh, H1 in H2. by injection H2 as <-.
Qed.

(** A new registry: the contents that were not there were made by the
    merge, are not guarded and are clean. *)
Lemma ext_registry U ex s s' :
  Inv h0 s → guarded U s →
  st_heap s' = st_heap s →
  (∀ c lv, c ∈ m_components (st_manager s') → c_content c = VRef lv →
     (∃ c', c' ∈ m_components (st_manager s) ∧ c_content c' = VRef lv)
     ∨ (B ≤ lv < length (st_heap s) ∧ (lv ∉ U)
        ∧ ∀ ov, st_heap s !! lv = Some ov → clean h0 ov)) →
  ext h0 U ex s s'.
Proof.
  intros HI HU Hh Hnew. pose proof HI as [Hlen Hold Hcl Hreg HJ].
  assert (∀ lv, referenced s' lv →
            referenced s lv
            ∨ (B ≤ lv < length (st_heap s) ∧ (lv ∉ U)
               ∧ ∀ ov, st_heap s !! lv = Some ov → clean h0 ov)) as Href.
  { intros lv [(l0 & o0 & H0 & Hv)|(c & Hc & Hv)].
    - rewrite Hh in H0. left; left; eauto.
    - destruct (Hnew c lv Hc Hv) as [(c' & ? & ?)|?]; [left; right; eauto|].
      by right. }
  split; rewrite ?Hh; auto.
  - split; rewrite ?Hh; auto.
    + intros c lv Hc Hv.
      destruct (Hnew c lv Hc Hv) as [(c' & ? & ?)|[? _]]; eauto.
    + intros l o Hl Hr Ho. destruct (Href l Hr) as [?|(_ & _ & ?)]; eauto.
  - intros u Hu. rewrite Hh. destruct (HU u Hu) as [? Hnr]. split; [done|].
    intros Hr. destruct (Href u Hr) as [?|(_ & ? & _)]; done.
  - intros l o o' H1 H2. rewrite H1 in H2. by injection H2 as <-.
Qed.

End Frame.

#[local] Hint Resolve fresh_writable : core.

(** ** What the operations of the monad do *)

Lemma Ok_inv {A} (a a' : A) s s' : Ok a s = Ok a' s' → a = a' ∧ s = s'.
Proof. by intros [= -> ->]. Qed.

Lemma deref_inv l s o s' :
  deref l s = Ok o s' → s' = s ∧ st_heap s !! l = Some o.
Proof.
  unfold deref, mbind, M_bind. rewrite get_heap_Ok.
  destruct (st_heap s !! l); [|done]. by intros [= -> ->].
Qed.

Lemma isArray_inv v s b s' : isArray v s = Ok b s' → s' = s.
Proof.
  destruct v; try by intros [= _ ->].
  unfold isArray. intros (o & s1 & H1 & H2)%bind_inv_Ok.
  apply deref_inv in H1 as [-> _]. by injection H2.
Qed.

Lemma isArray_true v s s' :
  isArray v s = Ok true s' →
  ∃ l es ps, v = VRef l ∧ st_heap s !! l = Some (JArr es ps).
Proof.
  destruct v; try by intros [=].
  unfold isArray. intros (o & s1 & H1 & H2)%bind_inv_Ok.
  apply deref_inv in H1 as [-> Ho]. injection H2 as Ha.
  destruct o; [done|]. eauto.
Qed.

Lemma isArray_false_obj l s s' :
  isArray (VRef l) s = Ok false s' →
  ∃ ps, st_heap s !! l = Some (JObj ps).
Proof.
  unfold isArray. intros (o & s1 & H1 & H2)%bind_inv_Ok.
  apply deref_inv in H1 as [-> Ho]. injection H2 as Ha.
  destruct o; [|done]. eauto.
Qed.

Lemma string_entries_no_ref i s k l : (k, VRef l) ∉ string_entries i s.
Proof.
  revert i. induction s as [|a s IH]; intros i; simpl.
  - apply not_elem_of_nil.
  - rewrite elem_of_cons. intros [[=]|H]. by eapply IH.
Qed.

Lemma entries_of_inv v s es s' :
  entries_of v s = Ok es s' →
  s' = s
  ∧ ∀ k lv, (k, VRef lv) ∈ es →
      ∃ l o, v = VRef l ∧ st_heap s !! l = Some o
             ∧ (k, VRef lv) ∈ obj_entries o.
Proof.
  destruct v; simpl; try done.
  - intros [= <- ->]. split; [done|]. by intros k lv ?%elem_of_nil.
  - intros [= <- ->]. split; [done|]. by intros k lv ?%elem_of_nil.
  - intros [= <- ->]. split; [done|].
    intros k lv H. by apply string_entries_no_ref in H.
  - intros (o & s1 & H1 & H2)%bind_inv_Ok.
    apply deref_inv in H1 as [-> Ho]. injection H2 as <- <-.
    split; [done|]. eauto.
Qed.

Lemma get_prop_inv v k s x s' :
  get_prop v k s = Ok x s' →
  s' = s
  ∧ ∀ lx, x = VRef lx →
      ∃ l o, v = VRef l ∧ st_heap s !! l = Some o ∧ VRef lx ∈ vals o.
Proof.
  destruct v; simpl; try done; try by intros [= <- ->].
  intros (o & s1 & H1 & H2)%bind_inv_Ok.
  apply deref_inv in H1 as [-> Ho]. injection H2 as <- <-.
  split; [done|]. intros lx Hx. apply obj_get_vals in Hx. eauto.
Qed.

Lemma parse_inv W v s p s' :
  parse W v s = Ok p s' → s' = s ∧ parseUrl W v = Some p.
Proof. unfold parse. destruct (parseUrl W v); [|done]. by intros [= -> ->]. Qed.

Lemma relative_target_inv W pFile v s t s' :
  relative_target W pFile v s = Ok t s' → s' = s ∧ ∃ x, v = VStr x.
Proof.
  unfold relative_target. intros (x & s1 & H1 & H2)%bind_inv_Ok.
  destruct v; try done. injection H1 as <- <-.
  split; [|eauto]. by destruct (isHttp pFile); injection H2.
Qed.

Lemma component_inv i s c s' :
  component i s = Ok c s' →
  s' = s ∧ m_components (st_manager s) !! i = Some c.
Proof.
  unfold component, mbind, M_bind. rewrite get_manager_Ok.
  destruct (_ !! i); [|done]. by intros [= -> ->].
Qed.

Lemma heap_update_Some l f (h : heap) o :
  h !! l = Some o → heap_update l f h = <[l := f o]> h.
Proof. unfold heap_update. by intros ->. Qed.

Lemma heap_update_None l f (h : heap) :
  h !! l = None → heap_update l f h = h.
Proof. unfold heap_update. by intros ->. Qed.

Lemma new_obj_eq o s :
  new_obj o s
  = Ok (VRef (length (st_heap s)))
       (mkState (st_heap s ++ [o]) (st_manager s) (st_trace s)).
Proof. reflexivity. Qed.

Lemma new_obj_eq_inv o s v s' :
  new_obj o s = Ok v s' → st_heap s' = st_heap s ++ [o].
Proof. rewrite new_obj_eq. by intros [= _ <-]. Qed.

Lemma assign_inv v k x s u s' :
  assign v k x s = Ok u s' →
  ∃ l, v = VRef l
       ∧ s' = mkState (heap_update l (obj_set k x) (st_heap s))
                      (st_manager s) (st_trace s).
Proof. destruct v; try done. intros [= _ <-]. eauto. Qed.

Lemma delete_inv v k s u s' :
  delete_ v k s = Ok u s' →
  s' = s
  ∨ ∃ l, v = VRef l
         ∧ s' = mkState (heap_update l (obj_delete k) (st_heap s))
                        (st_manager s) (st_trace s).
Proof.
  destruct v; simpl; try done; try (intros [= _ <-]; by left).
  - destruct (decide _); [done|]. intros [= _ <-]. by left.
  - intros [= _ <-]. right. eauto.
Qed.

Lemma splice_inv a key s u s' :
  splice a key s = Ok u s' →
  ∃ l, a = VRef l
       ∧ s' = mkState (heap_update l (obj_splice1 (splice_start key))
                         (st_heap s))
                      (st_manager s) (st_trace s).
Proof. destruct a; try done. intros [= _ <-]. eauto. Qed.

Lemma concat_inv a b s v s' :
  concat a b s = Ok v s' →
  ∃ la lb ea pa eb pb,
    a = VRef la ∧ b = VRef lb
    ∧ st_heap s !! la = Some (JArr ea pa)
    ∧ st_heap s !! lb = Some (JArr eb pb)
    ∧ v = VRef (length (st_heap s))
    ∧ s' = mkState (st_heap s ++ [JArr (ea ++ eb) []])
                   (st_manager s) (st_trace s).
Proof.
  destruct a as [| | | | |la]; try done. destruct b as [| | | | |lb]; try done.
  unfold concat. intros (oa & s1 & H1 & H)%bind_inv_Ok.
  apply deref_inv in H1 as [-> Ha].
  apply bind_inv_Ok in H as (ob & s1 & H1 & H).
  apply deref_inv in H1 as [-> Hb].
  destruct oa as [|ea pa]; [done|]. destruct ob as [|eb pb]; [done|].
  rewrite new_obj_eq in H. injection H as <- <-.
  by exists la, lb, ea, pa, eb, pb.
Qed.

(** ** A tree that enters the heap *)

Lemma Node_nested_ind (P : Node → Prop) :
  P NNull → (∀ b, P (NBool b)) → (∀ z, P (NNum z)) → (∀ s, P (NStr s)) →
  (∀ items, Forall P items → P (NSeq items)) →
  (∀ fields, Forall (λ kv, P kv.2) fields → P (NMap fields)) →
  ∀ n, P n.
Proof.
  intros H1 H2 H3 H4 H5 H6. fix IH 1. intros [|b|z|s|items|fields].
  - exact H1.
  - apply H2.
  - apply H3.
  - apply H4.
  - apply H5. induction items as [|n items IHi]; constructor;
      [apply IH|apply IHi].
  - apply H6. induction fields as [|[k n] fields IHf]; constructor;
      [apply IH|apply IHf].
Qed.

Lemma fresh_block_nil n0 : fresh_block n0 [].
Proof. intros i o x H. by rewrite lookup_nil in H. Qed.

Lemma fresh_block_app n0 hn1 hn2 :
  fresh_block n0 hn1 → fresh_block (n0 + length hn1) hn2 →
  fresh_block n0 (hn1 ++ hn2).
Proof.
  intros F1 F2 i o x Hi Hv.
  apply lookup_app_Some in Hi as [Hi|[Hge Hi]].
  - eauto.
  - specialize (F2 _ _ _ Hi Hv). lia.
Qed.

Lemma fresh_block_snoc n0 hn o :
  fresh_block n0 hn →
  (∀ x, VRef x ∈ vals o → n0 ≤ x < n0 + length hn) →
  fresh_block n0 (hn ++ [o]).
Proof.
  intros F Ho i o' x Hi Hv.
  apply lookup_app_Some in Hi as [Hi|[Hge Hi]]; [eauto|].
  apply list_lookup_singleton_Some in Hi as [E <-].
  specialize (Ho x Hv). lia.
Qed.

Lemma alloc_node_spec n : alloc_ok n.
Proof.
  induction n as [| | | |items IH|fields IH] using Node_nested_ind;
    intros h v h'; simpl.
  1-4: intros [= <- <-]; exists []; rewrite app_nil_r;
       split; [done|]; split; [apply fresh_block_nil|done].
  - set (go := fix go (ns : list Node) (h : heap) := _).
    assert (∀ h vs h1, go items h = (vs, h1) →
              ∃ hn, h1 = h ++ hn ∧ fresh_block (length h) hn
                    ∧ ∀ x, Some (VRef x) ∈ vs →
                           length h ≤ x < length h + length hn) as Hgo.
    { clear h v h'. induction IH as [|n items Hn _ IHitems]; intros h vs h1.
      - simpl. intros [= <- <-]. exists []. rewrite app_nil_r.
        split; [done|]. split; [apply fresh_block_nil|].
        by intros x ?%elem_of_nil.
      - simpl. destruct (alloc_node n h) as [v1 h2] eqn:E1.
        destruct (go items h2) as [vs2 h3] eqn:E2. intros [= <- <-].
        destruct (Hn _ _ _ E1) as (hn1 & -> & F1 & R1).
        destruct (IHitems _ _ _ E2) as (hn2 & -> & F2 & R2).
        rewrite length_app in F2, R2.
        exists (hn1 ++ hn2). rewrite app_assoc, length_app.
        split; [done|]. split; [by apply fresh_block_app|].
        intros x [[= <-]|Hx]%elem_of_cons.
        + specialize (R1 x eq_refl). lia.
        + specialize (R2 x Hx). lia. }
    destruct (go items h) as [vs h1] eqn:E. intros [= <- <-].
    destruct (Hgo _ _ _ E) as (hn & -> & F & R).
    exists (hn ++ [JArr vs []]). rewrite app_assoc. split; [done|].
    split.
    + apply fresh_block_snoc; [done|]. intros x. simpl.
      rewrite app_nil_r, omap_id_elem. apply R.
    + intros lv [= <-]. rewrite !length_app. simpl. lia.
  - set (go := fix go (fs : list (string * Node)) (acc : jsobj) (h : heap)
                 := _).
    assert (∀ acc h o h1, go fields acc h = (o, h1) →
              ∃ hn, h1 = h ++ hn ∧ fresh_block (length h) hn
                    ∧ ∀ x, VRef x ∈ vals o →
                           VRef x ∈ vals acc
                           ∨ length h ≤ x < length h + length hn) as Hgo.
    { clear h v h'.
      induction IH as [|[k n] fields Hn _ IHfields]; intros acc h o h1.
      - simpl. intros [= <- <-]. exists []. rewrite app_nil_r.
        split; [done|]. split; [apply fresh_block_nil|]. auto.
      - simpl. destruct (alloc_node n h) as [v1 h2] eqn:E1. intros E2.
        destruct (Hn _ _ _ E1) as (hn1 & -> & F1 & R1).
        destruct (IHfields _ _ _ _ E2) as (hn2 & -> & F2 & R2).
        rewrite length_app in F2, R2.
        exists (hn1 ++ hn2). rewrite app_assoc, length_app.
        split; [done|]. split; [by apply fresh_block_app|].
        intros x Hx. destruct (R2 x Hx) as [Hs|?]; [|right; lia].
        apply vals_obj_set in Hs as [E|?]; [|by left].
        right. specialize (R1 x (eq_sym E)). lia. }
    destruct (go fields (JObj []) h) as [o h1] eqn:E. intros [= <- <-].
    destruct (Hgo _ _ _ _ E) as (hn & -> & F & R).
    exists (hn ++ [o]). rewrite app_assoc. split; [done|]. split.
    + apply fresh_block_snoc; [done|]. intros x Hx.
      destruct (R x Hx) as [Hn|?]; [|done]. simpl in Hn.
      by apply elem_of_nil in Hn.
    + intros lv [= <-]. rewrite !length_app. simpl. lia.
Qed.

Section FrameBlocks.

Context (h0 : heap).

Local Abbreviation B := (length h0).

(** A block of new objects that hold each other only. *)
Lemma ext_block U ex s s' hn :
  Inv h0 s → guarded U s →
  st_heap s' = st_heap s ++ hn → st_manager s' = st_manager s →
  fresh_block (length (st_heap s)) hn →
  ext h0 U ex s s'
  ∧ ∀ lv, length (st_heap s) ≤ lv → lv + 1 = length (st_heap s') →
      ¬ referenced s' lv
      ∧ ∃ o, st_heap s' !! lv = Some o ∧ clean h0 o.
Proof.
  intros HI HU Hh Hm F. pose proof HI as [Hlen Hold Hcl Hreg HJ].
  pose proof (Inv_bound h0 s HI) as Hb.
  assert (∀ l0 o x, st_heap s' !! l0 = Some o → VRef x ∈ vals o →
            (l0 < length (st_heap s) ∧ st_heap s !! l0 = Some o
             ∧ x < length (st_heap s))
            ∨ (length (st_heap s) ≤ l0 ∧ length (st_heap s) ≤ x < l0))
    as Hrefs.
  { intros l0 o x H0 Hv. rewrite Hh in H0.
    apply lookup_app_Some in H0 as [H0|[Hge H0]].
    - left. split; [by eapply lookup_lt_Some|]. eauto.
    - right. specialize (F _ _ _ H0 Hv). lia. }
  assert (∀ x, referenced s' x →
            referenced s x ∨ length (st_heap s) ≤ x) as Href.
  { intros x [(l0 & o & H0 & Hv)|(c & Hc & Hv)].
    - destruct (Hrefs _ _ _ H0 Hv) as [(_ & ? & _)|[_ ?]];
        [left; left; eauto|right; lia].
    - left. right. rewrite Hm in Hc. eauto. }
  assert (∀ l o, length (st_heap s) ≤ l → st_heap s' !! l = Some o →
            clean h0 o) as Hblock.
  { intros l o Hl Ho x Hv.
    destruct (Hrefs _ _ _ Ho Hv) as [(? & _)|[_ ?]]; frame_lia. }
  split.
  - split.
    + split.
      * rewrite Hh, length_app. lia.
      * intros l1 Hl1. rewrite Hh, lookup_app_l by lia. auto.
      * intros l0 o x H0 Hv. rewrite Hh, length_app.
        destruct (Hrefs _ _ _ H0 Hv) as [(_ & _ & ?)|[_ ?]]; [lia|].
        apply lookup_lt_Some in H0. rewrite Hh, length_app in H0. lia.
      * intros c x Hc Hv. rewrite Hm in Hc. rewrite Hh, length_app.
        specialize (Hreg _ _ Hc Hv). lia.
      * intros l o Hl Hr Ho.
        destruct (decide (l < length (st_heap s))) as [Hlt|Hge];
          [|apply (Hblock l); [lia|done]].
        destruct (Href l Hr) as [Hr'|?]; [|lia].
        rewrite Hh, lookup_app_l in Ho by done. eauto.
    + intros u Hu. destruct (HU u Hu) as [Hlt Hnr]. rewrite Hh, length_app.
      split; [lia|]. intros Hr. destruct (Href u Hr); [done|lia].
    + rewrite Hh, length_app. lia.
    + intros u Hu _. destruct (HU u Hu) as [Hlt _].
      by rewrite Hh, lookup_app_l.
    + intros l o o' H1 H2.
      rewrite Hh, lookup_app_l, H1 in H2 by (by eapply lookup_lt_Some).
      by injection H2 as <-.
  - intros lv Hge Hlast. split.
    + intros [(l0 & o & H0 & Hv)|(c & Hc & Hv)].
      * destruct (Hrefs _ _ _ H0 Hv) as [(_ & _ & ?)|[_ ?]]; [lia|].
        apply lookup_lt_Some in H0. lia.
      * rewrite Hm in Hc. specialize (Hreg _ _ Hc Hv). lia.
    + destruct (lookup_lt_is_Some_2 (st_heap s') lv) as [o Ho]; [lia|].
      exists o. split; [done|]. by eapply Hblock.
Qed.

Lemma receive_inv n s v s' :
  receive n s = Ok v s' →
  ∃ hn, st_heap s' = st_heap s ++ hn ∧ st_manager s' = st_manager s
        ∧ st_trace s' = st_trace s
        ∧ fresh_block (length (st_heap s)) hn
        ∧ ∀ lv, v = VRef lv →
            length (st_heap s) ≤ lv ∧ lv + 1 = length (st_heap s').
Proof.
  unfold receive, mbind, M_bind. rewrite get_heap_Ok.
  destruct (alloc_node n (st_heap s)) as [v1 h1] eqn:E.
  cbn. intros [= <- <-].
  destruct (alloc_node_spec n _ _ _ E) as (hn & -> & F & R).
  exists hn. cbn. split_and!; try done.
  intros lv Hv. rewrite length_app. by apply R.
Qed.

(** A loaded tree: the state grows by its objects, and its root is a
    new object that nothing holds and that is clean. *)
Lemma loaded_ext U ex s s' v hn :
  Inv h0 s → guarded U s →
  st_heap s' = st_heap s ++ hn → st_manager s' = st_manager s →
  fresh_block (length (st_heap s)) hn →
  (∀ lv, v = VRef lv →
     length (st_heap s) ≤ lv ∧ lv + 1 = length (st_heap s')) →
  ext h0 U ex s s' ∧ owned h0 s s' v.
Proof.
  intros HI HU Hh Hm F R.
  destruct (ext_block U ex s s' hn HI HU Hh Hm F) as [He Hlast].
  split; [done|]. intros lv Hv. destruct (R lv Hv) as [Hge Hl].
  split; [lia|]. by apply Hlast.
Qed.

End FrameBlocks.

Section FrameOps.

Context (h0 : heap).

Local Abbreviation B := (length h0).

(** What an object of the heap holds may be held once more. *)
Lemma held_ok U s l o lv :
  Inv h0 s → guarded U s → st_heap s !! l = Some o → VRef lv ∈ vals o →
  lv < length (st_heap s) ∧ (lv ∉ U)
  ∧ (writable h0 lv → ∀ ov, st_heap s !! lv = Some ov → clean h0 ov).
Proof.
  intros [Hlen Hold Hcl Hreg HJ] HU Ho Hv.
  assert (referenced s lv) as Hr by (left; eauto).
  split; [eauto|]. split.
  - intros Hu. by destruct (HU lv Hu).
  - intros Hb ov Hov. eauto.
Qed.

Lemma clean_lookup U ex s s' l o :
  ext h0 U ex s s' → st_heap s !! l = Some o → clean h0 o →
  ∃ o', st_heap s' !! l = Some o' ∧ clean h0 o'.
Proof.
  intros He Ho Hc.
  destruct (lookup_lt_is_Some_2 (st_heap s') l) as [o' Ho'].
  { apply lookup_lt_Some in Ho. pose proof (ext_length _ _ _ _ _ He). lia. }
  exists o'. split; [done|]. by eapply ext_clean.
Qed.

(** [v[k] = x], where [x] may be written to and is clean. *)
Lemma assign_ext U ex s l o k x u s' :
  Inv h0 s → guarded U s → writable h0 l → st_heap s !! l = Some o →
  clean h0 o →
  (l ∈ U → l ∈ ex) →
  (∀ lv, x = VRef lv →
     (writable h0 lv ∧ lv < length (st_heap s)) ∧ (lv ∉ U)
     ∧ (lv ≠ l → ∀ ov, st_heap s !! lv = Some ov → clean h0 ov)) →
  assign (VRef l) k x s = Ok u s' →
  ext h0 U ex s s'.
Proof.
  intros HI HU Hl Ho Hc Hex Hx (l1 & [= <-] & ->)%assign_inv.
  rewrite (heap_update_Some _ _ _ _ Ho).
  eapply ext_write; eauto.
  intros lv [<-|?]%vals_obj_set; [right; by apply Hx|by left].
Qed.

Lemma assignMergeValue_ext U ex s dest o k x u s' :
  Inv h0 s → guarded U s → writable h0 dest → st_heap s !! dest = Some o →
  clean h0 o → (dest ∈ U → dest ∈ ex) →
  (∀ lv, x = VRef lv →
     (writable h0 lv ∧ lv < length (st_heap s)) ∧ (lv ∉ U)
     ∧ (lv ≠ dest → ∀ ov, st_heap s !! lv = Some ov → clean h0 ov)) →
  assignMergeValue dest k x s = Ok u s' →
  ext h0 U ex s s'.
Proof.
  intros HI HU Hl Ho Hc Hex Hx. unfold assignMergeValue.
  intros (o1 & s1 & H1 & H)%bind_inv_Ok.
  apply deref_inv in H1 as [-> _].
  destruct (_ && _).
  - injection H as _ <-. by apply ext_refl.
  - eapply (assign_ext U ex s dest o k x); eauto.
Qed.

(** [baseMerge] writes to its destination and to what the destination
    holds, and allocates. *)
Lemma baseMerge_ext n : ∀ U ex dest src s u s',
  Inv h0 s → guarded U s → writable h0 dest →
  (∃ o, st_heap s !! dest = Some o ∧ clean h0 o) →
  (dest ∈ U → dest ∈ ex) →
  baseMerge n dest src s = Ok u s' →
  ext h0 U ex s s'.
Proof.
  induction n as [|n IH]; intros U ex dest src s u s' HI HU Hd Ho Hex;
    [done|].
  cbn [baseMerge]. generalize (merge_entries src). intros kvs.
  revert s HI HU Ho. induction kvs as [|[k v] kvs IHk]; intros s HI HU Ho.
  { intros [= _ <-]. by apply ext_refl. }
  intros (u1 & s1 & H1 & H)%bind_inv_Ok.
  assert (ext h0 U ex s s1) as He1.
  { destruct Ho as (o & Ho & Hc).
    destruct v as [| | | | |l];
      try (eapply assignMergeValue_ext; eauto; done).
    apply bind_inv_Ok in H1 as (srcValue & s2 & H2 & H1).
    apply deref_inv in H2 as [-> Hsrc].
    apply bind_inv_Ok in H1 as (o' & s2 & H2 & H1).
    apply deref_inv in H2 as [-> Ho']. rewrite Ho in Ho'.
    injection Ho' as <-.
    apply bind_inv_Ok in H1 as (isArr & s2 & H2 & H1).
    apply isArray_inv in H2 as ->.
    apply bind_inv_Ok in H1 as (newValue & s2 & H2 & H1).
    destruct newValue as [| | | | |l']; try done.
    apply bind_inv_Ok in H1 as (u2 & s3 & H3 & H1).
    assert (ext h0 U ex s s2
            ∧ (writable h0 l' ∧ l' < length (st_heap s2)) ∧ (l' ∉ U)
            ∧ ∃ o2, st_heap s2 !! l' = Some o2 ∧ clean h0 o2)
      as (He2 & Hl' & HlU & o2 & Ho2 & Hc2).
    { assert (obj_get k o = VRef l' → s2 = s →
              ext h0 U ex s s2
              ∧ (writable h0 l' ∧ l' < length (st_heap s2)) ∧ (l' ∉ U)
              ∧ ∃ o2, st_heap s2 !! l' = Some o2 ∧ clean h0 o2) as Hkeep.
      { intros Hg ->. apply obj_get_vals in Hg.
        destruct (held_ok U s dest o l' HI HU Ho Hg) as (Hlt & HnU & Hcl).
        specialize (Hc _ Hg).
        destruct (lookup_lt_is_Some_2 (st_heap s) l' Hlt) as [o2 Ho2].
        split; [by apply ext_refl|]. split; [frame_lia|]. split; [done|].
        exists o2. split; [done|]. eauto. }
      assert (∀ onew, vals onew = [] → new_obj onew s = Ok (VRef l') s2 →
              ext h0 U ex s s2
              ∧ (writable h0 l' ∧ l' < length (st_heap s2)) ∧ (l' ∉ U)
              ∧ ∃ o2, st_heap s2 !! l' = Some o2 ∧ clean h0 o2) as Hnew.
      { intros onew Hv. rewrite new_obj_eq. intros [= <- <-].
        destruct (ext_alloc h0 U ex s onew HI HU) as [He _].
        { intros lv. rewrite Hv. by intros ?%elem_of_nil. }
        pose proof (Inv_bound h0 s HI).
        split; [done|]. cbn [st_heap]. rewrite length_app. simpl.
        split; [frame_lia|]. split.
        - intros Hu. destruct (HU _ Hu). lia.
        - exists onew. split; [by apply list_lookup_middle|].
          intros lv. rewrite Hv. by intros ?%elem_of_nil. }
      destruct (obj_is_array srcValue).
      - destruct isArr.
        + injection H2 as E1 E2. auto.
        + by apply (Hnew (JArr [] [])).
      - destruct (isObject (obj_get k o)).
        + injection H2 as E1 E2. auto.
        + by apply (Hnew (JObj [])). }
    pose proof (ext_inv _ _ _ _ _ He2) as HI2.
    pose proof (ext_guarded _ _ _ _ _ He2) as HU2.
    assert (ext h0 U ex s2 s3) as He3.
    { destruct (bool_decide (l' = l)).
      - injection H3 as _ <-. by apply ext_refl.
      - eapply (IH U ex l' srcValue s2 u2 s3);
          [done|done|frame_lia|eauto|by intros ?|done]. }
    pose proof (ext_inv _ _ _ _ _ He3) as HI3.
    pose proof (ext_guarded _ _ _ _ _ He3) as HU3.
    destruct (clean_lookup U ex s s2 dest o He2 Ho Hc) as (od2 & Hod2 & Hcd2).
    destruct (clean_lookup U ex s2 s3 dest od2 He3 Hod2 Hcd2)
      as (od3 & Hod3 & Hcd3).
    destruct (clean_lookup U ex s2 s3 l' o2 He3 Ho2 Hc2)
      as (o3 & Ho3 & Hc3).
    eapply ext_trans; [exact He2|]. eapply ext_trans; [exact He3|].
    eapply (assignMergeValue_ext U ex s3 dest od3 k (VRef l')); eauto.
    intros lv [= <-]. pose proof (ext_length _ _ _ _ _ He3).
    split; [frame_lia|]. split; [done|]. intros _ ov Hov.
    rewrite Ho3 in Hov. by injection Hov as <-. }
  eapply ext_trans; [exact He1|].
  destruct Ho as (o & Ho & Hc).
  eapply IHk; eauto using ext_inv, ext_guarded.
  by eapply clean_lookup.
Qed.

Lemma string_entries_vals i str l : VRef l ∉ vals (JObj (string_entries i str)).
Proof.
  simpl. intros ((k & v) & E & Hin)%list_elem_of_fmap. simpl in E. subst v.
  by apply string_entries_no_ref in Hin.
Qed.

(** A new object that holds no container. *)
Lemma new_obj_ext U ex s o v s' :
  Inv h0 s → guarded U s → (∀ l, VRef l ∉ vals o) →
  new_obj o s = Ok v s' →
  ext h0 U ex s s' ∧ owned h0 s s' v
  ∧ v = VRef (length (st_heap s))
  ∧ st_heap s' !! length (st_heap s) = Some o.
Proof.
  intros HI HU Hv. rewrite new_obj_eq. intros [= <- <-].
  destruct (ext_alloc h0 U ex s o HI HU) as [He Hfree].
  { intros lv Hlv. by apply Hv in Hlv. }
  assert ((st_heap s ++ [o]) !! length (st_heap s) = Some o) as Hl
    by apply list_lookup_middle, eq_refl.
  split; [done|]. split; [|done].
  intros lv [= <-]. cbn [st_heap]. rewrite length_app. simpl.
  split; [lia|]. split; [done|]. exists o. split; [done|].
  intros l Hl'. by apply Hv in Hl'.
Qed.

(** [_.merge(object, source)] writes to [object] and to what it holds,
    and allocates; its result is [object] or a new object. *)
Lemma lodash_merge_ext fuel U ex object source s r s' :
  Inv h0 s → guarded U s →
  (∀ l, object = VRef l →
     writable h0 l ∧ (∃ o, st_heap s !! l = Some o ∧ clean h0 o)
     ∧ (l ∈ U → l ∈ ex)) →
  lodash_merge fuel object source s = Ok r s' →
  ext h0 U ex s s' ∧ (r = object ∨ owned h0 s s' r).
Proof.
  intros HI HU Hobj. unfold lodash_merge.
  intros (dest & s1 & H1 & H)%bind_inv_Ok.
  apply bind_inv_Ok in H as (u & s2 & H2 & H). injection H as <- <-.
  assert (∀ U' ex', guarded U' s1 → Inv h0 s1 → writable h0 dest →
            (∃ o, st_heap s1 !! dest = Some o ∧ clean h0 o) →
            (dest ∈ U' → dest ∈ ex') → ext h0 U' ex' s1 s2) as Hmerge.
  { intros U' ex' HU1 HI1 Hd Ho Hex.
    destruct (truthy source); [|injection H2 as _ <-; by apply ext_refl].
    destruct (bool_decide _); [injection H2 as _ <-; by apply ext_refl|].
    destruct source as [| | | |str|l];
      try (injection H2 as _ <-; by apply ext_refl).
    - by eapply baseMerge_ext.
    - apply bind_inv_Ok in H2 as (src & s3 & H3 & H2).
      apply deref_inv in H3 as [-> _]. by eapply baseMerge_ext. }
  assert (∀ o, (∀ l, VRef l ∉ vals o) → new_obj o s = Ok (VRef dest) s1 →
            ext h0 U ex s s2 ∧ owned h0 s s2 (VRef dest)) as Hnew.
  { intros o Hv Hn.
    destruct (new_obj_ext U ex s o _ _ HI HU Hv Hn) as (He & How & [= ->] & Ho).
    destruct (How _ eq_refl) as (Hlen & Hfree & o1 & Ho1 & Hc1).
    assert (ext h0 (length (st_heap s) :: U) (length (st_heap s) :: ex) s1 s2)
      as He2.
    { apply Hmerge; eauto using ext_inv.
      - intros l [->|Hl]%elem_of_cons; [split; [lia|done]|].
        by apply (ext_guarded _ _ _ _ _ He).
      - pose proof (Inv_bound h0 s HI). frame_lia.
      - intros _. left. }
    split.
    - eapply ext_trans; [exact He|].
      eapply ext_mono; [|eapply ext_weaken; [|exact He2]].
      + intros l [->|?]%elem_of_cons Hl; [|done].
        destruct (HU _ Hl). lia.
      + intros l Hl. by right.
    - intros lv [= <-]. pose proof (ext_length _ _ _ _ _ He2).
      split; [lia|]. split.
      + apply (ext_guarded _ _ _ _ _ He2). left.
      + by eapply clean_lookup. }
  assert ((∃ l, object = VRef l ∧ dest = l ∧ s1 = s)
          ∨ (∃ o, (∀ l, VRef l ∉ vals o)
                  ∧ new_obj o s = Ok (VRef dest) s1)) as [Hsame|Hfresh].
  { destruct object as [| | | |str|l]; cbn [to_object] in H1;
      try (apply bind_inv_Ok in H1 as (v1 & s3 & H3 & H1);
           destruct v1; try done; injection H1 as <- <-; right).
    1-4: exists (JObj []); split; [|done]; intros l'; by intros ?%elem_of_nil.
    - exists (JObj (string_entries 0 str)). split; [|done].
      intros l'. apply string_entries_vals.
    - left. injection H1 as <- <-. eauto. }
  - destruct Hsame as (l & -> & -> & ->).
    destruct (Hobj l eq_refl) as (Hl & Ho & Hex).
    split; [|by left]. by apply Hmerge.
  - destruct Hfresh as (o & Hv & Hn).
    destruct (Hnew o Hv Hn). split; [done|by right].
Qed.

Lemma owned_later s1 s2 s3 v :
  length (st_heap s1) ≤ length (st_heap s2) → owned h0 s2 s3 v →
  owned h0 s1 s3 v.
Proof. intros Hl Ho lv Hv. destruct (Ho lv Hv) as (? & ? & ?). split; [lia|done]. Qed.

Lemma owned_not_guarded U s s' v lv :
  guarded U s → owned h0 s s' v → v = VRef lv → lv ∉ U.
Proof.
  intros HU Ho Hv Hu. destruct (Ho lv Hv) as (? & _). destruct (HU lv Hu). lia.
Qed.

Section Loaders.

Context (W : World).

Lemma do_readYAML_ext U ex s file v s' :
  Inv h0 s → guarded U s → do_readYAML W file s = Ok v s' →
  ext h0 U ex s s' ∧ owned h0 s s' v.
Proof.
  intros HI HU. unfold do_readYAML. destruct (readYAML W file) as [n|]; [|done].
  intros (u & s1 & H1 & H)%bind_inv_Ok. injection H1 as _ <-.
  apply receive_inv in H as (hn & Hh & Hm & _ & F & R).
  by eapply loaded_ext.
Qed.

Lemma do_download_ext U ex s url v s' :
  Inv h0 s → guarded U s → do_download W url s = Ok v s' →
  ext h0 U ex s s' ∧ owned h0 s s' v.
Proof.
  intros HI HU. unfold do_download. destruct (download W url) as [n|]; [|done].
  intros (u & s1 & H1 & H)%bind_inv_Ok. injection H1 as _ <-.
  apply receive_inv in H as (hn & Hh & Hm & _ & F & R).
  by eapply loaded_ext.
Qed.

Lemma getOrCreate_ext U ex s type url i s' :
  Inv h0 s → guarded U s → getOrCreate W type url s = Ok i s' →
  ext h0 U ex s s'.
Proof.
  intros HI HU. unfold getOrCreate.
  intros (m & s1 & H1 & H)%bind_inv_Ok.
  rewrite get_manager_Ok in H1. injection H1 as <- <-.
  destruct (list_find _ _) as [[i' c']|].
  { injection H as _ <-. by apply ext_refl. }
  destruct (loadContent W url) as [n|]; [|done].
  apply bind_inv_Ok in H as (u & s1 & H1 & H). injection H1 as _ <-.
  apply bind_inv_Ok in H as (content & s2 & H2 & H).
  apply receive_inv in H2 as (hn & Hh & Hm & _ & F & R).
  cbn [st_heap st_manager] in Hh, Hm, F, R.
  apply bind_inv_Ok in H as (u' & s3 & H3 & H). injection H as _ <-.
  injection H3 as _ <-.
  destruct (loaded_ext h0 U ex s s2 content hn HI HU Hh Hm F R) as [He How].
  eapply ext_trans; [exact He|].
  eapply ext_registry; eauto using ext_inv, ext_guarded.
  cbn [st_manager m_components]. intros c lv [Hc|Hc]%elem_of_app Hv.
  - left. rewrite Hm. eauto.
  - apply list_elem_of_singleton in Hc as ->. cbn in Hv. right.
    destruct (How lv Hv) as (Hlen & _ & o & Ho & Hc).
    pose proof (Inv_bound h0 s HI). split; [lia|]. split.
    + by eapply owned_not_guarded.
    + intros ov Hov. rewrite Ho in Hov. by injection Hov as <-.
Qed.

Lemma set_content_ext U ex s i v u s' :
  Inv h0 s → guarded U s →
  (∀ lv, v = VRef lv →
     B ≤ lv < length (st_heap s) ∧ (lv ∉ U)
     ∧ ∀ ov, st_heap s !! lv = Some ov → clean h0 ov) →
  set_content i v s = Ok u s' →
  ext h0 U ex s s'.
Proof.
  intros HI HU Hv. unfold set_content.
  intros (m & s1 & H1 & H)%bind_inv_Ok.
  rewrite get_manager_Ok in H1. injection H1 as <- <-.
  destruct (_ !! i) as [c|] eqn:Hi; [|done].
  apply bind_inv_Ok in H as (u1 & s1 & H1 & H). injection H1 as _ <-.
  injection H as _ <-.
  eapply ext_registry; eauto. cbn [st_manager m_components].
  intros c' lv Hc' Hlv.
  apply list_elem_of_lookup in Hc' as [j Hj].
  apply list_lookup_insert_Some in Hj as [(-> & <- & _)|[_ Hj]].
  - right. cbn in Hlv. by apply Hv.
  - left. exists c'. split; [by eapply list_elem_of_lookup_2|done].
Qed.

Lemma filterObject_ext U ex s merged pat f s' :
  Inv h0 s → guarded U s → filterObject W merged pat s = Ok f s' →
  ext h0 U ex s s'.
Proof.
  intros HI HU. unfold filterObject.
  destruct pat as [p|]; [|intros [= _ <-]; by apply ext_refl].
  destruct merged as [| | | | |l]; try (intros [= _ <-]; by apply ext_refl).
  intros (o & s1 & H1 & H)%bind_inv_Ok. apply deref_inv in H1 as [-> Ho].
  rewrite new_obj_eq in H. injection H as _ <-.
  eapply ext_alloc; eauto. intros lv Hv.
  eapply (held_ok U s l o); eauto. simpl in Hv.
  apply list_elem_of_fmap in Hv as ((k & v) & E & Hin). simpl in E. subst v.
  apply list_elem_of_filter in Hin as [_ Hin]. by eapply entries_vals.
Qed.

End Loaders.

End FrameOps.

(** ** The frame of each method *)

Section FrameMethods.

Context (W : World) (h0 : heap).

Local Abbreviation B := (length h0).

Lemma ret_ok_later U ex s s' ret :
  ext h0 U ex s s' → ret_ok h0 s ret → ret_ok h0 s' ret.
Proof.
  intros He Hr lr Hlr. destruct (Hr lr Hlr) as (Hb & o & Ho & Hc).
  split; [done|]. by eapply clean_lookup.
Qed.

Lemma ext_ex_of U ret s s' :
  (∀ l, ret = VRef l → l ∉ U) →
  ext h0 U (ex_of ret) s s' → ext h0 U [] s s'.
Proof.
  intros Hn. apply ext_mono. intros l Hl Hu.
  destruct ret; simpl in Hl; try by apply elem_of_nil in Hl.
  apply list_elem_of_singleton in Hl as ->. by destruct (Hn _ eq_refl).
Qed.

Lemma handleDiscriminator_loop_ext hRef U mapping file jsonPath entries :
  handleRef_spec h0 hRef →
  (∀ l, mapping = VRef l → l ∉ U) →
  ∀ s u s',
    Inv h0 s → guarded U s → ret_ok h0 s mapping →
    handleDiscriminator_loop W hRef mapping file jsonPath entries s = Ok u s' →
    ext h0 U [] s s'.
Proof.
  intros Href HnU. induction entries as [|[mkey mval] entries IH];
    intros s u s' HI HU Hok; simpl.
  { intros [= _ <-]. by apply ext_refl. }
  intros (u1 & s1 & H1 & H)%bind_inv_Ok.
  assert (ext h0 U [] s s1) as He.
  { unfold handleDiscriminator_entry in H1.
    apply bind_inv_Ok in H1 as (p & s2 & H2 & H1).
    apply parse_inv in H2 as [-> _].
    apply bind_inv_Ok in H1 as (m & s2 & H2 & H1).
    rewrite get_manager_Ok in H2. injection H2 as <- <-.
    destruct (_ && _); [injection H1 as _ <-; by apply ext_refl|].
    destruct (truthy mval); [|injection H1 as _ <-; by apply ext_refl].
    eapply ext_ex_of; [exact HnU|]. by eapply Href. }
  eapply ext_trans; [exact He|].
  eapply IH; eauto using ext_inv, ext_guarded, ret_ok_later.
Qed.

Lemma handleDiscriminator_body_ext hRef :
  handleRef_spec h0 hRef →
  handleDiscriminator_spec h0 (handleDiscriminator_body W hRef).
Proof.
  intros Href U ret key val file jsonPath s u s' HI HU Hval.
  unfold handleDiscriminator_body.
  intros (mapping & s1 & H1 & H)%bind_inv_Ok.
  apply get_prop_inv in H1 as [-> Hm].
  destruct (negb (truthy mapping)); [injection H as _ <-; by apply ext_refl|].
  apply bind_inv_Ok in H as (entries & s1 & H1 & H).
  apply entries_of_inv in H1 as [-> _].
  assert (ret_ok h0 s mapping ∧ ∀ l, mapping = VRef l → l ∉ U) as [Hok HnU].
  { assert (∀ lm, mapping = VRef lm →
              writable h0 lm ∧ (lm ∉ U)
              ∧ ∃ o, st_heap s !! lm = Some o ∧ clean h0 o) as Hall.
    { intros lm Hlm. destruct (Hm lm Hlm) as (ld & o & -> & Ho & Hv).
      destruct (Hval ld eq_refl) as (Hb & o' & Ho' & Hc).
      rewrite Ho in Ho'. injection Ho' as <-.
      destruct (held_ok h0 U s ld o lm HI HU Ho Hv) as (Hlt & HnU & Hcl).
      specialize (Hc lm Hv).
      destruct (lookup_lt_is_Some_2 (st_heap s) lm Hlt) as [om Hom].
      split; [done|]. split; [done|]. exists om. split; [done|]. eauto. }
    split.
    - intros lm Hlm. destruct (Hall lm Hlm) as (? & _ & ?). done.
    - intros lm Hlm. by destruct (Hall lm Hlm) as (_ & ? & _). }
  by eapply handleDiscriminator_loop_ext.
Qed.

Lemma delete_ext U s ret key u s' :
  Inv h0 s → guarded U s → ret_ok h0 s ret →
  delete_ ret key s = Ok u s' →
  ext h0 U (ex_of ret) s s'.
Proof.
  intros HI HU Hok [->|(l & -> & ->)]%delete_inv; [by apply ext_refl|].
  destruct (Hok l eq_refl) as (Hb & o & Ho & Hc).
  rewrite (heap_update_Some _ _ _ _ Ho).
  eapply ext_write; eauto.
  - intros _. simpl. left.
  - intros lv Hv. left. by eapply vals_obj_delete.
Qed.

(** Lines 163-181. *)
Lemma include_result_ext fuel U ret key val jsonPath pat merged s0 s r s' :
  Inv h0 s → guarded U s → ret_ok h0 s ret →
  length (st_heap s0) ≤ length (st_heap s) → owned h0 s0 s merged →
  include_result W fuel ret key val jsonPath pat merged s = Ok r s' →
  ext h0 U (ex_of ret) s s'
  ∧ (r = ret ∨ (isObject r = true ∧ owned h0 s0 s' r)).
Proof.
  intros HI HU Hok Hlen Hown. unfold include_result.
  intros (ma & s1 & H1 & H)%bind_inv_Ok.
  pose proof (isArray_inv _ _ _ _ H1) as ->. destruct ma.
  - apply isArray_true in H1 as (lm & em & pm & -> & Hm).
    apply bind_inv_Ok in H as (ra & s1 & H1 & H).
    pose proof (isArray_inv _ _ _ _ H1) as ->. destruct ra.
    + apply isArray_true in H1 as (lr & er & pr & -> & Hr).
      apply concat_inv in H
        as (la & lb & ea & pa & eb & pb & [= <-] & [= <-] & Ha & Hb & -> & ->).
      rewrite Hr in Ha. injection Ha as <- <-.
      rewrite Hm in Hb. injection Hb as <- <-.
      destruct (Hok lr eq_refl) as (Hbr & o & Ho & Hcr).
      rewrite Hr in Ho. injection Ho as <-.
      destruct (Hown lm eq_refl) as (Hlm & _ & o & Ho & Hcm).
      rewrite Hm in Ho. injection Ho as <-.
      assert (∀ lv, VRef lv ∈ vals (JArr (er ++ em) []) →
                VRef lv ∈ vals (JArr er pr) ∨ VRef lv ∈ vals (JArr em pm))
        as Hsplit.
      { intros lv. simpl. rewrite app_nil_r, omap_id_elem, elem_of_app.
        rewrite !elem_of_app, !omap_id_elem. tauto. }
      destruct (ext_alloc h0 U (ex_of (VRef lr)) s (JArr (er ++ em) []) HI HU)
        as [He Hfree].
      { intros lv Hv. destruct (Hsplit lv Hv).
        - by eapply (held_ok h0 U s lr).
        - by eapply (held_ok h0 U s lm). }
      split; [done|]. right. split; [done|]. intros lv [= <-]. cbn [st_heap].
      rewrite length_app. simpl. split; [lia|]. split; [done|].
      exists (JArr (er ++ em) []). split; [by apply list_lookup_middle|].
      intros lv Hv. destruct (Hsplit lv Hv); eauto.
    + apply bind_inv_Ok in H as (es & s1 & H1' & H).
      apply entries_of_inv in H1' as [-> _].
      destruct (decide _); [|done]. injection H as <- <-.
      split; [by apply ext_refl|by right].
  - apply bind_inv_Ok in H as (filtered & s1 & H1' & H).
    apply bind_inv_Ok in H as (x & s2 & H2 & H).
    apply bind_inv_Ok in H as (u & s3 & H3 & H). injection H as <- <-.
    split; [|by left].
    pose proof (filterObject_ext h0 W U (ex_of ret) _ _ _ _ _ HI HU H1') as He1.
    eapply ext_trans; [exact He1|].
    pose proof (ret_ok_later _ _ _ _ _ He1 Hok) as Hok1.
    destruct (lodash_merge_ext h0 fuel U (ex_of ret) ret filtered s1 x s2)
      as [He2 _]; eauto using ext_inv, ext_guarded.
    { intros l ->. destruct (Hok1 l eq_refl) as (? & ?).
      split; [done|]. split; [done|]. intros _. simpl. left. }
    eapply ext_trans; [exact He2|].
    eapply delete_ext; eauto using ext_inv, ext_guarded, ret_ok_later.
Qed.

Lemma handleRef_target_ext U ex val pRef pFile refType s t s' :
  Inv h0 s → guarded U s →
  handleRef_target W val pRef pFile refType s = Ok t s' →
  ext h0 U ex s s'.
Proof.
  intros HI HU. unfold handleRef_target. destruct (isHttp pRef).
  { intros (cmp & s1 & H1 & H)%bind_inv_Ok. injection H as _ <-.
    by eapply getOrCreate_ext. }
  destruct (isLocal pRef).
  { intros (m & s1 & H1 & H)%bind_inv_Ok.
    rewrite get_manager_Ok in H1. injection H1 as <- <-.
    destruct (manager_get W _ val); [injection H as _ <-; by apply ext_refl|].
    apply bind_inv_Ok in H as (cmp & s1 & H1 & H). injection H as _ <-.
    by eapply getOrCreate_ext. }
  intros (target & s1 & H1 & H)%bind_inv_Ok.
  apply relative_target_inv in H1 as [-> _].
  apply bind_inv_Ok in H as (pt & s1 & H1 & H).
  apply parse_inv in H1 as [-> _].
  apply bind_inv_Ok in H as (cmp & s1 & H1 & H). injection H as _ <-.
  by eapply getOrCreate_ext.
Qed.

Lemma handleRef_body_ext mRefs hInc :
  mergeRefs_spec h0 mRefs → handleInclude_spec h0 hInc →
  handleRef_spec h0 (handleRef_body W mRefs hInc).
Proof.
  intros Hmerge Hinc U ret key val file jsonPath s u s' HI HU Hok.
  unfold handleRef_body.
  intros (pRef & s1 & H1 & H)%bind_inv_Ok. apply parse_inv in H1 as [-> _].
  apply bind_inv_Ok in H as (pFile & s1 & H1 & H).
  apply parse_inv in H1 as [-> _].
  destruct (shouldInclude W _).
  { apply bind_inv_Ok in H as (r & s1 & H1 & H). injection H as _ <-.
    by destruct (Hinc U ret key val file jsonPath s r s1 HI HU Hok H1). }
  apply bind_inv_Ok in H as (t & s1 & H1 & H).
  pose proof (handleRef_target_ext U (ex_of ret) _ _ _ _ _ _ _ HI HU H1) as He1.
  eapply ext_trans; [exact He1|].
  destruct t as [[cmp nextFile]|]; [|injection H as _ <-;
    apply ext_refl; eauto using ext_inv, ext_guarded].
  apply bind_inv_Ok in H as (c & s2 & H2 & H).
  apply component_inv in H2 as [-> Hc].
  apply bind_inv_Ok in H as (u2 & s2 & H2 & H).
  pose proof (assign_inv _ _ _ _ _ _ H2) as (lr & -> & _).
  pose proof (ret_ok_later _ _ _ _ _ He1 Hok) as Hok1.
  destruct (Hok1 lr eq_refl) as (Hb & o & Ho & Hco).
  assert (ext h0 U [lr] s1 s2) as He2.
  { eapply (assign_ext h0 U [lr] s1 lr o); eauto using ext_inv, ext_guarded.
    - intros _. left.
    - intros lv [=]. }
  eapply ext_trans; [exact He2|].
  apply bind_inv_Ok in H as (merged & s3 & H3 & H).
  pose proof (ext_inv _ _ _ _ _ He2) as HI2.
  pose proof (ext_guarded _ _ _ _ _ He2) as HU2.
  assert (st_manager s2 = st_manager s1) as Hm2.
  { apply assign_inv in H2 as (l' & _ & ->). done. }
  destruct (Hmerge U (c_content c) nextFile jsonPath s2 merged s3 HI2 HU2)
    as [He3 Hown]; [|done|].
  { intros lo Hlo.
    assert (c ∈ m_components (st_manager s2)) as Hin.
    { rewrite Hm2. by eapply list_elem_of_lookup_2. }
    destruct (inv_registry _ _ HI2 c lo Hin Hlo) as [Hb' Hlt].
    split; [done|]. intros _ o' Ho'.
    eapply (inv_clean _ _ HI2 lo); [by left| |done]. right. eauto. }
  eapply ext_trans; [eapply ext_mono; [|exact He3]|].
  { by intros l ?%elem_of_nil. }
  eapply set_content_ext; eauto using ext_inv, ext_guarded.
  intros lv Hlv. destruct (Hown lv Hlv) as (Hlen & _ & o' & Ho' & Hc').
  pose proof (Inv_bound h0 s2 HI2). split; [lia|]. split.
  - by eapply owned_not_guarded.
  - intros ov Hov. rewrite Ho' in Hov. by injection Hov as <-.
Qed.

Lemma owned_obj_ok s s' v : owned h0 s s' v → obj_ok h0 s' v.
Proof.
  intros Ho lv Hv. destruct (Ho lv Hv) as (Hlen & _ & o & Hlo & Hc).
  split; [lia|]. intros _ o' Ho'. rewrite Hlo in Ho'. by injection Ho' as <-.
Qed.

Lemma owned_ret_ok s s' v : Inv h0 s → owned h0 s s' v → ret_ok h0 s' v.
Proof.
  intros HI Ho lv Hv. destruct (Ho lv Hv) as (Hlen & _ & o & Hlo & Hc).
  pose proof (Inv_bound h0 s HI). split; [frame_lia|eauto].
Qed.

(** Lines 144-154: the guarded [content] gets a property for each
    matched file. *)
Lemma include_matched_ext hInc U key file jsonPath (lc : loc) matchedFiles :
  handleInclude_spec h0 hInc →
  ∀ s u s',
    Inv h0 s → guarded (lc :: U) s → ret_ok h0 s (VRef lc) →
    include_matched W hInc key file jsonPath (VRef lc) matchedFiles s
      = Ok u s' →
    ext h0 (lc :: U) [lc] s s'.
Proof.
  intros Hinc. induction matchedFiles as [|mf rest IH];
    intros s u s' HI HU Hok; simpl.
  { intros [= _ <-]. by apply ext_refl. }
  intros (arg & s1 & H1 & H)%bind_inv_Ok.
  assert (∀ l, VRef l ∉ vals (obj_set key (VStr mf) (JObj []))) as Hnone.
  { intros l [E|Hin]%vals_obj_set; [done|]. by apply elem_of_nil in Hin. }
  destruct (new_obj_ext h0 (lc :: U) [lc] s _ _ _ HI HU Hnone H1)
    as (He1 & Hown1 & -> & _).
  apply bind_inv_Ok in H as (inc & s2 & H2 & H).
  pose proof (ext_inv _ _ _ _ _ He1) as HI1.
  pose proof (ext_guarded _ _ _ _ _ He1) as HU1.
  set (la := length (st_heap s)) in *.
  assert (la ∉ lc :: U) as Hla.
  { intros Hin. destruct (HU _ Hin). unfold la in *. lia. }
  destruct (Hinc (lc :: U) (VRef la) key (VStr mf) file
              (jsonPath +:+ "." +:+ Path_stem W mf) s1 inc s2 HI1 HU1)
    as [He2 Hinc2]; [exact (owned_ret_ok s s1 _ HI Hown1)|done|].
  apply (ext_ex_of (lc :: U) (VRef la)) in He2;
    [|by intros l [= <-]].
  apply bind_inv_Ok in H as (u3 & s3 & H3 & H).
  pose proof (ext_inv _ _ _ _ _ He2) as HI2.
  pose proof (ext_guarded _ _ _ _ _ He2) as HU2.
  assert (ext h0 (lc :: U) [lc] s s2) as He12.
  { eapply ext_trans; [exact He1|]. eapply ext_mono; [|exact He2].
    by intros l ?%elem_of_nil. }
  pose proof (ret_ok_later _ _ _ _ _ He12 Hok) as Hok2.
  destruct (Hok2 lc eq_refl) as (Hb & oc & Hoc & Hcc).
  assert (ext h0 (lc :: U) [lc] s2 s3) as He3.
  { eapply (assign_ext h0 (lc :: U) [lc] s2 lc oc); eauto.
    - intros _. left.
    - intros li Hli.
      assert (ret_ok h0 s2 inc ∧ li < length (st_heap s2) ∧ li ∉ lc :: U)
        as (Hroi & Hlt & HnU).
      { destruct Hinc2 as [->|[_ Hown2]].
        - injection Hli as <-. split.
          + eapply ret_ok_later; [exact He2|].
            exact (owned_ret_ok s s1 _ HI Hown1).
          + destruct (Hown1 la eq_refl) as (Hlen & _).
            pose proof (ext_length _ _ _ _ _ He2). split; [lia|done].
        - split; [exact (owned_ret_ok s1 s2 _ HI1 Hown2)|].
          destruct (Hown2 li Hli) as (Hlen & _). split; [lia|].
          exact (owned_not_guarded h0 (lc :: U) s1 s2 inc li HU1 Hown2 Hli). }
      destruct (Hroi li Hli) as (Hbi & oi & Hoi & Hci).
      split; [frame_lia|]. split; [done|]. intros _ ov Hov.
      rewrite Hoi in Hov. by injection Hov as <-. }
  eapply ext_trans; [exact He12|]. eapply ext_trans; [exact He3|].
  eapply IH; eauto using ext_inv, ext_guarded, ret_ok_later.
Qed.

(** Lines 117-160. *)
Lemma handleInclude_content_ext hInc U key val file jsonPath pRef pFile s t s' :
  handleInclude_spec h0 hInc →
  Inv h0 s → guarded U s →
  handleInclude_content W hInc key val file jsonPath pRef pFile s = Ok t s' →
  ext h0 U [] s s'
  ∧ ∀ content nextFile, t = Some (content, nextFile) → obj_ok h0 s' content.
Proof.
  intros Hinc HI HU. unfold handleInclude_content.
  assert (∀ (m : M value) nextFile,
            (∀ v s1, m s = Ok v s1 → ext h0 U [] s s1 ∧ owned h0 s s1 v) →
            (content ← m; mret (Some (content, nextFile))) s = Ok t s' →
            ext h0 U [] s s'
            ∧ ∀ content nextFile, t = Some (content, nextFile) →
                obj_ok h0 s' content) as Hload.
  { intros m nextFile Hm (content & s1 & H1 & H)%bind_inv_Ok.
    injection H as <- <-. destruct (Hm _ _ H1) as [He Hown].
    split; [done|]. intros c n [= <- _]. by eapply owned_obj_ok. }
  destruct (isHttp pRef).
  { apply Hload. intros v s1. by apply do_download_ext. }
  destruct (isLocal pRef).
  { intros (m & s1 & H1 & H)%bind_inv_Ok.
    rewrite get_manager_Ok in H1. injection H1 as <- <-.
    destruct (manager_get W _ val).
    - injection H as <- <-. split; [by apply ext_refl|done].
    - revert H. apply Hload. intros v s1. by apply do_readYAML_ext. }
  intros (target & s1 & H1 & H)%bind_inv_Ok.
  apply relative_target_inv in H1 as [-> _].
  apply bind_inv_Ok in H as (pt & s1 & H1 & H).
  apply parse_inv in H1 as [-> _].
  destruct (isHttp pt).
  { revert H. apply Hload. intros v s1. by apply do_download_ext. }
  apply bind_inv_Ok in H as (content & s3 & H3 & H). injection H as <- <-.
  apply bind_inv_Ok in H3 as (content0 & s1 & H1 & H).
  assert (∀ l', VRef l' ∉ vals (JObj [])) as Hnone
    by (intros l'; by intros ?%elem_of_nil).
  destruct (new_obj_ext h0 U [] s _ _ _ HI HU Hnone H1)
    as (He1 & Hown1 & -> & _).
  pose proof (ext_inv _ _ _ _ _ He1) as HI1.
  pose proof (ext_guarded _ _ _ _ _ He1) as HU1.
  set (lc := length (st_heap s)) in *.
  destruct (decide _).
  - apply bind_inv_Ok in H as (u & s2 & H2 & H). injection H as <- <-.
    destruct (Hown1 lc eq_refl) as (Hlen & Hfree & oc & Hoc & Hcc).
    assert (guarded (lc :: U) s1) as HU1'.
    { intros l' [->|Hl]%elem_of_cons; [split; [lia|done]|by apply HU1]. }
    pose proof (owned_ret_ok s s1 _ HI Hown1) as Hok1.
    pose proof (include_matched_ext hInc U key file jsonPath lc _ Hinc
                  s1 u s2 HI1 HU1' Hok1 H2) as He2.
    split.
    + eapply ext_trans; [exact He1|].
      eapply ext_mono; [|eapply ext_weaken; [|exact He2]].
      * intros l' ->%list_elem_of_singleton Hl.
        destruct (HU _ Hl). unfold lc in *. lia.
      * intros l' Hl. by right.
    + intros c n [= <- _] lo [= <-].
      destruct (ret_ok_later _ _ _ _ _ He2 Hok1 lc eq_refl)
        as (_ & o & Ho & Hc).
      split; [by eapply lookup_lt_Some|].
      intros _ o' Ho'. rewrite Ho in Ho'. by injection Ho' as <-.
  - destruct (do_readYAML_ext h0 W U [] s1 _ _ _ HI1 HU1 H) as [He2 Hown2].
    split; [by eapply ext_trans|].
    intros c nf [= <- _]. by eapply owned_obj_ok.
Qed.

Section Slices.

Hypothesis Hslice : slices_held W.

Lemma handleInclude_body_ext mRefs hInc fuel :
  mergeRefs_spec h0 mRefs → handleInclude_spec h0 hInc →
  handleInclude_spec h0 (handleInclude_body W mRefs hInc fuel).
Proof.
  intros Hmerge Hinc U ret key val file jsonPath s r s' HI HU Hok.
  unfold handleInclude_body.
  intros (pRef & s1 & H1 & H)%bind_inv_Ok. apply parse_inv in H1 as [-> _].
  apply bind_inv_Ok in H as (pFile & s1 & H1 & H).
  apply parse_inv in H1 as [-> _].
  apply bind_inv_Ok in H as (t & s1 & H1 & H).
  destruct (handleInclude_content_ext hInc U key val file jsonPath pRef pFile
              s t s1 Hinc HI HU H1) as [He1 Hcontent].
  destruct t as [[content nextFile]|];
    [|injection H as <- <-; split; [|by left];
      eapply ext_mono; [|exact He1]; by intros l ?%elem_of_nil].
  apply bind_inv_Ok in H as (h & s2 & H2 & H).
  rewrite get_heap_Ok in H2. injection H2 as <- <-.
  apply bind_inv_Ok in H as (merged & s2 & H2 & H).
  pose proof (ext_inv _ _ _ _ _ He1) as HI1.
  pose proof (ext_guarded _ _ _ _ _ He1) as HU1.
  assert (obj_ok h0 s1 (sliceObject W (st_heap s1) content (hash pRef)))
    as Hsliced.
  { intros lo Hlo. destruct (Hslice _ _ _ _ Hlo) as [->|(l0 & o & Ho & Hv)].
    - by eapply Hcontent.
    - destruct (held_ok h0 U s1 l0 o lo HI1 HU1 Ho Hv) as (? & _ & ?).
      split; [done|]. auto. }
  destruct (Hmerge U _ nextFile jsonPath s1 merged s2 HI1 HU1 Hsliced H2)
    as [He2 Hown].
  assert (ext h0 U (ex_of ret) s s2) as He12.
  { eapply ext_mono; [|eapply ext_trans; [exact He1|exact He2]].
    by intros l ?%elem_of_nil. }
  destruct (include_result_ext fuel U ret key val jsonPath (getKeyPattern key)
              merged s1 s2 r s')
    as [He3 Hr]; eauto using ext_inv, ext_guarded, ret_ok_later, ext_length.
  split; [by eapply ext_trans|].
  destruct Hr as [->|[Hobj Hr]]; [by left|right]. split; [done|].
  eapply owned_later; [|exact Hr]. by eapply ext_length.
Qed.

End Slices.

End FrameMethods.

(** ** Writing twice under one name, and removing what was written *)

Lemma alist_get_replace_is_Some k v ps :
  is_Some (alist_get k ps) → is_Some (alist_get k (alist_replace k v ps)).
Proof. intros H. rewrite alist_get_replace by done. eauto. Qed.

Lemma alist_replace_replace k v1 v2 ps :
  alist_replace k v2 (alist_replace k v1 ps) = alist_replace k v2 ps.
Proof.
  induction ps as [|[k' v'] ps IH]; simpl; [done|].
  destruct (decide (k' = k)) as [->|Hne]; simpl.
  - by rewrite decide_True.
  - rewrite decide_False by done. by rewrite IH.
Qed.

Lemma alist_replace_insert_index i k v1 v2 ps :
  alist_get k ps = None →
  alist_replace k v2 (alist_insert_index i k v1 ps)
  = alist_insert_index i k v2 ps.
Proof.
  induction ps as [|[k' v'] ps IH]; simpl.
  - by rewrite decide_True.
  - destruct (decide (k' = k)) as [->|Hne]; [done|]. intros Hn.
    destruct (index_of k') as [j|]; [destruct (decide (j < i))|]; simpl;
      rewrite ?decide_True, ?decide_False by done; [by rewrite IH|done..].
Qed.

Lemma alist_replace_snoc k v1 v2 ps :
  alist_get k ps = None →
  alist_replace k v2 (ps ++ [(k, v1)]) = ps ++ [(k, v2)].
Proof.
  induction ps as [|[k' v'] ps IH]; simpl.
  - by rewrite decide_True.
  - destruct (decide (k' = k)) as [->|Hne]; [done|]. intros Hn.
    by rewrite IH.
Qed.

Lemma alist_set_set k v1 v2 ps :
  alist_set k v2 (alist_set k v1 ps) = alist_set k v2 ps.
Proof.
  unfold alist_set at 1. rewrite alist_get_set. unfold alist_set.
  destruct (alist_get k ps) eqn:E.
  - apply alist_replace_replace.
  - destruct (index_of k).
    + by apply alist_replace_insert_index.
    + by apply alist_replace_snoc.
Qed.

Lemma elems_set_lookup i v es j e :
  elems_set i v es !! j = Some e →
  (j = i ∧ e = Some v) ∨ (j ≠ i ∧ (e = None ∨ es !! j = Some e)).
Proof.
  unfold elems_set. destruct (decide (i < length es)).
  - intros [(-> & <- & _)|[Hne H]]%list_lookup_insert_Some; [by left|].
    right. auto.
  - intros [H|[Hge H]]%lookup_app_Some.
    + right. split; [|by right]. apply lookup_lt_Some in H. lia.
    + apply lookup_app_Some in H as [H|[Hge' H]].
      * apply lookup_replicate in H as [-> Hlt]. right. split; [lia|by left].
      * apply list_lookup_singleton_Some in H as [Hj <-]. left.
        rewrite length_replicate in Hge', Hj. split; [lia|done].
Qed.

Lemma elems_set_length i v es : i < length (elems_set i v es).
Proof.
  unfold elems_set. destruct (decide (i < length es)).
  - by rewrite length_insert.
  - rewrite !length_app, length_replicate. simpl. lia.
Qed.

Lemma elems_set_set_vals i v1 v2 es x :
  Some x ∈ elems_set i v2 (elems_set i v1 es) → x = v2 ∨ Some x ∈ es.
Proof.
  intros [j Hj]%list_elem_of_lookup.
  apply elems_set_lookup in Hj as [[_ [= ->]]|[Hne [[=]|Hj]]]; [by left|].
  apply elems_set_lookup in Hj as [[? _]|[_ [[=]|Hj]]]; [done|].
  right. by eapply list_elem_of_lookup_2.
Qed.

Lemma vals_set_set k v1 v2 o x :
  x ∈ vals (obj_set k v2 (obj_set k v1 o)) → x = v2 ∨ x ∈ vals o.
Proof.
  destruct o as [ps|es ps]; simpl.
  - rewrite alist_set_set. apply alist_set_vals.
  - destruct (index_of k) eqn:E; simpl; rewrite E; simpl;
      rewrite !elem_of_app, ?omap_id_elem.
    + intros [H|H]; [|auto]. apply elems_set_set_vals in H. naive_solver.
    + rewrite alist_set_set. intros [H|H]; [auto|].
      apply alist_set_vals in H. naive_solver.
Qed.

(** The elements of an array after [a[key] = val; a.splice(Number(key),
    1)] are elements it had before. *)
Lemma splice_after_set key val es ps es' ps' x :
  obj_splice1 (splice_start key) (obj_set key val (JArr es ps))
    = JArr es' ps' →
  Some x ∈ es' → Some x ∈ es.
Proof.
  simpl. unfold splice_start. destruct (index_of key) as [i|] eqn:E; simpl.
  - intros [= <- _]. rewrite elem_of_app.
    intros [H|H].
    + apply elem_of_take in H as (j & Hj & Hlt).
      apply elems_set_lookup in Hj as [[? _]|[_ [[=]|Hj]]]; [lia|].
      by eapply list_elem_of_lookup_2.
    + apply list_elem_of_lookup in H as [j Hj]. rewrite lookup_drop in Hj.
      apply elems_set_lookup in Hj as [[? _]|[_ [[=]|Hj]]]; [lia|].
      by eapply list_elem_of_lookup_2.
  - intros [= <- _] H. apply (subseteq_drop 1 es). exact H.
Qed.

Lemma obj_set_is_array k v o : obj_is_array (obj_set k v o) = obj_is_array o.
Proof. destruct o; simpl; [done|]. by destruct (index_of k). Qed.

(** ** The frame of the walk *)

Section FrameWalk.

Context (W : World) (h0 : heap).

Local Abbreviation B := (length h0).

Lemma ext_unguard U ex lr s s' :
  lr ∉ U → (∀ l, l ∈ ex → l = lr) →
  ext h0 (lr :: U) ex s s' → ext h0 U [] s s'.
Proof.
  intros HlU Hex He. eapply ext_mono; [|eapply ext_weaken; [|exact He]].
  - intros l Hl Hu. apply Hex in Hl as ->. done.
  - intros l Hl. by right.
Qed.

Lemma own_ret_after U ex sb s s' lr o :
  length (st_heap sb) ≤ lr → st_heap s !! lr = Some o → clean h0 o →
  ext h0 (lr :: U) ex s s' →
  own_ret h0 sb s' (VRef lr).
Proof.
  intros Hlr Ho Hc He.
  destruct (clean_lookup h0 _ _ _ _ _ _ He Ho Hc) as (o' & Ho' & Hc').
  exists lr, o'. split_and!; try done.
  apply (ext_guarded _ _ _ _ _ He). left.
Qed.

Lemma owned_own_ret sb s s' v lv :
  Inv h0 sb → length (st_heap sb) ≤ length (st_heap s) →
  owned h0 s s' v → v = VRef lv → own_ret h0 sb s' v.
Proof.
  intros HI Hlen Hown ->. destruct (Hown lv eq_refl) as (Hl & Hfree & o & Ho & Hc).
  exists lv, o. split_and!; try done. lia.
Qed.

Section Entry.

Context (mRefs : value → string → string → M value).
Context (hRef : value → string → value → string → string → M unit).
Context (hInc : value → string → value → string → string → M value).
Context (hDisc : value → string → value → string → string → M unit).
Hypothesis Hmerge : mergeRefs_spec h0 mRefs.
Hypothesis Href : handleRef_spec h0 hRef.
Hypothesis Hinc : handleInclude_spec h0 hInc.
Hypothesis Hdisc : handleDiscriminator_spec h0 hDisc.
Hypothesis Href_rejects : rejects_objects hRef.
Hypothesis Hinc_rejects : rejects_objects hInc.

(** Lines 53-69. *)
Lemma mergeRefs_entry_ext U file jsonPath sb ret key val s r s' :
  Inv h0 sb → guarded U sb →
  ext h0 U [] sb s → own_ret h0 sb s ret → entry_ok h0 U sb key val →
  mergeRefs_entry mRefs hRef hInc hDisc file jsonPath ret key val s
    = Ok r s' →
  ext h0 U [] sb s' ∧ own_ret h0 sb s' r.
Proof.
  intros HIb HUb Hes (lr & o & -> & Hlr & Ho & Hc & Hfree) Hentry.
  pose proof (ext_inv _ _ _ _ _ Hes) as HI.
  pose proof (ext_guarded _ _ _ _ _ Hes) as HU.
  pose proof (Inv_bound h0 sb HIb) as Hbb.
  assert (lr ∉ U) as HlU.
  { intros Hu. destruct (HUb _ Hu). lia. }
  assert (∀ lv, val = VRef lv →
            lv < length (st_heap s) ∧ (lv ∉ U) ∧ lv ≠ lr
            ∧ (writable h0 lv →
               ∀ ov, st_heap s !! lv = Some ov → clean h0 ov))
    as Hval.
  { intros lv Hlv. destruct (Hentry lv Hlv) as (Hlt & HnU & Hcl & _).
    pose proof (ext_length _ _ _ _ _ Hes).
    split; [lia|]. split; [done|]. split; [lia|]. intros Hb ov Hov.
    destruct (lookup_lt_is_Some_2 (st_heap sb) lv Hlt) as [ob Hob].
    eapply (ext_clean _ _ _ _ _ Hes); eauto. }
  unfold mergeRefs_entry.
  intros (u1 & s1 & H1 & H)%bind_inv_Ok.
  apply assign_inv in H1 as (l' & [= <-] & ->).
  rewrite (heap_update_Some _ _ _ _ Ho) in H.
  set (o1 := obj_set key val o) in *.
  set (s1 := mkState (<[lr := o1]> (st_heap s)) (st_manager s) (st_trace s))
    in *.
  assert (VRef lr ∉ vals o1) as Hself.
  { intros [E|Hin]%vals_obj_set.
    - destruct (Hval lr (eq_sym E)) as (_ & _ & ? & _). done.
    - apply Hfree. left. eauto. }
  assert (ext h0 U [] sb s1) as He1.
  { eapply ext_own_write; eauto; [lia|].
    intros lv [E|Hin]%vals_obj_set; [|by left]. right.
    destruct (Hval lv (eq_sym E)) as (? & ? & ? & ?). auto. }
  pose proof (ext_inv _ _ _ _ _ He1) as HI1.
  pose proof (ext_guarded _ _ _ _ _ He1) as HU1.
  assert (st_heap s1 !! lr = Some o1) as Ho1.
  { apply list_lookup_insert_eq. by eapply lookup_lt_Some. }
  assert (¬ referenced s1 lr) as Hfree1.
  { intros [?|[? _]]%(referenced_update s lr o o1 lr Ho); done. }
  assert (guarded (lr :: U) s1) as HU1'.
  { intros l [->|Hl]%elem_of_cons; [|by apply HU1].
    split; [by eapply lookup_lt_Some|done]. }
  assert ((∀ lv, val = VRef lv → writable h0 lv) → clean h0 o1) as Hclean1.
  { intros Hv lv [E|Hin]%vals_obj_set; [by apply Hv|by apply Hc]. }
  destruct (decide (key = "$ref"%string)) as [Hkey|Hkey].
  { apply bind_inv_Ok in H as (u & s2 & H2 & H). injection H as <- <-.
    assert (clean h0 o1) as Hc1.
    { apply Hclean1. intros lv ->. by apply Href_rejects in H2. }
    assert (ext h0 (lr :: U) [lr] s1 s2) as He2.
    { eapply (Href (lr :: U) (VRef lr)); eauto.
      intros l [= <-]. split; [frame_lia|eauto]. }
    split.
    - eapply ext_trans; [exact He1|]. eapply ext_unguard; eauto.
      by intros l ->%list_elem_of_singleton.
    - by eapply own_ret_after. }
  destruct (INCLUDE_PATTERN_match key) as [g|].
  { assert (clean h0 o1) as Hc1.
    { apply Hclean1. intros lv ->. by apply Hinc_rejects in H. }
    destruct (Hinc (lr :: U) (VRef lr) key val file jsonPath s1 r s')
      as [He2 Hr]; eauto.
    { intros l [= <-]. split; [frame_lia|eauto]. }
    split.
    - eapply ext_trans; [exact He1|]. eapply ext_unguard; eauto.
      by intros l ->%list_elem_of_singleton.
    - destruct Hr as [->|[Hobj Hr]]; [by eapply own_ret_after|].
      destruct r as [| | | | |lr']; try done.
      exact (owned_own_ret sb s1 s' _ lr' HIb
               (ext_length _ _ _ _ _ He1) Hr eq_refl). }
  destruct (decide (key = "discriminator"%string)) as [Hd|Hd].
  { apply bind_inv_Ok in H as (u & s2 & H2 & H). injection H as <- <-.
    assert (ret_ok h0 s1 val) as Hvok.
    { intros ld Hld. destruct (Hentry ld Hld) as (_ & _ & _ & Hfresh).
      specialize (Hfresh Hd). split; [done|].
      destruct (Hval ld Hld) as (Hlt & _ & Hne & Hcl).
      destruct (lookup_lt_is_Some_2 (st_heap s) ld Hlt) as [od Hod].
      exists od. split; [|eauto]. cbn. by rewrite list_lookup_insert_ne. }
    assert (clean h0 o1) as Hc1.
    { apply Hclean1. intros lv Hlv.
      destruct (Hentry lv Hlv) as (_ & _ & _ & Hfresh). auto. }
    assert (ext h0 (lr :: U) [] s1 s2) as He2 by (eapply Hdisc; eauto).
    split.
    - eapply ext_trans; [exact He1|]. eapply ext_unguard; eauto.
      by intros l ?%elem_of_nil.
    - by eapply own_ret_after. }
  apply bind_inv_Ok in H as (merged & s2 & H2 & H).
  destruct (Hmerge (lr :: U) val file (jsonPath +:+ "." +:+ key) s1 merged s2
              HI1 HU1') as [He2 Hown]; [|exact H2|].
  { intros lv Hlv. destruct (Hval lv Hlv) as (Hlt & _ & Hne & Hcl).
    split; [cbn; by rewrite length_insert|].
    intros Hb ov Hov. cbn in Hov.
    rewrite list_lookup_insert_ne in Hov by done. eauto. }
  assert (ext h0 U [] sb s2) as Hes2.
  { eapply ext_trans; [exact He1|]. eapply ext_unguard; eauto.
    by intros l ?%elem_of_nil. }
  assert (st_heap s2 !! lr = Some o1) as Ho2.
  { rewrite (ext_frame _ _ _ _ _ He2 lr); [done|left|by intros ?%elem_of_nil]. }
  assert (¬ referenced s2 lr) as Hfree2
    by (apply (ext_guarded _ _ _ _ _ He2); left).
  pose proof (ext_length _ _ _ _ _ He1) as Hlen1.
  pose proof (ext_length _ _ _ _ _ He2) as Hlen2.
  assert (lr < length (st_heap s1)) as Hlr1 by (by eapply lookup_lt_Some).
  apply bind_inv_Ok in H as (ra & s3 & H3 & H).
  pose proof (isArray_inv _ _ _ _ H3) as ->.
  apply bind_inv_Ok in H as (ma & s3 & H4 & H).
  pose proof (isArray_inv _ _ _ _ H4) as ->.
  destruct (ra && ma) eqn:Hboth.
  - apply andb_true_iff in Hboth as [-> ->].
    apply isArray_true in H3 as (lr' & e1 & p1 & [= <-] & Hr1).
    rewrite Ho2 in Hr1. injection Hr1 as Hr1.
    apply isArray_true in H4 as (lm & em & pm & -> & Hm).
    destruct (Hown lm eq_refl) as (Hlm & Hmfree & om & Hom & Hcm).
    rewrite Hm in Hom. injection Hom as <-.
    apply bind_inv_Ok in H as (u3 & s3 & H5 & H).
    apply splice_inv in H5 as (l'' & [= <-] & ->).
    rewrite (heap_update_Some _ _ _ _ Ho2) in H.
    set (o2 := obj_splice1 (splice_start key) o1) in *.
    set (s3 := mkState (<[lr := o2]> (st_heap s2)) (st_manager s2)
                       (st_trace s2)) in *.
    assert (VRef lr ∉ vals o2) as Hself2.
    { intros Hin%vals_obj_splice1. done. }
    assert (ext h0 U [] sb s3) as Hes3.
    { eapply ext_own_write; eauto; [lia|].
      intros lv Hin%vals_obj_splice1. by left. }
    apply concat_inv in H
      as (la & lb & ea & pa & eb & pb & [= <-] & [= <-] & Ha & Hb & -> & ->).
    assert (st_heap s3 !! lr = Some o2) as Ho3.
    { apply list_lookup_insert_eq. by eapply lookup_lt_Some. }
    rewrite Ho3 in Ha. injection Ha as Ha.
    assert (lm ≠ lr) as Hne by lia.
    cbn in Hb. rewrite list_lookup_insert_ne in Hb by done.
    rewrite Hm in Hb. injection Hb as <- <-.
    pose proof (ext_inv _ _ _ _ _ Hes3) as HI3.
    pose proof (ext_guarded _ _ _ _ _ Hes3) as HU3.
    assert (st_heap s3 !! lm = Some (JArr em pm)) as Hm3.
    { cbn. by rewrite list_lookup_insert_ne. }
    assert (∀ lv, VRef lv ∈ vals (JArr (ea ++ em) []) →
              VRef lv ∈ vals o2 ∨ VRef lv ∈ vals (JArr em pm)) as Hsplit.
    { intros lv. rewrite Ha. simpl.
      rewrite app_nil_r, omap_id_elem, !elem_of_app, !omap_id_elem. tauto. }
    destruct (ext_alloc h0 U [] s3 (JArr (ea ++ em) []) HI3 HU3)
      as [He4 Hfree4].
    { intros lv Hv. destruct (Hsplit lv Hv).
      - by eapply (held_ok h0 U s3 lr).
      - by eapply (held_ok h0 U s3 lm). }
    split; [by eapply ext_trans|].
    exists (length (st_heap s3)), (JArr (ea ++ em) []).
    split_and!; try done.
    + cbn. rewrite length_insert. lia.
    + by apply list_lookup_middle.
    + intros lv. simpl.
      rewrite app_nil_r, omap_id_elem, elem_of_app. intros [Hin|Hin].
      * destruct o as [ps|es ps]; [done|]. apply Hc. simpl.
        rewrite elem_of_app, omap_id_elem. left.
        eapply (splice_after_set key val es ps ea pa); [|done].
        by rewrite <- Ha.
      * apply Hcm. simpl. rewrite elem_of_app, omap_id_elem. by left.
  - apply bind_inv_Ok in H as (u3 & s3 & H5 & H). injection H as <- <-.
    apply assign_inv in H5 as (l'' & [= <-] & ->).
    rewrite (heap_update_Some _ _ _ _ Ho2).
    set (o3 := obj_set key merged o1).
    assert (∀ lm, merged = VRef lm →
              B ≤ lm ∧ lm < length (st_heap s2) ∧ (lm ∉ U) ∧ lm ≠ lr
              ∧ ∀ ov, st_heap s2 !! lm = Some ov → clean h0 ov) as Hmerged.
    { intros lm Hlm. destruct (Hown lm Hlm) as (Hl & _ & om & Hom & Hcm).
      split; [lia|]. split; [lia|]. split.
      - intros Hu. destruct (HU1 _ Hu). lia.
      - split; [lia|]. intros ov Hov. rewrite Hom in Hov.
        by injection Hov as <-. }
    assert (clean h0 o3) as Hc3.
    { intros lv [E|Hin]%vals_set_set; [|by apply Hc].
      left. by destruct (Hmerged lv (eq_sym E)). }
    split.
    + eapply ext_own_write; eauto; [lia|].
      intros lv [E|Hin]%vals_obj_set; [|by left]. right.
      destruct (Hmerged lv (eq_sym E)) as (? & ? & ? & ? & ?). auto.
    + exists lr, o3. split_and!; try done.
      * cbn. apply list_lookup_insert_eq. by eapply lookup_lt_Some.
      * intros [?|[Hin _]]%(referenced_update s2 lr o1 o3 lr Ho2); [done|].
        apply vals_obj_set in Hin as [E|Hin]; [|done].
        by destruct (Hmerged lr (eq_sym E)) as (_ & _ & _ & ? & _).
Qed.

Lemma mergeRefs_loop_ext U file jsonPath sb entries :
  Inv h0 sb → guarded U sb →
  (∀ k v, (k, v) ∈ entries → entry_ok h0 U sb k v) →
  ∀ ret s r s',
    ext h0 U [] sb s → own_ret h0 sb s ret →
    mergeRefs_loop mRefs hRef hInc hDisc file jsonPath entries ret s
      = Ok r s' →
    ext h0 U [] sb s' ∧ own_ret h0 sb s' r.
Proof.
  intros HIb HUb. induction entries as [|[key val] entries IH];
    intros Hentries ret s r s' Hes Hown; simpl.
  { intros [= <- <-]. done. }
  intros (ret' & s1 & H1 & H)%bind_inv_Ok.
  destruct (mergeRefs_entry_ext U file jsonPath sb ret key val s ret' s1)
    as [Hes1 Hown1]; eauto.
  { apply Hentries. left. }
  eapply IH; eauto. intros k v Hin. apply Hentries. by right.
Qed.

(** Lines 47-72. *)
Lemma mergeRefs_body_ext :
  mergeRefs_spec h0 (mergeRefs_body mRefs hRef hInc hDisc).
Proof.
  intros U obj file jsonPath s r s' HI HU Hobj. unfold mergeRefs_body.
  destruct (negb (isObject obj)) eqn:Hio.
  { intros [= <- <-]. split; [by apply ext_refl|].
    intros lv ->. done. }
  destruct obj as [| | | | |lo]; try done.
  intros (isArr & s0 & H0 & H)%bind_inv_Ok.
  apply isArray_inv in H0 as ->.
  apply bind_inv_Ok in H as (ret & s1 & H1 & H).
  pose proof (new_obj_eq_inv _ _ _ _ H1) as Hheap.
  apply (new_obj_ext h0 U [] s _ _ _ HI HU) in H1
    as (He1 & Hown1 & -> & Hnew);
    [|intros l; destruct isArr; by intros ?%elem_of_nil].
  apply bind_inv_Ok in H as (entries & s2 & H2 & H).
  apply entries_of_inv in H2 as [-> Hentries].
  destruct (Hobj lo eq_refl) as [Hlo Hclean].
  assert (∀ k v, (k, v) ∈ entries → entry_ok h0 U s k v) as Hok.
  { intros k v Hin lv ->.
    destruct (Hentries k lv Hin) as (l & o & [= <-] & Hl & Hin').
    assert (st_heap s !! lo = Some o) as Hlo'.
    { rewrite Hheap in Hl. by rewrite lookup_app_l in Hl. }
    pose proof (entries_vals _ _ _ Hin') as Hv.
    destruct (held_ok h0 U s lo o lv HI HU Hlo' Hv) as (Hlt & HnU & Hcl).
    split; [done|]. split; [done|]. split; [done|]. intros ->.
    destruct (decide (length h0 ≤ lo)) as [Hb|Hb].
    { by apply (Hclean Hb o Hlo'). }
    destruct (Inv_old_lookup h0 s lo HI) as [E|[_ Hc]]; [lia| |].
    - right. rewrite E in Hlo'. exists lo, o, lv.
      split; [done|]. split; [done|]. apply reach_here.
    - by apply (Hc o Hlo'). }
  assert (own_ret h0 s s1 (VRef (length (st_heap s)))) as Hown.
  { destruct (Hown1 _ eq_refl) as (Hl & Hf & o & Ho & Hc).
    exists (length (st_heap s)), o. split_and!; done. }
  destruct (mergeRefs_loop_ext U file jsonPath s entries HI HU Hok
              _ _ _ _ He1 Hown H)
    as [He (lr & o & -> & Hlr & Ho & Hc & Hfree)].
  split; [done|]. intros lv [= <-]. split.
  - split; [done|]. by eapply lookup_lt_Some.
  - split; [done|]. eauto.
Qed.

End Entry.

Lemma handleRef_body_rejects mRefs hInc :
  parses_no_object W → rejects_objects (handleRef_body W mRefs hInc).
Proof.
  intros Hp ret key l file jsonPath s a s'. unfold handleRef_body.
  rewrite bind_Throw with (e := TypeError); [done|].
  unfold parse. by rewrite Hp.
Qed.

Lemma handleInclude_body_rejects mRefs hInc fuel :
  parses_no_object W → rejects_objects (handleInclude_body W mRefs hInc fuel).
Proof.
  intros Hp ret key l file jsonPath s a s'. unfold handleInclude_body.
  rewrite bind_Throw with (e := TypeError); [done|].
  unfold parse. by rewrite Hp.
Qed.

(** The four methods, at any depth. *)
Lemma methods_ext n :
  parses_no_object W → slices_held W →
  mergeRefs_spec h0 (mergeRefs W n)
  ∧ handleRef_spec h0 (handleRef W n)
  ∧ handleInclude_spec h0 (handleInclude W n)
  ∧ handleDiscriminator_spec h0 (handleDiscriminator W n)
  ∧ rejects_objects (handleRef W n)
  ∧ rejects_objects (handleInclude W n).
Proof.
  intros Hp Hs. induction n as [|n (IHm & IHr & IHi & IHd & IHrr & IHir)].
  { split_and!; repeat intro; done. }
  split_and!; cbn [mergeRefs handleRef handleInclude handleDiscriminator].
  - by apply mergeRefs_body_ext.
  - by apply handleRef_body_ext.
  - by apply handleInclude_body_ext.
  - by apply handleDiscriminator_body_ext.
  - by apply handleRef_body_rejects.
  - by apply handleInclude_body_rejects.
Qed.

End FrameWalk.

(** ** The frame of [merge] *)

(** Where no name [discriminator] holds an object, the region is empty. *)
Lemma no_discriminator_object_region h l :
  no_discriminator_object h = true → ¬ region h l.
Proof.
  unfold no_discriminator_object. rewrite forallb_forall.
  intros Hall (l0 & o & lv & Hl & Hin & _).
  apply list_elem_of_lookup_2, list_elem_of_In, Hall in Hl.
  rewrite forallb_forall in Hl.
  apply list_elem_of_In, Hl in Hin. by simpl in Hin.
Qed.

Lemma no_discriminator_region h l :
  no_discriminator h = true → ¬ region h l.
Proof.
  unfold no_discriminator. rewrite forallb_forall.
  intros Hall (l0 & o & lv & Hl & Hin & _).
  apply list_elem_of_lookup_2, list_elem_of_In, Hall in Hl.
  rewrite forallb_forall in Hl.
  apply list_elem_of_In, Hl in Hin. by simpl in Hin.
Qed.

(** A list that passes the test has the region. *)
Lemma has_region_spec D h l : has_region D h = true → region h l → l ∈ D.
Proof.
  unfold has_region. rewrite andb_true_iff, !forallb_forall.
  intros [Hd Hc] (l0 & o & lv & Hl & Hin & Hr).
  assert (lv ∈ D) as Hlv.
  { apply list_elem_of_lookup_2, list_elem_of_In, Hd in Hl.
    rewrite forallb_forall in Hl.
    apply list_elem_of_In, Hl in Hin. simpl in Hin.
    by apply bool_decide_eq_true_1 in Hin. }
  clear Hl Hin. induction Hr as [l|l o' l1 l2 Ho Hv _ IH]; [done|].
  apply IH. apply list_elem_of_In, Hc in Hlv. rewrite Ho in Hlv.
  rewrite forallb_forall in Hlv.
  apply list_elem_of_In, Hlv in Hv. by apply bool_decide_eq_true_1 in Hv.
Qed.

Lemma closed_lookup h l0 o l :
  closed h = true → h !! l0 = Some o → VRef l ∈ vals o → l < length h.
Proof.
  unfold closed. rewrite forallb_forall. intros Hall Hl Hin.
  apply list_elem_of_lookup_2, list_elem_of_In, Hall in Hl.
  rewrite forallb_forall in Hl.
  apply list_elem_of_In, Hl in Hin. by apply Nat.ltb_lt in Hin.
Qed.

Lemma reach_last h l l1 o l2 :
  reach h l l1 → h !! l1 = Some o → VRef l2 ∈ vals o → reach h l l2.
Proof.
  induction 1 as [l|l o' l' l1 Hl Hv _ IH]; intros Ho Hin.
  - eapply reach_step; [done|done|apply reach_here].
  - eapply reach_step; [done|done|]. by apply IH.
Qed.

(** What a container of the region holds is of the region. *)
Lemma region_held h0 l o lv :
  region h0 l → h0 !! l = Some o → VRef lv ∈ vals o → region h0 lv.
Proof.
  intros (l0 & o0 & ld & H0 & Hd & Hr) Ho Hv. exists l0, o0, ld.
  split; [done|]. split; [done|]. by eapply reach_last.
Qed.

Section FrameMerge.
Context (W : World) (h0 : heap).

Local Abbreviation B := (length h0).

(** The state a merge starts in keeps the invariant. *)
Lemma Inv_start s :
  closed h0 = true → st_heap s = h0 → m_components (st_manager s) = [] →
  Inv h0 s.
Proof.
  intros Hc Hh Hm. split.
  - by rewrite Hh.
  - rewrite Hh. auto.
  - rewrite Hh. intros l0 o l. by apply closed_lookup.
  - rewrite Hm. by intros c l ?%elem_of_nil.
  - rewrite Hh. intros l o [Hl|Hl] _ Ho.
    + apply lookup_lt_Some in Ho. lia.
    + intros lv Hv. right. by eapply region_held.
Qed.

(** A new registry. *)
Lemma new_manager_ext U r s :
  Inv h0 s → guarded U s →
  ext h0 U [] s (with_manager (ComponentManager_new r) s).
Proof.
  intros HI HU. apply ext_registry; [done..|].
  by intros c lv ?%elem_of_nil.
Qed.

Lemma made_later U ex s s' v :
  ext h0 U ex s s' → made h0 s v → made h0 s' v.
Proof.
  intros He Hv lv ->. destruct (Hv lv eq_refl) as [[Hb Hlt] Hc].
  pose proof (ext_length _ _ _ _ _ He). split; [frame_lia|].
  intros ov Hov. destruct (lookup_lt_is_Some_2 (st_heap s) lv Hlt) as [o Ho].
  exact (ext_clean _ _ _ _ _ He lv o ov Ho Hov (Hc o Ho)).
Qed.

Lemma guarded_nil s : guarded [] s.
Proof. by intros l ?%elem_of_nil. Qed.

Lemma owned_made s s' v : owned h0 s s' v → B ≤ length (st_heap s) →
  made h0 s' v.
Proof.
  intros Ho Hb lv ->. destruct (Ho lv eq_refl) as ([? ?] & _ & o & Hl & Hc).
  split; [frame_lia|]. intros ov Hov. rewrite Hl in Hov. by injection Hov as <-.
Qed.

Lemma assign_made s v k x u s' :
  Inv h0 s → made h0 s v → made h0 s x →
  assign v k x s = Ok u s' → ext h0 [] [] s s'.
Proof.
  intros HI Hv Hx H. destruct (assign_inv _ _ _ _ _ _ H) as (l & -> & _).
  destruct (Hv l eq_refl) as [[Hb Hlt] Hc].
  destruct (lookup_lt_is_Some_2 (st_heap s) l Hlt) as [o Ho].
  apply (assign_ext h0 [] [] s l o k x u s' HI (guarded_nil s) Hb Ho
           (Hc o Ho)); [done| |done].
  intros lv ->. destruct (Hx lv eq_refl) as [Hr Hcl].
  split; [done|]. split; [by intros ?%elem_of_nil|]. by intros _.
Qed.

(** What a clean object that may be written to holds is such an object. *)
Lemma get_prop_made s v k x s' :
  Inv h0 s → made h0 s v → get_prop v k s = Ok x s' →
  s' = s ∧ made h0 s x.
Proof.
  intros HI Hv H. apply get_prop_inv in H as [-> Hx]. split; [done|].
  intros lx ->. destruct (Hx lx eq_refl) as (l & o & -> & Hl & Hin).
  destruct (Hv l eq_refl) as [[Hb Hlt] Hc].
  destruct (held_ok h0 [] s l o lx HI (guarded_nil s) Hl Hin)
    as (Hlx & _ & Hcx).
  pose proof (Hc o Hl lx Hin). split; [frame_lia|]. by apply Hcx.
Qed.

Lemma section_entries_ext section cs :
  ∀ s u s',
    Inv h0 s → made h0 s section →
    (∀ c, c ∈ cs → made h0 s (c_content c)) →
    section_entries section cs s = Ok u s' →
    ext h0 [] [] s s'.
Proof.
  induction cs as [|c cs IH]; intros s u s' HI Hsec Hcs; simpl.
  { intros [= _ <-]. apply ext_refl; [done|apply guarded_nil]. }
  intros (sub & s1 & H1 & H)%bind_inv_Ok.
  apply (get_prop_made _ _ _ _ _ HI Hsec) in H1 as [-> Hsub].
  apply bind_inv_Ok in H as (sub' & s1 & H1 & H).
  assert (ext h0 [] [] s s1 ∧ made h0 s1 sub' ∧ isObject sub' = true)
    as (He1 & Hsub' & Hio).
  { destruct (isObject sub) eqn:Hio.
    - injection H1 as <- <-.
      split; [apply ext_refl; [done|apply guarded_nil]|done].
    - apply bind_inv_Ok in H1 as (sn & s2 & H2 & H1).
      apply (new_obj_ext h0 [] [] s _ _ _ HI (guarded_nil s)) in H2
        as (He2 & Hown & -> & Hnew); [|by intros l ?%elem_of_nil].
      apply bind_inv_Ok in H1 as ([] & s3 & H3 & [= <- <-]).
      pose proof (owned_made _ _ _ Hown (Inv_bound h0 s HI)) as Hmade.
      pose proof (assign_made s2 _ _ _ _ _ (ext_inv _ _ _ _ _ He2)
                    (made_later _ _ _ _ _ He2 Hsec) Hmade H3) as He3.
      split; [by eapply ext_trans|]. split; [|done].
      by eapply made_later. }
  apply bind_inv_Ok in H as ([] & s2 & H2 & H).
  assert (ext h0 [] [] s1 s2) as He2.
  { eapply assign_made; [exact (ext_inv _ _ _ _ _ He1)|done| |done].
    eapply made_later; [done|]. apply Hcs. left. }
  assert (ext h0 [] [] s s2) as He by by eapply ext_trans.
  eapply ext_trans; [done|].
  eapply IH; [exact (ext_inv _ _ _ _ _ He)| |  |done].
  - by eapply made_later.
  - intros c' Hc'. eapply made_later; [done|]. apply Hcs. by right.
Qed.

Lemma getComponentsSection_ext s v s' :
  Inv h0 s → getComponentsSection s = Ok v s' → ext h0 [] [] s s'.
Proof.
  intros HI. unfold getComponentsSection.
  intros (m & s0 & H0 & H)%bind_inv_Ok.
  rewrite get_manager_Ok in H0. injection H0 as <- <-.
  apply bind_inv_Ok in H as (section & s1 & H1 & H).
  apply (new_obj_ext h0 [] [] s _ _ _ HI (guarded_nil s)) in H1
    as (He1 & Hown & -> & Hnew); [|by intros l ?%elem_of_nil].
  apply bind_inv_Ok in H as ([] & s2 & H2 & [= _ <-]).
  eapply ext_trans; [done|].
  eapply section_entries_ext; [exact (ext_inv _ _ _ _ _ He1)| | |done].
  - by eapply owned_made, Inv_bound.
  - intros c Hc. eapply made_later; [done|]. intros lv Hlv.
    pose proof (inv_registry _ _ HI c lv Hc Hlv) as Hr.
    split; [frame_lia|].
    intros ov Hov. apply (inv_clean _ _ HI lv ov); [left; lia| |done].
    right. eauto.
Qed.

(** [merge] keeps the invariant of the heap it started from. *)
Lemma merge_Inv fuel doc inputFile s r s' :
  parses_no_object W → slices_held W →
  closed h0 = true →
  st_heap s = h0 → (∀ l, doc = VRef l → l < B) →
  merge W fuel doc inputFile s = Ok r s' →
  Inv h0 s'.
Proof.
  intros Hp Hs Hc Hh Hdoc. unfold merge.
  destruct (methods_ext W h0 fuel Hp Hs) as (Hmerge & _).
  intros ([] & s1 & H1 & H)%bind_inv_Ok. injection H1 as <-.
  assert (Inv h0 (with_manager (ComponentManager_new None) s)) as HI1
    by by apply Inv_start.
  apply bind_inv_Ok in H as (r1 & s2 & H2 & H).
  apply (Hmerge [] _ _ _ _ _ _ HI1 (guarded_nil _)) in H2 as [He2 _];
    [|intros lo Hlo; cbn [with_manager st_heap]; rewrite Hh;
      split; [by apply Hdoc|pose proof (Hdoc lo Hlo); lia]].
  apply bind_inv_Ok in H as (m & s0 & H0 & H).
  rewrite get_manager_Ok in H0. injection H0 as <- <-.
  apply bind_inv_Ok in H as ([] & s3 & H3 & H). injection H3 as <-.
  pose proof (ext_inv _ _ _ _ _ He2) as HI2.
  pose proof (new_manager_ext [] (Some (m_components (st_manager s2))) s2
                HI2 (guarded_nil _)) as He3.
  pose proof (ext_inv _ _ _ _ _ He3) as HI3.
  apply bind_inv_Ok in H as (doc' & s4 & H4 & H).
  apply (Hmerge [] _ _ _ _ _ _ HI3 (guarded_nil _)) in H4 as [He4 Hown];
    [|intros lo Hlo; pose proof (Hdoc lo Hlo);
      pose proof (Inv_bound h0 _ HI3); split; lia].
  pose proof (ext_inv _ _ _ _ _ He4) as HI4.
  pose proof (owned_made _ _ _ Hown (Inv_bound h0 _ HI3)) as Hdoc'.
  apply bind_inv_Ok in H as (components & s5 & H5 & H).
  apply (get_prop_made _ _ _ _ _ HI4 Hdoc') in H5 as [-> Hcomp].
  apply bind_inv_Ok in H as (section & s5 & H5 & H).
  apply (getComponentsSection_ext _ _ _ HI4) in H5 as He5.
  pose proof (ext_inv _ _ _ _ _ He5) as HI5.
  apply bind_inv_Ok in H as (merged & s6 & H6 & H).
  apply (lodash_merge_ext h0 fuel [] [] _ _ _ _ _ HI5 (guarded_nil _)) in H6
    as [He6 Hmerged].
  2:{ intros l ->.
      destruct (made_later _ _ _ _ _ He5 Hcomp l eq_refl) as [[Hb Hlt] Hcl].
      destruct (lookup_lt_is_Some_2 _ _ Hlt) as [o Ho].
      split; [done|]. split; [eauto|done]. }
  pose proof (ext_inv _ _ _ _ _ He6) as HI6.
  apply bind_inv_Ok in H as ([] & s7 & H7 & [= _ <-]).
  eapply ext_inv, (assign_made s6); [done| | |done].
  - eapply made_later; [done|]. by eapply made_later.
  - destruct Hmerged as [->|Hm].
    + eapply made_later; [done|]. by eapply made_later.
    + eapply owned_made; [done|]. by apply Inv_bound.
Qed.

End FrameMerge.

(** C9, amended.  [merge] changes no object of the heap it was given
    but those that the value of a name [discriminator] leads to (what a
    discriminator holds is kept by reference and written to): for a
    document that lies in a heap without dangling reference, a parser
    that accepts no object and a [sliceObject] that answers its argument
    or something held in the heap, every object of the heap [merge] was
    called with that is not of the region is, in the heap it returns
    with, as it was; and where no name [discriminator] holds an object,
    the heap [merge] returns with starts with the heap it was called
    with. *)
Theorem merge_leaves_input_unchanged (W : World) fuel doc inputFile
    s r s' :
  parses_no_object W → slices_held W →
  closed (st_heap s) = true →
  (∀ l, doc = VRef l → l < length (st_heap s)) →
  merge W fuel doc inputFile s = Ok r s' →
  (∀ l, l < length (st_heap s) → ¬ region (st_heap s) l →
        st_heap s' !! l = st_heap s !! l)
  ∧ (no_discriminator_object (st_heap s) = true →
     take (length (st_heap s)) (st_heap s') = st_heap s).
Proof.
  intros Hp Hs Hc Hdoc H.
  pose proof (merge_Inv W (st_heap s) fuel doc inputFile s r s'
                Hp Hs Hc eq_refl Hdoc H) as [Hlen Hold _ _ _].
  assert (∀ l, l < length (st_heap s) → ¬ region (st_heap s) l →
            st_heap s' !! l = st_heap s !! l) as Hsame.
  { intros l Hl Hn. by destruct (Hold l Hl) as [?|[? _]]. }
  split; [done|]. intros Hplain. apply list_eq. intros l.
  destruct (decide (l < length (st_heap s))) as [Hl|Hl].
  - rewrite lookup_take_lt by done. apply Hsame; [done|].
    by apply no_discriminator_object_region.
  - rewrite lookup_take_ge by lia. symmetry. apply lookup_ge_None. lia.
Qed.

Section FrameRuns.
Import Fixture Examples.

Lemma value_at_held h segs :
  ∀ v l, value_at h segs v = VRef l →
         v = VRef l ∨ ∃ l0 o, h !! l0 = Some o ∧ VRef l ∈ vals o.
Proof.
  induction segs as [|k segs IH]; intros v l; simpl; [by left|].
  destruct v as [| | | | |l0]; try done.
  destruct (h !! l0) as [o|] eqn:Ho; [|done].
  intros [H|H]%IH; [|by right]. right. exists l0, o. split; [done|].
  eapply obj_get_vals. exact H.
Qed.

Lemma world_parses_no_object fs gs : parses_no_object (world fs gs).
Proof. by intros l. Qed.

Lemma world_slices_held fs gs : slices_held (world fs gs).
Proof. intros h v hash l. apply value_at_held. Qed.

Lemma merge_leaves_input_witness :
  (∃ v s',
     merged 8 main_yaml = Ok v s'
     ∧ ∀ l, l < length (st_heap (enter main_yaml).2) → l ∉ [3; 4] →
            st_heap s' !! l = st_heap (enter main_yaml).2 !! l)
  ∧ ∃ v s',
      merged 8 Samples.doc_tagged = Ok v s'
      ∧ take (length (st_heap (enter Samples.doc_tagged).2)) (st_heap s')
        = st_heap (enter Samples.doc_tagged).2.
Proof.
  split.
  - eexists _, _. split; [vm_compute; reflexivity|].
    intros l Hl Hn.
    eapply (merge_leaves_input_unchanged W0 8 (enter main_yaml).1
              "main.yaml" (enter main_yaml).2 _ _
              (world_parses_no_object _ _) (world_slices_held _ _));
      [vm_compute; reflexivity|intros l0 [= <-]; vm_compute; lia
      |vm_compute; reflexivity|done|].
    intros Hr. apply Hn. revert Hr. apply has_region_spec.
    vm_compute. reflexivity.
  - eexists _, _. split; [vm_compute; reflexivity|].
    eapply (merge_leaves_input_unchanged W0 8
              (enter Samples.doc_tagged).1
              "main.yaml" (enter Samples.doc_tagged).2 _ _
              (world_parses_no_object _ _) (world_slices_held _ _));
      [vm_compute; reflexivity|intros l [= <-]; vm_compute; lia
      |vm_compute; reflexivity|vm_compute; reflexivity].
Defined.

End FrameRuns.

(** * Further properties of the engine *)

(** ** [merge] at its ends *)

Section MergeEnds.
Context (W : World).

Lemma getComponentsSection_empty s :
  m_components (st_manager s) = [] →
  getComponentsSection s
  = Ok (VRef (length (st_heap s)))
       (mkState (st_heap s ++ [JObj []]) (st_manager s) (st_trace s)).
Proof.
  intros Hm. unfold getComponentsSection.
  rewrite (bind_Ok _ _ _ _ _ (get_manager_Ok s)).
  rewrite (bind_Ok _ _ _ _ _ (new_obj_eq _ s)). rewrite Hm. reflexivity.
Qed.

(** [_.merge(undefined, {})] is a new empty object. *)
Lemma lodash_merge_undefined_empty n l s :
  st_heap s !! l = Some (JObj []) →
  lodash_merge (S n) VUndef (VRef l) s
  = Ok (VRef (length (st_heap s)))
       (mkState (st_heap s ++ [JObj []]) (st_manager s) (st_trace s)).
Proof.
  intros Hl. unfold lodash_merge.
  assert (to_object VUndef s
          = Ok (length (st_heap s))
               (mkState (st_heap s ++ [JObj []]) (st_manager s) (st_trace s)))
    as Ht by reflexivity.
  rewrite (bind_Ok _ _ _ _ _ Ht). cbn [truthy]. pose proof (lookup_lt_Some _ _ _ Hl) as Hlt.
  rewrite bool_decide_eq_false_2 by (intros [= <-]; lia).
  unfold deref, mbind, M_bind, get_heap. cbn [st_heap].
  rewrite lookup_app_l, Hl by done. reflexivity.
Qed.

(** X6.  A document that is not an object: the two passes hand it back, and
    the write of [components] fails, a read of it on [null] or
    [undefined] before that. *)
Theorem merge_rejects_scalar_document n doc inputFile s :
  isObject doc = false →
  merge W (S n) doc inputFile s = Throw TypeError.
Proof.
  intros Hdoc. unfold merge.
  destruct doc as [| |b|z|str|l]; try done.
  all: cbn [mergeRefs mergeRefs_body isObject negb].
  all: unfold put_manager at 1 2; unfold get_manager at 1.
  all: unfold mbind at 1 2 3 4 5 6, M_bind, mret at 1 2, M_ret, get_prop.
  all: cbn [mret M_ret st_heap st_manager st_trace].
  all: erewrite bind_Ok by (by apply getComponentsSection_empty).
  all: cbn [st_heap st_manager st_trace].
  all: erewrite bind_Ok
         by (apply lodash_merge_undefined_empty; cbn [st_heap];
             apply list_lookup_middle, eq_refl).
  all: reflexivity.
Qed.

(** The heap never shrinks. *)
Lemma heap_update_length l f (h : heap) :
  length (heap_update l f h) = length h.
Proof.
  unfold heap_update. destruct (h !! l); [|done]. by rewrite length_insert.
Qed.

Lemma assign_length v k x s u s' :
  assign v k x s = Ok u s' → length (st_heap s') = length (st_heap s).
Proof.
  intros (l & -> & ->)%assign_inv. cbn [st_heap]. apply heap_update_length.
Qed.

Lemma assignMergeValue_length dest k x s u s' :
  assignMergeValue dest k x s = Ok u s' →
  length (st_heap s') = length (st_heap s).
Proof.
  unfold assignMergeValue. intros (o & s1 & H1 & H)%bind_inv_Ok.
  apply deref_inv in H1 as [-> _]. destruct (_ && _).
  - by injection H as _ <-.
  - by apply (assign_length (VRef dest)) in H.
Qed.

Lemma baseMerge_length n : ∀ dest src s u s',
  baseMerge n dest src s = Ok u s' →
  length (st_heap s) ≤ length (st_heap s').
Proof.
  induction n as [|n IH]; intros dest src s u s'; [done|].
  cbn [baseMerge]. generalize (merge_entries src). intros kvs.
  revert s. induction kvs as [|[k v] kvs IHk]; intros s.
  { by intros [= _ <-]. }
  intros (u1 & s1 & H1 & H)%bind_inv_Ok.
  apply IHk in H. etrans; [|exact H]. clear H IHk.
  destruct v as [| | | | |l];
    try (by apply assignMergeValue_length in H1 as ->).
  apply bind_inv_Ok in H1 as (srcValue & s2 & H2 & H1).
  apply deref_inv in H2 as [-> _].
  apply bind_inv_Ok in H1 as (o' & s2 & H2 & H1).
  apply deref_inv in H2 as [-> _].
  apply bind_inv_Ok in H1 as (isArr & s2 & H2 & H1).
  apply isArray_inv in H2 as ->.
  apply bind_inv_Ok in H1 as (newValue & s2 & H2 & H1).
  assert (length (st_heap s) ≤ length (st_heap s2)) as Hle.
  { destruct (obj_is_array srcValue);
      [destruct isArr|destruct (isObject (obj_get k o'))];
      first [by injection H2 as _ <-
            |apply new_obj_eq_inv in H2 as ->; rewrite length_app; lia]. }
  destruct newValue as [| | | | |l']; try done.
  apply bind_inv_Ok in H1 as (u2 & s3 & H3 & H1).
  apply assignMergeValue_length in H1 as ->.
  destruct (bool_decide (l' = l)).
  - by injection H3 as _ <-.
  - apply IH in H3. lia.
Qed.

Lemma lodash_merge_length fuel object source s r s' :
  lodash_merge fuel object source s = Ok r s' →
  (∃ dest, r = VRef dest) ∧ length (st_heap s) ≤ length (st_heap s').
Proof.
  unfold lodash_merge. intros (dest & s1 & H1 & H)%bind_inv_Ok.
  apply bind_inv_Ok in H as (u & s2 & H2 & [= <- <-]). split; [eauto|].
  assert (length (st_heap s) ≤ length (st_heap s1)) as Hle.
  { destruct object as [| | | |str|l]; cbn [to_object] in H1;
      try (apply bind_inv_Ok in H1 as (r & s0 & H0 & H1);
           apply new_obj_eq_inv in H0; destruct r; try done;
           injection H1 as _ <-; rewrite H0, length_app; lia).
    by injection H1 as _ <-. }
  etrans; [exact Hle|].
  destruct (truthy source); [|by injection H2 as _ <-].
  destruct (bool_decide _); [by injection H2 as _ <-|].
  destruct source as [| | | |str|l]; try by injection H2 as _ <-.
  - by eapply baseMerge_length.
  - apply bind_inv_Ok in H2 as (src & s0 & H0 & H2).
    apply deref_inv in H0 as [-> _]. by eapply baseMerge_length.
Qed.

Lemma section_entries_length section cs : ∀ s u s',
  section_entries section cs s = Ok u s' →
  length (st_heap s) ≤ length (st_heap s').
Proof.
  induction cs as [|c cs IH]; intros s u s'; simpl.
  { by intros [= _ <-]. }
  intros (sub & s1 & H1 & H)%bind_inv_Ok.
  apply get_prop_inv in H1 as [-> _].
  apply bind_inv_Ok in H as (sub' & s1 & H1 & H).
  apply bind_inv_Ok in H as ([] & s2 & H2 & H).
  apply assign_length in H2. apply IH in H.
  assert (length (st_heap s) ≤ length (st_heap s1)); [|lia].
  destruct (isObject sub); [by injection H1 as _ <-|].
  apply bind_inv_Ok in H1 as (sn & s3 & H3 & H1).
  apply new_obj_eq_inv in H3.
  apply bind_inv_Ok in H1 as ([] & s4 & H4 & [= _ <-]).
  apply assign_length in H4. rewrite H4, H3, length_app. lia.
Qed.

Lemma getComponentsSection_length s v s' :
  getComponentsSection s = Ok v s' →
  length (st_heap s) ≤ length (st_heap s').
Proof.
  unfold getComponentsSection. intros (m & s0 & H0 & H)%bind_inv_Ok.
  rewrite get_manager_Ok in H0. injection H0 as <- <-.
  apply bind_inv_Ok in H as (section & s1 & H1 & H).
  apply new_obj_eq_inv in H1.
  apply bind_inv_Ok in H as ([] & s2 & H2 & [= _ <-]).
  apply section_entries_length in H2. rewrite H1, length_app in H2. lia.
Qed.

Lemma obj_get_set k x o :
  index_of k = None → k ≠ "length"%string → obj_get k (obj_set k x o) = x.
Proof.
  intros Hk Hl. destruct o as [ps|es ps]; cbn [obj_get obj_set]; rewrite ?Hk.
  - by rewrite alist_get_set.
  - cbn [obj_get]. rewrite Hk. destruct (decide (k = "length")); [done|].
    by rewrite alist_get_set.
Qed.

(** X5.  What [merge] returns is an object, and [components] of it is an
    object: the document's own, or a new one when it had none, also when
    no component was hoisted. *)
Theorem merge_returns_components fuel doc inputFile s v s' :
  merge W fuel doc inputFile s = Ok v s' →
  ∃ l o lc,
    v = VRef l ∧ st_heap s' !! l = Some o
    ∧ obj_get "components" o = VRef lc.
Proof.
  unfold merge.
  intros ([] & s1 & _ & H)%bind_inv_Ok.
  apply bind_inv_Ok in H as (r1 & s2 & _ & H).
  apply bind_inv_Ok in H as (m & s3 & _ & H).
  apply bind_inv_Ok in H as ([] & s4 & _ & H).
  apply bind_inv_Ok in H as (doc' & s5 & _ & H).
  apply bind_inv_Ok in H as (components & s6 & H6 & H).
  apply bind_inv_Ok in H as (section & s7 & H7 & H).
  apply bind_inv_Ok in H as (merged & s8 & H8 & H).
  apply bind_inv_Ok in H as ([] & s9 & H9 & [= <- <-]).
  pose proof H9 as (l & -> & ->)%assign_inv.
  apply lodash_merge_length in H8 as [[lc ->] Hle8].
  apply getComponentsSection_length in H7.
  pose proof (get_prop_inv _ _ _ _ _ H6) as [-> _].
  unfold get_prop in H6. apply bind_inv_Ok in H6 as (o6 & s0 & H0 & _).
  apply deref_inv in H0 as [-> Ho6%lookup_lt_Some].
  destruct (lookup_lt_is_Some_2 (st_heap s8) l) as [o Ho]; [lia|].
  exists l, (obj_set "components" (VRef lc) o), lc. split; [done|].
  split; [|by apply obj_get_set].
  cbn [st_heap]. rewrite (heap_update_Some _ _ _ _ Ho).
  apply list_lookup_insert_eq. by eapply lookup_lt_Some.
Qed.

End MergeEnds.

(** ** What [merge] returns and the input *)

Section Fresh.
Context (W : World) (h0 : heap).

(** What [merge] returns may be written to and is clean. *)
Lemma merge_made fuel doc inputFile s r s' :
  parses_no_object W → slices_held W →
  closed h0 = true →
  st_heap s = h0 → (∀ l, doc = VRef l → l < length h0) →
  merge W fuel doc inputFile s = Ok r s' →
  Inv h0 s' ∧ made h0 s' r.
Proof.
  intros Hp Hs Hc Hh Hdoc. unfold merge.
  destruct (methods_ext W h0 fuel Hp Hs) as (Hmerge & _).
  intros ([] & s1 & H1 & H)%bind_inv_Ok. injection H1 as <-.
  assert (Inv h0 (with_manager (ComponentManager_new None) s)) as HI1
    by by apply Inv_start.
  apply bind_inv_Ok in H as (r1 & s2 & H2 & H).
  apply (Hmerge [] _ _ _ _ _ _ HI1 (guarded_nil _)) in H2 as [He2 _];
    [|intros lo Hlo; cbn [with_manager st_heap]; rewrite Hh;
      split; [by apply Hdoc|pose proof (Hdoc lo Hlo); lia]].
  apply bind_inv_Ok in H as (m & s0 & H0 & H).
  rewrite get_manager_Ok in H0. injection H0 as <- <-.
  apply bind_inv_Ok in H as ([] & s3 & H3 & H). injection H3 as <-.
  pose proof (ext_inv _ _ _ _ _ He2) as HI2.
  pose proof (new_manager_ext h0 [] (Some (m_components (st_manager s2))) s2
                HI2 (guarded_nil _)) as He3.
  pose proof (ext_inv _ _ _ _ _ He3) as HI3.
  apply bind_inv_Ok in H as (doc' & s4 & H4 & H).
  apply (Hmerge [] _ _ _ _ _ _ HI3 (guarded_nil _)) in H4 as [He4 Hown];
    [|intros lo Hlo; pose proof (Hdoc lo Hlo);
      pose proof (Inv_bound h0 _ HI3); split; lia].
  pose proof (ext_inv _ _ _ _ _ He4) as HI4.
  pose proof (owned_made h0 _ _ _ Hown (Inv_bound h0 _ HI3)) as Hdoc'.
  apply bind_inv_Ok in H as (components & s5 & H5 & H).
  apply (get_prop_made h0 _ _ _ _ _ HI4 Hdoc') in H5 as [-> Hcomp].
  apply bind_inv_Ok in H as (section & s5 & H5 & H).
  apply (getComponentsSection_ext h0 _ _ _ HI4) in H5 as He5.
  pose proof (ext_inv _ _ _ _ _ He5) as HI5.
  apply bind_inv_Ok in H as (merged & s6 & H6 & H).
  apply (lodash_merge_ext h0 fuel [] [] _ _ _ _ _ HI5 (guarded_nil _)) in H6
    as [He6 Hmerged].
  2:{ intros l ->.
      destruct (made_later h0 _ _ _ _ _ He5 Hcomp l eq_refl) as [[Hb Hlt] Hcl].
      destruct (lookup_lt_is_Some_2 _ _ Hlt) as [o Ho].
      split; [done|]. split; [eauto|done]. }
  pose proof (ext_inv _ _ _ _ _ He6) as HI6.
  apply bind_inv_Ok in H as ([] & s7 & H7 & [= <- <-]).
  assert (made h0 s6 doc') as Hdoc6.
  { eapply made_later; [done|]. by eapply made_later. }
  assert (ext h0 [] [] s6 s7) as He7.
  { eapply (assign_made h0 s6); [done|done| |done].
    destruct Hmerged as [->|Hm].
    - eapply made_later; [done|]. by eapply made_later.
    - eapply owned_made; [done|]. by apply Inv_bound. }
  split; [exact (ext_inv _ _ _ _ _ He7)|]. by eapply made_later.
Qed.

Lemma reach_made s l l' :
  Inv h0 s → made h0 s (VRef l) → reach (st_heap s) l l' →
  writable h0 l'.
Proof.
  intros HI Hl Hr. destruct (Hl l eq_refl) as [[Hb _] Hc]. clear Hl.
  induction Hr as [l|l o l1 l2 Ho Hin _ IH]; [done|].
  pose proof (Hc o Ho l1 Hin) as Hb1. apply IH; [done|].
  intros o1 Ho1. apply (inv_clean _ _ HI l1 o1 Hb1); [|done].
  left. eauto.
Qed.

End Fresh.

(** X4.  For an input none of whose objects has a property named
    [discriminator], what [merge] returns shares nothing with the input:
    every container the returned document leads to was made by the
    merge. *)
Theorem merge_result_is_fresh (W : World) fuel doc inputFile s r s' l l' :
  parses_no_object W → slices_held W →
  no_discriminator (st_heap s) = true → closed (st_heap s) = true →
  (∀ ld, doc = VRef ld → ld < length (st_heap s)) →
  merge W fuel doc inputFile s = Ok r s' →
  r = VRef l →
  reach (st_heap s') l l' →
  length (st_heap s) ≤ l'.
Proof.
  intros Hp Hs Hplain Hc Hdoc H -> Hr.
  destruct (merge_made W (st_heap s) fuel doc inputFile s _ s'
              Hp Hs Hc eq_refl Hdoc H) as [HI Hm].
  destruct (reach_made (st_heap s) s' l l' HI Hm Hr) as [?|Hreg]; [done|].
  by apply no_discriminator_region in Hreg.
Qed.

(** ** The key of an inclusion *)

Lemma slashed_app p :
  no_line_terminator p = true → slashed (String "/" (p +:+ "/")) = true.
Proof.
  intros Hp. simpl. rewrite last_char_app, no_line_terminator_app, Hp.
  by rewrite bool_decide_eq_true_2.
Qed.

Lemma after_fragment_first_slash frag g :
  (∀ i, String.get i frag ≠ Some "/"%char) →
  no_line_terminator frag = true →
  slashed g = true →
  after_fragment (frag +:+ g) = Some (Some g).
Proof.
  intros Hf Hl Hg. induction frag as [|a frag IH].
  - destruct g; simpl in *; by rewrite ?Hg.
  - change (String a frag +:+ g) with (String a (frag +:+ g)).
    cbn [after_fragment].
    assert (slashed (String a (frag +:+ g)) = false) as ->.
    { pose proof (Hf 0) as H0. simpl in H0.
      unfold slashed. destruct a as [[] [] [] [] [] [] [] []]; try done. }
    simpl in Hl. apply andb_true_iff in Hl as [Ha Hl].
    apply negb_true_iff in Ha. rewrite Ha. apply IH; [|done].
    intros i. apply (Hf (S i)).
Qed.

(** X10.  A key with a fragment: the filter runs from the first slash after
    [#] to the slash that ends the key, so that [$include#/a/b/] has the
    filter [a/b] and an empty fragment. *)
Theorem getKeyPattern_after_fragment frag p :
  (∀ i, String.get i frag ≠ Some "/"%char) →
  no_line_terminator frag = true →
  no_line_terminator p = true →
  INCLUDE_PATTERN_match ("$include#" +:+ frag +:+ "/" +:+ p +:+ "/")
    = Some (Some ("/" +:+ p +:+ "/"))
  ∧ getKeyPattern ("$include#" +:+ frag +:+ "/" +:+ p +:+ "/") = Some p.
Proof.
  intros Hf Hl Hp.
  assert (INCLUDE_PATTERN_match ("$include#" +:+ frag +:+ "/" +:+ p +:+ "/")
          = Some (Some ("/" +:+ p +:+ "/"))) as Hm.
  { unfold INCLUDE_PATTERN_match.
    change ("$include#" +:+ frag +:+ "/" +:+ p +:+ "/")
      with ("$include" +:+ String "#" (frag +:+ String "/" (p +:+ "/"))).
    rewrite after_prefix_app. cbv beta iota.
    apply after_fragment_first_slash; [done..|]. by apply slashed_app. }
  split; [done|]. unfold getKeyPattern. rewrite Hm.
  change ("/" +:+ p +:+ "/") with (String "/" (p +:+ "/")).
  cbn [String.eqb Ascii.eqb Bool.eqb String.length].
  rewrite length_app_string. cbn [String.length].
  replace (S (String.length p + 1) - 2) with (String.length p) by lia.
  cbn [String.substring]. by rewrite substring_app_l.
Qed.

Lemma prefix_inv p s : String.prefix p s = true → ∃ r, s = p +:+ r.
Proof.
  revert s. induction p as [|a p IH]; intros s; [by exists s|].
  destruct s as [|b s]; [done|]. simpl.
  destruct (Ascii.ascii_dec a b) as [->|]; [|done].
  intros [r ->]%IH. by exists r.
Qed.

Lemma after_prefix_inv p s r : after_prefix p s = Some r → s = p +:+ r.
Proof.
  unfold after_prefix. destruct (String.prefix p s) eqn:E; [|done].
  apply prefix_inv in E as [r' ->].
  rewrite substring_skip, length_app_string.
  replace (String.length p + String.length r' - String.length p)
    with (String.length r') by lia.
  rewrite substring_all. by intros [= ->].
Qed.

Lemma last_char_inv s a : last_char s = Some a → ∃ x, s = x +:+ String a "".
Proof.
  induction s as [|b s IH]; [done|]. simpl.
  destruct s as [|c s].
  - intros [= ->]. by exists ""%string.
  - intros [x Hx]%IH. exists (String b x). simpl. by rewrite Hx.
Qed.

Lemma slashed_inv g :
  slashed g = true →
  ∃ x, g = String "/" (x +:+ "/") ∧ no_line_terminator x = true.
Proof.
  destruct g as [|a s]; [done|]. unfold slashed.
  destruct (Ascii.eqb_spec a "/") as [->|Hne];
    [|by destruct a as [[] [] [] [] [] [] [] []]].
  intros [Hlast Hl]%andb_true_iff.
  apply bool_decide_eq_true_1, last_char_inv in Hlast as [x ->].
  exists x. split; [done|].
  rewrite no_line_terminator_app in Hl. by apply andb_true_iff in Hl as [? _].
Qed.

Lemma after_fragment_inv t g :
  after_fragment t = Some (Some g) →
  ∃ frag, t = frag +:+ g ∧ slashed g = true.
Proof.
  induction t as [|a t IH]; cbn [after_fragment].
  - destruct (slashed "") eqn:E; [done|]. done.
  - destruct (slashed (String a t)) eqn:E.
    + intros [= <-]. by exists ""%string.
    + destruct (line_terminator a); [done|].
      intros (frag & -> & Hg)%IH. by exists (String a frag).
Qed.

(** X11.  Where a key has a filter, the key is [$include], then nothing or a
    fragment, then the filter between two slashes, the second of which
    ends the key. *)
Theorem getKeyPattern_sound key p :
  getKeyPattern key = Some p →
  ∃ pre,
    key = "$include" +:+ pre +:+ "/" +:+ p +:+ "/"
    ∧ no_line_terminator p = true
    ∧ (pre = ""%string ∨ ∃ frag, pre = String "#" frag).
Proof.
  unfold getKeyPattern, INCLUDE_PATTERN_match.
  destruct (after_prefix "$include" key) as [rest|] eqn:Hk; [|done].
  apply after_prefix_inv in Hk as ->.
  assert (∀ g, slashed g = true →
            (if String.eqb g "" then None
             else Some (String.substring 1 (String.length g - 2) g)) = Some p →
            g = String "/" (p +:+ "/") ∧ no_line_terminator p = true) as Hg.
  { intros g (x & -> & Hx)%slashed_inv.
    cbn [String.eqb Ascii.eqb Bool.eqb String.length].
    rewrite length_app_string. cbn [String.length].
    replace (S (String.length x + 1) - 2) with (String.length x) by lia.
    cbn [String.substring]. rewrite substring_app_l. by intros [= ->]. }
  destruct rest as [|a rest]; [done|].
  destruct (Ascii.eqb_spec a "#") as [->|Hne].
  - destruct (after_fragment rest) as [[g|]|] eqn:Hf; [|done..].
    apply after_fragment_inv in Hf as (frag & -> & Hs).
    intros [-> Hp]%(Hg _ Hs). exists (String "#" frag). split; [done|].
    split; [done|]. right. by exists frag.
  - assert ((if slashed (String a rest) then Some (Some (String a rest))
             else None)
            = match String a rest with
              | String "#"%char t => after_fragment t
              | EmptyString => Some None
              | _ => if slashed (String a rest)
                     then Some (Some (String a rest)) else None
              end) as <-
      by by destruct a as [[] [] [] [] [] [] [] []].
    destruct (slashed (String a rest)) eqn:Hs; [|done].
    intros [E Hp]%(Hg _ Hs). rewrite E. exists ""%string.
    split; [done|]. split; [done|]. by left.
Qed.

(** ** What an inclusion loads *)

Section Loading.
Context (W : World).

Lemma relative_target_Ok pFile x s :
  relative_target W pFile (VStr x) s
  = Ok (if isHttp pFile
        then Url_resolve W (Path_dirname W (hrefWoHash pFile) +:+ "/") x
        else Path_join W (Path_dirname W (hrefWoHash pFile)) x) s.
Proof.
  unfold relative_target. cbn [as_string].
  rewrite (bind_Ok _ _ _ _ _ (mret_Ok _ s)). by destruct (isHttp pFile).
Qed.

(** X8.  A relative target that, as a glob, matches at most one path: the
    file at the target path itself is what is loaded, whatever the path
    that matched; the empty object made for the matches is dropped. *)
Theorem single_match_reads_target
    hInc key target_ file jsonPath pRef pFile pTarget node v h' s :
  let target :=
    if isHttp pFile
    then Url_resolve W (Path_dirname W (hrefWoHash pFile) +:+ "/") target_
    else Path_join W (Path_dirname W (hrefWoHash pFile)) target_ in
  isHttp pRef = false →
  isLocal pRef = false →
  parseUrl W (VStr target) = Some pTarget →
  isHttp pTarget = false →
  length (Glob_sync W (hrefWoHash pTarget)) ≤ 1 →
  readYAML W (hrefWoHash pTarget) = Some node →
  alloc_node node (st_heap s ++ [JObj []]) = (v, h') →
  handleInclude_content W hInc key (VStr target_) file jsonPath pRef pFile s
  = Ok (Some (v, hrefWoHash pTarget))
       (mkState h' (st_manager s)
                (st_trace s ++ [EvRead (hrefWoHash pTarget)])).
Proof.
  intros target Hh Hl Ht Hth Hg Hy Ha.
  unfold handleInclude_content. rewrite Hh, Hl.
  rewrite (bind_Ok _ _ _ _ _ (relative_target_Ok _ _ s)). fold target.
  rewrite (bind_Ok _ _ _ _ _ (parse_Some W _ _ s Ht)). rewrite Hth.
  unfold mbind at 1, M_bind.
  rewrite (bind_Ok _ _ _ _ _ (new_obj_eq _ s)).
  rewrite length_fmap. rewrite decide_False by lia.
  unfold do_readYAML. rewrite Hy.
  unfold receive, emit, get_heap, put_heap, mbind, M_bind.
  cbn [st_heap st_manager st_trace]. rewrite Ha. reflexivity.
Qed.

(** X9.  A loader that fails makes the inclusion fail with the loader's
    error: the download of an absolute target or of a target relative to
    a remote file, and the reading of the current file for a
    same-document target that is not registered, which is read anew
    from [file]. *)
Theorem include_loader_errors n ret key val file jsonPath pRef pFile s :
  parseUrl W val = Some pRef →
  parseUrl W (VStr file) = Some pFile →
  (isHttp pRef = true → download W (hrefWoHash pRef) = None →
   handleInclude W (S n) ret key val file jsonPath s = Throw FetchError)
  ∧ (isHttp pRef = false → isLocal pRef = true →
     manager_get W (st_manager s) val = None →
     readYAML W file = None →
     handleInclude W (S n) ret key val file jsonPath s = Throw LoadError)
  ∧ (∀ x pTarget,
       isHttp pRef = false → isLocal pRef = false → val = VStr x →
       parseUrl W (VStr
         (if isHttp pFile
          then Url_resolve W (Path_dirname W (hrefWoHash pFile) +:+ "/") x
          else Path_join W (Path_dirname W (hrefWoHash pFile)) x))
         = Some pTarget →
       isHttp pTarget = true → download W (hrefWoHash pTarget) = None →
       handleInclude W (S n) ret key val file jsonPath s = Throw FetchError).
Proof.
  intros Hr Hf.
  assert (∀ e,
    handleInclude_content W
      (λ ret key val file jsonPath, handleInclude W n ret key val file jsonPath)
      key val file jsonPath pRef pFile s = Throw e →
    handleInclude W (S n) ret key val file jsonPath s = Throw e) as Hthrow.
  { intros e He. cbn [handleInclude]. unfold handleInclude_body.
    rewrite (bind_Ok _ _ _ _ _ (parse_Some W _ _ s Hr)).
    rewrite (bind_Ok _ _ _ _ _ (parse_Some W _ _ s Hf)).
    by apply bind_Throw. }
  split_and!.
  - intros Hh Hd. apply Hthrow. unfold handleInclude_content. rewrite Hh.
    apply bind_Throw. unfold do_download. by rewrite Hd.
  - intros Hh Hl Hg Hy. apply Hthrow. unfold handleInclude_content.
    rewrite Hh, Hl. rewrite (bind_Ok _ _ _ _ _ (get_manager_Ok s)), Hg.
    apply bind_Throw. unfold do_readYAML. by rewrite Hy.
  - intros x pTarget Hh Hl -> Ht Hth Hd. apply Hthrow.
    unfold handleInclude_content. rewrite Hh, Hl.
    rewrite (bind_Ok _ _ _ _ _ (relative_target_Ok _ _ s)).
    rewrite (bind_Ok _ _ _ _ _ (parse_Some W _ _ s Ht)). rewrite Hth.
    apply bind_Throw. unfold do_download. by rewrite Hd.
Qed.

End Loading.

(** ** A mapping with nothing to resolve *)

Section Mapping.
Context (W : World).

Lemma handleDiscriminator_loop_skips hRef mapping file jsonPath s entries :
  (∀ k v, (k, v) ∈ entries →
     ∃ p, parseUrl W v = Some p
          ∧ ((isLocal p = true ∧ is_Some (manager_get W (st_manager s) v))
             ∨ truthy v = false)) →
  handleDiscriminator_loop W hRef mapping file jsonPath entries s = Ok () s.
Proof.
  induction entries as [|[k v] entries IH]; intros Hall; [done|].
  cbn [handleDiscriminator_loop].
  assert (handleDiscriminator_entry W hRef mapping file jsonPath k v s
          = Ok () s) as He.
  { assert ((k, v) ∈ (k, v) :: entries) as Hin by left.
    destruct (Hall k v Hin) as (p & Hp & Hcase).
    unfold handleDiscriminator_entry.
    rewrite (bind_Ok _ _ _ _ _ (parse_Some W _ _ s Hp)).
    rewrite (bind_Ok _ _ _ _ _ (get_manager_Ok s)).
    destruct Hcase as [[-> Hg]| ->].
    - by rewrite bool_decide_eq_true_2.
    - by destruct (_ && _). }
  rewrite (bind_Ok _ _ _ _ _ He). apply IH.
  intros k' v' Hin'. apply (Hall k' v'). by right.
Qed.

(** X7.  A mapping every target of which is a registered same-document
    reference, or is empty, is left as it is: [handleDiscriminator]
    settles with the state unchanged, and calls [handleRef] for none of
    its entries. *)
Theorem registered_mapping_unchanged
    n ret key val file jsonPath (lm : loc) o s :
  get_prop val "mapping" s = Ok (VRef lm) s →
  st_heap s !! lm = Some o →
  (∀ k v, (k, v) ∈ obj_entries o →
     ∃ p, parseUrl W v = Some p
          ∧ ((isLocal p = true ∧ is_Some (manager_get W (st_manager s) v))
             ∨ truthy v = false)) →
  handleDiscriminator W (S n) ret key val file jsonPath s = Ok () s.
Proof.
  intros Hm Ho Hall. cbn [handleDiscriminator].
  unfold handleDiscriminator_body. rewrite (bind_Ok _ _ _ _ _ Hm).
  cbn [truthy negb].
  assert (entries_of (VRef lm) s = Ok (obj_entries o) s) as He.
  { unfold entries_of, deref, mbind, M_bind. rewrite get_heap_Ok.
    by rewrite Ho. }
  rewrite (bind_Ok _ _ _ _ _ He). by apply handleDiscriminator_loop_skips.
Qed.

End Mapping.

(** ** The walk of a tree with ordinary names *)

Lemma digit_of_pretty_char (d : N) :
  (d < 10)%N → digit_of (pretty_N_char d) = Some d.
Proof.
  intros Hd.
  assert (d = 0 ∨ d = 1 ∨ d = 2 ∨ d = 3 ∨ d = 4 ∨ d = 5 ∨ d = 6 ∨ d = 7
          ∨ d = 8 ∨ d = 9)%N as H by lia.
  destruct H as [->|[->|[->|[->|[->|[->|[->|[->|[->| ->]]]]]]]]];
    reflexivity.
Qed.

Lemma digits_value_pretty_go x : ∀ s,
  digits_value 0 (pretty_N_go x s) = digits_value x s.
Proof.
  induction (N.lt_wf_0 x) as [x _ IH]; intros s.
  assert (x = 0 ∨ 0 < x)%N as [->|Hx] by lia; [done|].
  rewrite pretty_N_go_step by done.
  rewrite IH by (by apply N.div_lt). cbn [digits_value].
  rewrite digit_of_pretty_char by (by apply N.mod_lt).
  f_equal. pose proof (N.div_mod x 10 ltac:(done)). lia.
Qed.

Lemma digits_value_pretty (x : N) : digits_value 0 (pretty x) = Some x.
Proof.
  unfold pretty, pretty_N. destruct (decide (x = 0%N)) as [->|Hx]; [done|].
  by rewrite digits_value_pretty_go.
Qed.

(** The name of a position is an index. *)
Lemma index_of_index_key i :
  (N.of_nat i < 4294967295)%N → index_of (index_key i) = Some i.
Proof.
  intros Hi. unfold index_of, index_key.
  pose proof (digits_value_pretty (N.of_nat i)) as Hd.
  destruct (pretty (N.of_nat i)) as [|a k] eqn:E.
  { injection Hd as Hd. by rewrite <-Hd in E. }
  rewrite Hd. rewrite decide_True by done. by rewrite Nat2N.id.
Qed.

Lemma alist_get_None k (ps : list (string * value)) :
  k ∉ ps.*1 → alist_get k ps = None.
Proof.
  induction ps as [|[k' v'] ps IH]; [done|]. simpl.
  rewrite not_elem_of_cons. intros [Hne Hin].
  destruct (decide (k' = k)) as [->|_]; [done|]. by apply IH.
Qed.

Lemma alist_insert_index_last i k v (ps : list (string * value)) :
  forallb (λ k', match index_of k' with
                 | Some j => bool_decide (j < i)
                 | None => false
                 end) ps.*1 = true →
  alist_insert_index i k v ps = ps ++ [(k, v)].
Proof.
  induction ps as [|[k' v'] ps IH]; [done|]. simpl.
  intros [Hk Hps]%andb_true_iff.
  destruct (index_of k') as [j|]; [|done].
  apply bool_decide_eq_true_1 in Hk. rewrite decide_True by done.
  by rewrite IH.
Qed.

(** A name the object enumerates last is put last. *)
Lemma alist_set_precedes k v (ps : list (string * value)) :
  precedes ps.*1 k = true → alist_set k v ps = ps ++ [(k, v)].
Proof.
  unfold precedes, alist_set. intros [Hk Hi]%andb_true_iff.
  apply bool_decide_eq_true_1 in Hk. rewrite (alist_get_None _ _ Hk).
  destruct (index_of k); [|done]. by apply alist_insert_index_last.
Qed.

(** Reading looks at the objects it finds, nowhere else. *)
Lemma read_node_local d : ∀ h h' v n,
  read_node d h v = Some n →
  (∀ l o, h !! l = Some o → h' !! l = Some o) →
  read_node d h' v = Some n.
Proof.
  induction d as [|d IH]; intros h h' v n; [done|].
  destruct v as [| | | | |l]; try done. cbn [read_node].
  destruct (h !! l) as [o|] eqn:Ho; [|done]. intros Hr Hsub.
  rewrite (Hsub l o Ho).
  destruct o as [ps|es [|]]; [| |done].
  - destruct (mapM _ ps) as [fields|] eqn:Hm; [|done].
    injection Hr as <-. apply mapM_Some in Hm.
    assert (mapM (λ kv, pair kv.1 <$> read_node d h' kv.2) ps = Some fields)
      as ->; [|done].
    apply mapM_Some. eapply Forall2_impl; [exact Hm|].
    intros [k v] kn. cbn [fst snd].
    destruct (read_node d h v) as [x|] eqn:Hx; [|done].
    by rewrite (IH h h' v x Hx Hsub).
  - destruct (mapM _ es) as [items|] eqn:Hm; [|done].
    injection Hr as <-. apply mapM_Some in Hm.
    assert (mapM (λ e, e ≫= read_node d h') es = Some items) as ->; [|done].
    apply mapM_Some. eapply Forall2_impl; [exact Hm|].
    intros [v|] x; [|done]. cbn. intros Hx. by apply (IH h h' v x Hx Hsub).
Qed.

Lemma read_node_reads_in d lo h v n :
  read_node d h v = Some n → lo = 0 → reads_in d lo h v n.
Proof.
  intros Hr -> h' Hagree. eapply read_node_local; [done|].
  intros l o Ho. rewrite Hagree; [done|].
  split; [lia|by eapply lookup_lt_Some].
Qed.

Lemma reads_in_read d lo h v n : reads_in d lo h v n → read_node d h v = Some n.
Proof. intros H. by apply H. Qed.

(** What is read from [lo] on is read the same once the heap has grown
    and the objects below [lo'] have changed. *)
Lemma reads_in_later d lo lo' h h' v n :
  reads_in d lo h v n → lo' ≤ lo → length h ≤ length h' →
  (∀ l, lo ≤ l < length h → h' !! l = h !! l) →
  reads_in d lo' h' v n.
Proof.
  intros H Hlo Hlen Hagree h2 H2. apply H. intros l Hl.
  rewrite H2 by lia. by apply Hagree.
Qed.

Lemma isArray_read d s v n :
  read_node d (st_heap s) v = Some n → isArray v s = Ok (is_seq n) s.
Proof.
  destruct d as [|d]; [done|]. destruct v as [| | | | |l]; try done.
  - by intros [= <-].
  - by intros [= <-].
  - by intros [= <-].
  - by intros [= <-].
  - cbn [read_node]. unfold isArray, deref, mbind, M_bind.
    rewrite get_heap_Ok. destruct (st_heap s !! l) as [[ps|es [|]]|]; try done.
    + destruct (mapM _ ps); [|done]. by intros [= <-].
    + destruct (mapM _ es); [|done]. by intros [= <-].
Qed.

Lemma ordinary_inv k :
  ordinary k = true →
  k ≠ "$ref"%string ∧ INCLUDE_PATTERN_match k = None
  ∧ k ≠ "discriminator"%string.
Proof.
  unfold ordinary.
  intros [[[H1 H2]%andb_true_iff H3]%andb_true_iff _]%andb_true_iff.
  apply negb_true_iff in H1, H2, H3.
  apply String.eqb_neq in H1, H3. apply bool_decide_eq_false_1 in H2.
  split; [done|]. split; [|done].
  destruct (INCLUDE_PATTERN_match k); [|done]. by destruct H2.
Qed.

Lemma assign_Ok l o k x s :
  st_heap s !! l = Some o →
  assign (VRef l) k x s
  = Ok () (mkState (<[l := obj_set k x o]> (st_heap s))
                   (st_manager s) (st_trace s)).
Proof.
  intros Ho. unfold assign, set_prop, mbind, M_bind, put_heap.
  rewrite get_heap_Ok. by rewrite (heap_update_Some _ _ _ _ Ho).
Qed.

Section Copy.
Context (d : nat).
Context (mRefs : value → string → string → M value).
Context (hRef hDisc : value → string → value → string → string → M unit).
Context (hInc : value → string → value → string → string → M value).
Hypothesis Hcopies : copies d mRefs.

(** One turn of the loop on an ordinary name: the value is written,
    walked, and its copy written in its place. *)
Lemma mergeRefs_entry_ordinary file jsonPath (h0 : heap) lr o k v n s :
  k ≠ "$ref"%string → INCLUDE_PATTERN_match k = None →
  k ≠ "discriminator"%string →
  length h0 ≤ lr →
  (∀ l, l < length h0 → st_heap s !! l = h0 !! l) →
  st_heap s !! lr = Some o →
  read_node d h0 v = Some n → plain n = true →
  obj_is_array o && is_seq n = false →
  ∃ r s',
    mergeRefs_entry mRefs hRef hInc hDisc file jsonPath (VRef lr) k v s
      = Ok (VRef lr) s'
    ∧ length (st_heap s) ≤ length (st_heap s')
    ∧ (∀ l, l < length (st_heap s) → l ≠ lr →
            st_heap s' !! l = st_heap s !! l)
    ∧ st_heap s' !! lr = Some (obj_set k r (obj_set k v o))
    ∧ st_manager s' = st_manager s ∧ st_trace s' = st_trace s
    ∧ reads_in d (length (st_heap s)) (st_heap s') r n.
Proof.
  intros Hk1 Hk2 Hk3 Hlr Hold Ho Hv Hn Hkind.
  pose proof (lookup_lt_Some _ _ _ Ho) as Hlt.
  unfold mergeRefs_entry. rewrite (bind_Ok _ _ _ _ _ (assign_Ok _ _ k v s Ho)).
  rewrite decide_False by done. rewrite Hk2. rewrite decide_False by done.
  set (s1 := mkState (<[lr := obj_set k v o]> (st_heap s)) (st_manager s)
                     (st_trace s)).
  assert (read_node d (st_heap s1) v = Some n) as Hv1.
  { eapply read_node_local; [exact Hv|]. intros l o' Hl. cbn [s1 st_heap].
    pose proof (lookup_lt_Some _ _ _ Hl).
    rewrite list_lookup_insert_ne by lia. by rewrite Hold. }
  destruct (Hcopies v n s1 file (jsonPath +:+ "." +:+ k) Hv1 Hn)
    as (r & s2 & Hrun & Hlen & Hpre & Hm & Ht & _ & Hread & _).
  rewrite (bind_Ok _ _ _ _ _ Hrun).
  assert (length (st_heap s1) = length (st_heap s)) as Hl1
    by (cbn [s1 st_heap]; apply length_insert).
  assert (st_heap s2 !! lr = Some (obj_set k v o)) as Ho2.
  { rewrite Hpre by lia. cbn [s1 st_heap].
    by apply list_lookup_insert_eq. }
  assert (isArray (VRef lr) s2 = Ok (obj_is_array o) s2) as Hra.
  { unfold isArray, deref, mbind, M_bind. rewrite get_heap_Ok, Ho2.
    by rewrite mret_Ok, obj_set_is_array. }
  rewrite (bind_Ok _ _ _ _ _ Hra).
  rewrite (bind_Ok _ _ _ _ _ (isArray_read d s2 r n (reads_in_read _ _ _ _ _ Hread))).
  rewrite Hkind. rewrite (bind_Ok _ _ _ _ _ (assign_Ok _ _ k r s2 Ho2)).
  eexists r, _. split; [reflexivity|]. cbn [st_heap st_manager st_trace].
  rewrite length_insert. split; [lia|]. split.
  { intros l Hl Hne. rewrite list_lookup_insert_ne by done.
    rewrite Hpre by lia. cbn [s1 st_heap].
    by rewrite list_lookup_insert_ne. }
  split; [apply list_lookup_insert_eq; lia|].
  split; [by rewrite Hm|]. split; [by rewrite Ht|].
  eapply reads_in_later; [exact Hread|lia|rewrite length_insert; lia|].
  intros l Hl. apply list_lookup_insert_ne. lia.
Qed.

(** The loop over the names of a map. *)
Lemma mergeRefs_loop_map file jsonPath (h0 : heap) :
  ∀ rest fields_rest ps_done fields_done s,
    Forall2 (λ kv kn, kn.1 = kv.1 ∧ read_node d h0 kv.2 = Some kn.2)
            rest fields_rest →
    forallb (λ kv, ordinary kv.1 && plain kv.2) fields_rest = true →
    enumerated ps_done.*1 rest.*1 = true →
    (∀ l, l < length h0 → st_heap s !! l = h0 !! l) →
    st_heap s !! length h0 = Some (JObj ps_done) →
    Forall2 (λ kv kn, kn.1 = kv.1
                      ∧ reads_in d (S (length h0)) (st_heap s) kv.2 kn.2)
            ps_done fields_done →
    ∃ ps' s',
      mergeRefs_loop mRefs hRef hInc hDisc file jsonPath rest
        (VRef (length h0)) s = Ok (VRef (length h0)) s'
      ∧ length (st_heap s) ≤ length (st_heap s')
      ∧ (∀ l, l < length h0 → st_heap s' !! l = h0 !! l)
      ∧ st_manager s' = st_manager s ∧ st_trace s' = st_trace s
      ∧ st_heap s' !! length h0 = Some (JObj ps')
      ∧ Forall2 (λ kv kn, kn.1 = kv.1
                          ∧ reads_in d (S (length h0)) (st_heap s') kv.2 kn.2)
                ps' (fields_done ++ fields_rest).
Proof.
  induction rest as [|[k v] rest IH];
    intros fields_rest ps_done fields_done s Hrest Hplain Henum Hold Ho Hdone.
  { apply Forall2_nil_inv_l in Hrest as ->. exists ps_done, s.
    rewrite app_nil_r. by split_and!. }
  apply Forall2_cons_inv_l in Hrest as ([k' n] & fr & [Hk Hv] & Hrest & ->).
  cbn [fst snd] in Hk, Hv. subst k'.
  cbn [forallb fst snd] in Hplain.
  apply andb_true_iff in Hplain as [[Hord Hn]%andb_true_iff Hplain].
  apply ordinary_inv in Hord as (Hk1 & Hk2 & Hk3).
  cbn [fmap list_fmap fst enumerated] in Henum.
  apply andb_true_iff in Henum as [Hprec Henum].
  pose proof (lookup_lt_Some _ _ _ Ho) as Hlt.
  destruct (mergeRefs_entry_ordinary file jsonPath h0 (length h0) (JObj ps_done)
              k v n s Hk1 Hk2 Hk3 (le_n _) Hold Ho Hv Hn eq_refl)
    as (r & s1 & Hrun & Hlen & Hsame & Hret & Hm & Ht & Hread).
  cbn [mergeRefs_loop]. rewrite (bind_Ok _ _ _ _ _ Hrun).
  cbn [obj_set] in Hret.
  rewrite alist_set_set, (alist_set_precedes _ _ _ Hprec) in Hret.
  destruct (IH fr (ps_done ++ [(k, r)]) (fields_done ++ [(k, n)]) s1)
    as (ps' & s' & Hloop & Hlen' & Hold' & Hm' & Ht' & Hret' & Hall);
    [done|done| | |done| |].
  - by rewrite fmap_app.
  - intros l Hl. rewrite Hsame by lia. by apply Hold.
  - apply Forall2_app.
    + eapply Forall2_impl; [exact Hdone|]. intros kv kn [? Hr].
      split; [done|]. eapply reads_in_later; [exact Hr|lia|lia|].
      intros l Hl. apply Hsame; lia.
    + constructor; [|constructor]. split; [done|].
      eapply reads_in_later; [exact Hread|lia|lia|done].
  - exists ps', s'. rewrite <-(assoc_L (++)) in Hall.
    split_and!; try done; [lia|congruence|congruence].
Qed.

Lemma elems_set_push es v r :
  elems_set (length es) r (elems_set (length es) v es) = es ++ [Some r].
Proof.
  unfold elems_set at 2. rewrite decide_False by lia.
  rewrite Nat.sub_diag. cbn [replicate app]. unfold elems_set.
  rewrite decide_True by (rewrite length_app; simpl; lia).
  rewrite insert_app_r_alt by done. by rewrite Nat.sub_diag.
Qed.

Lemma index_key_ordinary i :
  (N.of_nat i < 4294967295)%N →
  index_key i ≠ "$ref"%string ∧ INCLUDE_PATTERN_match (index_key i) = None
  ∧ index_key i ≠ "discriminator"%string.
Proof.
  intros Hi%index_of_index_key. split_and!.
  - intros E. by rewrite E in Hi.
  - destruct (INCLUDE_PATTERN_match (index_key i)) as [g|] eqn:E; [|done].
    apply include_key_no_index in E as [E _]. by rewrite E in Hi.
  - intros E. by rewrite E in Hi.
Qed.

(** The loop over the positions of a sequence. *)
Lemma mergeRefs_loop_seq file jsonPath (h0 : heap) :
  ∀ vs items_rest rs_done items_done s,
    Forall2 (λ v n, read_node d h0 v = Some n) vs items_rest →
    forallb (λ x, negb (is_seq x) && plain x) items_rest = true →
    (N.of_nat (length rs_done + length vs) < 4294967295)%N →
    (∀ l, l < length h0 → st_heap s !! l = h0 !! l) →
    st_heap s !! length h0 = Some (JArr (Some <$> rs_done) []) →
    Forall2 (λ v n, reads_in d (S (length h0)) (st_heap s) v n)
            rs_done items_done →
    ∃ rs' s',
      mergeRefs_loop mRefs hRef hInc hDisc file jsonPath
        (elems_entries (length rs_done) (Some <$> vs))
        (VRef (length h0)) s = Ok (VRef (length h0)) s'
      ∧ length (st_heap s) ≤ length (st_heap s')
      ∧ (∀ l, l < length h0 → st_heap s' !! l = h0 !! l)
      ∧ st_manager s' = st_manager s ∧ st_trace s' = st_trace s
      ∧ st_heap s' !! length h0 = Some (JArr (Some <$> rs') [])
      ∧ Forall2 (λ v n, reads_in d (S (length h0)) (st_heap s') v n)
                rs' (items_done ++ items_rest).
Proof.
  induction vs as [|v vs IH];
    intros items_rest rs_done items_done s Hrest Hplain Hbound Hold Ho Hdone.
  { apply Forall2_nil_inv_l in Hrest as ->. exists rs_done, s.
    rewrite app_nil_r. by split_and!. }
  apply Forall2_cons_inv_l in Hrest as (n & ir & Hv & Hrest & ->).
  cbn [forallb] in Hplain.
  apply andb_true_iff in Hplain as [[Hseq Hn]%andb_true_iff Hplain].
  apply negb_true_iff in Hseq. cbn [length] in Hbound.
  assert (N.of_nat (length rs_done) < 4294967295)%N as Hi by lia.
  destruct (index_key_ordinary _ Hi) as (Hk1 & Hk2 & Hk3).
  pose proof (lookup_lt_Some _ _ _ Ho) as Hlt.
  destruct (mergeRefs_entry_ordinary file jsonPath h0 (length h0)
              (JArr (Some <$> rs_done) []) (index_key (length rs_done))
              v n s Hk1 Hk2 Hk3 (le_n _) Hold Ho Hv Hn)
    as (r & s1 & Hrun & Hlen & Hsame & Hret & Hm & Ht & Hread).
  { by rewrite Hseq. }
  cbn [fmap list_fmap elems_entries mergeRefs_loop].
  rewrite (bind_Ok _ _ _ _ _ Hrun).
  cbn [obj_set] in Hret. rewrite (index_of_index_key _ Hi) in Hret.
  cbn [obj_set] in Hret. rewrite (index_of_index_key _ Hi) in Hret.
  replace (length rs_done) with (length (Some <$> rs_done)) in Hret at 1 2
    by apply length_fmap.
  rewrite elems_set_push in Hret.
  replace ((Some <$> rs_done) ++ [Some r]) with (Some <$> (rs_done ++ [r]))
    in Hret by by rewrite fmap_app.
  destruct (IH ir (rs_done ++ [r]) (items_done ++ [n]) s1)
    as (rs' & s' & Hloop & Hlen' & Hold' & Hm' & Ht' & Hret' & Hall);
    [done|done| | |done| |].
  - rewrite length_app. simpl. lia.
  - intros l Hl. rewrite Hsame by lia. by apply Hold.
  - apply Forall2_app.
    + eapply Forall2_impl; [exact Hdone|]. intros x y Hr.
      eapply reads_in_later; [exact Hr|lia|lia|].
      intros l Hl. apply Hsame; lia.
    + constructor; [|constructor].
      eapply reads_in_later; [exact Hread|lia|lia|done].
  - exists rs', s'. rewrite <-(assoc_L (++)) in Hall.
    rewrite length_app in Hloop. simpl in Hloop.
    rewrite Nat.add_1_r in Hloop.
    split_and!; try done; [lia|congruence|congruence].
Qed.

Lemma Forall2_present {A B} (f : A → option B) es items :
  Forall2 (λ (e : option A) x, e ≫= f = Some x) es items →
  ∃ vs, es = Some <$> vs ∧ Forall2 (λ v x, f v = Some x) vs items.
Proof.
  induction 1 as [|[v|] x es items Hx _ (vs & -> & IH)]; [by exists []| |done].
  exists (v :: vs). split; [done|]. by constructor.
Qed.

(** Lines 47-72 on a value that reads as a plain tree. *)
Lemma mergeRefs_body_copies :
  copies (S d) (mergeRefs_body mRefs hRef hInc hDisc).
Proof.
  intros v n s file jsonPath Hr Hn. unfold mergeRefs_body.
  destruct v as [| | | | |lo]; try done;
    try (injection Hr as <-; eexists _, s; split; [reflexivity|];
         split_and!; try done; by intros h' _).
  cbn [isObject negb]. cbn [read_node] in Hr.
  destruct (st_heap s !! lo) as [o|] eqn:Ho; [|done].
  pose proof (lookup_lt_Some _ _ _ Ho) as Hlo.
  set (s1 o' := mkState (st_heap s ++ [o']) (st_manager s) (st_trace s)).
  assert (isArray (VRef lo) s = Ok (obj_is_array o) s) as Harr.
  { unfold isArray, deref, mbind, M_bind. by rewrite get_heap_Ok, Ho. }
  rewrite (bind_Ok _ _ _ _ _ Harr).
  assert (∀ o', entries_of (VRef lo) (s1 o') = Ok (obj_entries o) (s1 o'))
    as Hent.
  { intros o'. unfold entries_of, deref, mbind, M_bind.
    rewrite get_heap_Ok. cbn [s1 st_heap]. by rewrite lookup_app_l, Ho. }
  assert (∀ o' l, l < length (st_heap s) →
                  st_heap (s1 o') !! l = st_heap s !! l) as Hold.
  { intros o' l Hl. cbn [s1 st_heap]. by rewrite lookup_app_l. }
  assert (∀ o', st_heap (s1 o') !! length (st_heap s) = Some o') as Hnew.
  { intros o'. cbn [s1 st_heap]. by apply list_lookup_middle. }
  destruct o as [ps|es [|]]; [| |done]; cbn [obj_is_array].
  - destruct (mapM _ ps) as [fields|] eqn:Hm; [|done]. injection Hr as <-.
    apply mapM_Some in Hm.
    assert (Forall2 (λ kv kn, kn.1 = kv.1
                              ∧ read_node d (st_heap s) kv.2 = Some kn.2)
                    ps fields) as Hps.
    { eapply Forall2_impl; [exact Hm|]. intros [k v] [k' x]. cbn [fst snd].
      destruct (read_node d (st_heap s) v); [|done]. by intros [= -> ->]. }
    assert (ps.*1 = fields.*1) as Hkeys.
    { clear -Hps. induction Hps as [|kv kn ps fields [E _] _ IH]; [done|].
      cbn. by rewrite E, IH. }
    cbn [plain] in Hn. apply andb_true_iff in Hn as [Henum Hfields].
    rewrite (bind_Ok _ _ _ _ _ (new_obj_eq _ s)). fold (s1 (JObj [])).
    rewrite (bind_Ok _ _ _ _ _ (Hent _)). cbn [obj_entries].
    destruct (mergeRefs_loop_map file jsonPath (st_heap s) ps fields [] []
                (s1 (JObj [])))
      as (ps' & s' & Hloop & Hlen & Hold' & Hm' & Ht' & Hret & Hall);
      [done|done|by rewrite Hkeys|by apply Hold|by apply Hnew|constructor|].
    exists (VRef (length (st_heap s))), s'.
    cbn [s1 st_heap st_manager st_trace] in Hlen, Hm', Ht'.
    rewrite length_app in Hlen. cbn [length] in Hlen.
    split_and!; try done; [lia|by intros l [= <-]| |].
    + intros h' Hagree. cbn [read_node]. rewrite Hagree, Hret by lia.
      assert (mapM (λ kv, pair kv.1 <$> read_node d h' kv.2) ps'
              = Some fields) as ->; [|done].
      apply mapM_Some. eapply Forall2_impl; [exact Hall|].
      intros [k v] [k' x] [E Hread]. cbn [fst snd] in *. subst k'.
      rewrite (Hread h'); [done|]. intros l Hl. apply Hagree. lia.
    + intros ? [= <-]. exists (length (st_heap s)), ps'.
      split; [done|]. split; [done|].
      eapply Forall2_impl; [exact Hall|]. intros kv kn [E Hread].
      split; [done|]. by intros d0 [= <-].
  - destruct (mapM _ es) as [items|] eqn:Hm; [|done]. injection Hr as <-.
    apply mapM_Some, Forall2_present in Hm as (vs & -> & Hvs).
    cbn [plain] in Hn. apply andb_true_iff in Hn as [Hb Hitems].
    apply N.ltb_lt in Hb. rewrite <-(Forall2_length _ _ _ Hvs) in Hb.
    rewrite (bind_Ok _ _ _ _ _ (new_obj_eq _ s)). fold (s1 (JArr [] [])).
    rewrite (bind_Ok _ _ _ _ _ (Hent _)). cbn [obj_entries].
    rewrite app_nil_r.
    destruct (mergeRefs_loop_seq file jsonPath (st_heap s) vs items [] []
                (s1 (JArr [] [])))
      as (rs' & s' & Hloop & Hlen & Hold' & Hm' & Ht' & Hret & Hall);
      [done|done|done|by apply Hold|by apply Hnew|constructor|].
    exists (VRef (length (st_heap s))), s'.
    cbn [s1 st_heap st_manager st_trace] in Hlen, Hm', Ht'.
    rewrite length_app in Hlen. cbn [length] in Hlen.
    split_and!; try done; [lia|by intros l [= <-]| |].
    + intros h' Hagree. cbn [read_node]. rewrite Hagree, Hret by lia.
      assert (mapM (λ e, e ≫= read_node d h') (Some <$> rs') = Some items)
        as ->; [|done].
      apply mapM_Some, Forall2_fmap_l. eapply Forall2_impl; [exact Hall|].
      intros v x Hread. cbn. apply Hread. intros l Hl. apply Hagree. lia.
    + intros ? [= <-]. exists (length (st_heap s)), rs'.
      split; [done|]. split; [done|].
      eapply Forall2_impl; [exact Hall|]. intros v x Hread.
      by intros d0 [= <-].
Qed.

End Copy.

Lemma mergeRefs_copies (W : World) d : copies d (mergeRefs W d).
Proof.
  induction d as [|d IH]; [by intros v n s file jsonPath|].
  cbn [mergeRefs]. by apply mergeRefs_body_copies.
Qed.


Lemma read_node_ref d h l :
  read_node (S d) h (VRef l)
  = match h !! l with
    | Some (JObj ps) =>
        NMap <$> mapM (λ kv, pair kv.1 <$> read_node d h kv.2) ps
    | Some (JArr es []) => NSeq <$> mapM (λ e, e ≫= read_node d h) es
    | _ => None
    end.
Proof. reflexivity. Qed.

Lemma read_node_mono d : ∀ h v n,
  read_node d h v = Some n → read_node (S d) h v = Some n.
Proof.
  induction d as [|d IH]; intros h v n; [done|].
  destruct v as [| | | | |l]; try done.
  rewrite !read_node_ref. intros Hr.
  destruct (h !! l) as [[ps|es [|]]|]; try done.
  - destruct (mapM _ ps) as [fields|] eqn:Hm; [|done]. injection Hr as <-.
    apply mapM_Some in Hm.
    assert (mapM (λ kv, pair kv.1 <$> read_node (S d) h kv.2) ps
            = Some fields) as ->; [|done].
    apply mapM_Some. eapply Forall2_impl; [exact Hm|]. intros [k v] kn.
    cbn [fst snd]. destruct (read_node d h v) as [x|] eqn:Hx; [|done].
    by rewrite (IH h v x Hx).
  - destruct (mapM _ es) as [items|] eqn:Hm; [|done]. injection Hr as <-.
    apply mapM_Some in Hm.
    assert (mapM (λ e, e ≫= read_node (S d) h) es = Some items) as ->;
      [|done].
    apply mapM_Some. eapply Forall2_impl; [exact Hm|].
    intros [v|] x; [|done]. cbn. apply IH.
Qed.

(** X1.  A document that reads as a map with ordinary names only, none of
    them [components]: [merge] settles with a new map that reads as the
    document with an empty [components] added after its names; nothing
    is loaded and no object of the input changes. *)
Theorem merge_copies_plain_document (W : World) d doc fields inputFile s :
  read_node d (st_heap s) doc = Some (NMap fields) →
  plain (NMap fields) = true →
  "components"%string ∉ fields.*1 →
  ∃ r s',
    merge W d doc inputFile s = Ok r s'
    ∧ read_node (S d) (st_heap s') r
      = Some (NMap (fields ++ [("components"%string, NMap [])]))
    ∧ take (length (st_heap s)) (st_heap s') = st_heap s
    ∧ st_trace s' = st_trace s.
Proof.
  intros Hr Hn Hc. destruct d as [|d]; [done|]. unfold merge.
  set (file := Path_resolve_cwd W inputFile).
  set (sa := with_manager (ComponentManager_new None) s).
  assert (put_manager (ComponentManager_new None) s = Ok () sa) as Hput1
    by done.
  rewrite (bind_Ok _ _ _ _ _ Hput1).
  destruct (mergeRefs_copies W (S d) doc _ sa file "$" Hr Hn)
    as (r1 & sb & Hrun1 & Hlen1 & Hold1 & Hm1 & Ht1 & _).
  rewrite (bind_Ok _ _ _ _ _ Hrun1).
  rewrite (bind_Ok _ _ _ _ _ (get_manager_Ok sb)).
  set (sc := with_manager
               (ComponentManager_new (Some (m_components (st_manager sb)))) sb).
  assert (put_manager
            (ComponentManager_new (Some (m_components (st_manager sb)))) sb
          = Ok () sc) as Hput2 by done.
  rewrite (bind_Ok _ _ _ _ _ Hput2).
  assert (read_node (S d) (st_heap sc) doc = Some (NMap fields)) as Hr2.
  { eapply read_node_local; [exact Hr|]. intros l o Hl.
    cbn [sc with_manager st_heap]. rewrite Hold1; [done|].
    by eapply lookup_lt_Some. }
  destruct (mergeRefs_copies W (S d) doc _ sc file "$" Hr2 Hn)
    as (r2 & sd & Hrun2 & Hlen2 & Hold2 & Hm2 & Ht2 & Hfresh & _ & Hmap & _).
  rewrite (bind_Ok _ _ _ _ _ Hrun2).
  destruct (Hmap fields eq_refl) as (lr & ps & -> & Hps & Hall).
  specialize (Hfresh lr eq_refl).
  pose proof (lookup_lt_Some _ _ _ Hps) as Hlr.
  assert (ps.*1 = fields.*1) as Hkeys.
  { clear -Hall. induction Hall as [|kv kn ps fields [E _] _ IH]; [done|].
    cbn. by rewrite E, IH. }
  assert (get_prop (VRef lr) "components" sd = Ok VUndef sd) as Hget.
  { unfold get_prop, deref, mbind, M_bind. rewrite get_heap_Ok, Hps.
    rewrite !mret_Ok. unfold obj_get.
    rewrite alist_get_None; [done|]. by rewrite Hkeys. }
  rewrite (bind_Ok _ _ _ _ _ Hget).
  rewrite (bind_Ok _ _ _ _ _ (getComponentsSection_empty sd
             ltac:(by rewrite Hm2))).
  set (se := mkState (st_heap sd ++ [JObj []]) (st_manager sd) (st_trace sd)).
  assert (st_heap se !! length (st_heap sd) = Some (JObj [])) as Hsec
    by by apply list_lookup_middle.
  rewrite (bind_Ok _ _ _ _ _ (lodash_merge_undefined_empty d _ se Hsec)).
  set (sf := mkState (st_heap se ++ [JObj []]) (st_manager se) (st_trace se)).
  assert (st_heap sf !! lr = Some (JObj ps)) as Hps'.
  { cbn [sf se st_heap]. rewrite !lookup_app_l; [done|done|].
    rewrite length_app. lia. }
  rewrite (bind_Ok _ _ _ _ _ (assign_Ok _ _ _ _ sf Hps')).
  cbn [obj_set]. rewrite alist_set_precedes;
    [|unfold precedes; rewrite bool_decide_eq_true_2 by (by rewrite Hkeys);
      done].
  eexists _, _. split; [reflexivity|]. cbn [st_heap st_trace sf se].
  assert (lr < length ((st_heap sd ++ [JObj []]) ++ [JObj []])) as Hlr'
    by (rewrite !length_app; lia).
  split_and!.
  - rewrite read_node_ref, list_lookup_insert_eq by done.
    apply fmap_Some. eexists. split; [|reflexivity].
    apply mapM_Some, Forall2_app.
    + eapply Forall2_impl; [exact Hall|]. intros [k v] [k' x] [E Hread].
      cbn [fst snd] in *. subst k'.
      rewrite (read_node_mono d _ v x); [done|].
      apply (Hread d eq_refl). intros l Hl.
      rewrite list_lookup_insert_ne by lia. by rewrite !lookup_app_l by
        (rewrite ?length_app; lia).
    + constructor; [|constructor]. cbn [fst snd]. rewrite read_node_ref.
      rewrite list_lookup_insert_ne by (cbn [se st_heap];
                                        rewrite length_app; simpl; lia).
      cbn [se st_heap]. by rewrite list_lookup_middle.
  - apply list_eq. intros l. destruct (decide (l < length (st_heap s))).
    + rewrite lookup_take_lt by done.
      assert (length (st_heap sa) = length (st_heap s)) as Hla by done.
      assert (length (st_heap sc) = length (st_heap sb)) as Hlc by done.
      rewrite list_lookup_insert_ne by lia.
      rewrite !lookup_app_l by (rewrite ?length_app; lia).
      rewrite Hold2 by lia. cbn [sc with_manager st_heap].
      by rewrite Hold1 by lia.
    + rewrite lookup_take_ge by lia. symmetry. apply lookup_ge_None. lia.
  - rewrite Ht2. cbn [sc with_manager st_trace]. by rewrite Ht1.
Qed.

(** ** A sequence in a sequence *)

Lemma elems_entries_app i es1 es2 :
  elems_entries i (es1 ++ es2)
  = elems_entries i es1 ++ elems_entries (i + length es1) es2.
Proof.
  revert i. induction es1 as [|[v|] es1 IH]; intros i; simpl.
  - by rewrite Nat.add_0_r.
  - rewrite IH. do 3 f_equal. lia.
  - rewrite IH. do 2 f_equal. lia.
Qed.

Lemma mergeRefs_loop_app mRefs hRef hInc hDisc file jsonPath es1 es2 :
  ∀ ret s,
    mergeRefs_loop mRefs hRef hInc hDisc file jsonPath (es1 ++ es2) ret s
    = (ret' ← mergeRefs_loop mRefs hRef hInc hDisc file jsonPath es1 ret;
       mergeRefs_loop mRefs hRef hInc hDisc file jsonPath es2 ret') s.
Proof.
  induction es1 as [|[k v] es1 IH]; intros ret s; [done|].
  cbn [app mergeRefs_loop]. unfold mbind, M_bind.
  destruct (mergeRefs_entry _ _ _ _ _ _ _ _ _ s) as [ret' s'| |]; [|done..].
  apply IH.
Qed.

Lemma mergeRefs_loop_one mRefs hRef hInc hDisc file jsonPath k v ret s :
  mergeRefs_loop mRefs hRef hInc hDisc file jsonPath [(k, v)] ret s
  = mergeRefs_entry mRefs hRef hInc hDisc file jsonPath ret k v s.
Proof.
  cbn [mergeRefs_loop]. unfold mbind, M_bind.
  by destruct (mergeRefs_entry _ _ _ _ _ _ _ _ _ s).
Qed.

Lemma isArray_Ok l o s :
  st_heap s !! l = Some o → isArray (VRef l) s = Ok (obj_is_array o) s.
Proof.
  intros Ho. unfold isArray, deref, mbind, M_bind.
  by rewrite get_heap_Ok, Ho.
Qed.

Lemma splice_Ok l o key s :
  st_heap s !! l = Some o →
  splice (VRef l) key s
  = Ok () (mkState (<[l := obj_splice1 (splice_start key) o]> (st_heap s))
                   (st_manager s) (st_trace s)).
Proof.
  intros Ho. unfold splice, mbind, M_bind, put_heap.
  rewrite get_heap_Ok. by rewrite (heap_update_Some _ _ _ _ Ho).
Qed.

Lemma concat_Ok la lb ea pa eb pb s :
  st_heap s !! la = Some (JArr ea pa) →
  st_heap s !! lb = Some (JArr eb pb) →
  concat (VRef la) (VRef lb) s
  = Ok (VRef (length (st_heap s)))
       (mkState (st_heap s ++ [JArr (ea ++ eb) []])
                (st_manager s) (st_trace s)).
Proof.
  intros Ha Hb. unfold concat, deref, mbind, M_bind.
  rewrite get_heap_Ok, Ha. rewrite mret_Ok, get_heap_Ok, Hb. by rewrite mret_Ok.
Qed.

Lemma elems_set_end es v : elems_set (length es) v es = es ++ [Some v].
Proof.
  unfold elems_set. rewrite decide_False by lia. by rewrite Nat.sub_diag.
Qed.


(** ** A file that refers to itself *)

Lemma bind_Unsettled {A B} (m : M A) (f : A → M B) s :
  m s = Unsettled → (m ≫= f) s = Unsettled.
Proof. intros H. unfold mbind, M_bind. by rewrite H. Qed.

Section Cycle.
Context (W : World).
Context (x file jsonPath target : string) (pRef pFile pTarget : parsed_url).
Hypothesis Hx : parseUrl W (VStr x) = Some pRef.
Hypothesis Hhttp : isHttp pRef = false.
Hypothesis Hlocal : isLocal pRef = false.
Hypothesis Hfile : parseUrl W (VStr file) = Some pFile.
Hypothesis Htarget :
  target = if isHttp pFile
           then Url_resolve W (Path_dirname W (hrefWoHash pFile) +:+ "/") x
           else Path_join W (Path_dirname W (hrefWoHash pFile)) x.
Hypothesis Hparsed : parseUrl W (VStr target) = Some pTarget.
Hypothesis Hnext : hrefWoHash pTarget = file.
Hypothesis Hhoist : shouldInclude W (getRefType W jsonPath) = false.

(** Lines 74-108 up to the walk of the component's content, for a
    component that is registered. *)
Lemma handleRef_registered n lr o i c s :
  list_find (λ c, c_url c = target) (m_components (st_manager s))
    = Some (i, c) →
  st_heap s !! lr = Some o →
  handleRef W (S n) (VRef lr) "$ref" (VStr x) file jsonPath s
  = (merged ← mergeRefs W n (c_content c) file jsonPath;
     set_content i merged)
      (mkState (<[lr := obj_set "$ref" (VStr (getLocalRef W c)) o]> (st_heap s))
               (st_manager s) (st_trace s)).
Proof.
  intros Hfind Ho. cbn [handleRef]. unfold handleRef_body.
  rewrite (bind_Ok _ _ _ _ _ (parse_Some W _ _ s Hx)).
  rewrite (bind_Ok _ _ _ _ _ (parse_Some W _ _ s Hfile)).
  rewrite Hhoist.
  assert (handleRef_target W (VStr x) pRef pFile (getRefType W jsonPath) s
          = Ok (Some (i, file)) s) as Ht.
  { unfold handleRef_target. rewrite Hhttp, Hlocal.
    rewrite (bind_Ok _ _ _ _ _ (relative_target_Ok W _ _ s)).
    rewrite <-Htarget.
    rewrite (bind_Ok _ _ _ _ _ (parse_Some W _ _ s Hparsed)).
    rewrite (bind_Ok _ _ _ _ _ (getOrCreate_registered W _ _ s i c Hfind)).
    by rewrite Hnext. }
  rewrite (bind_Ok _ _ _ _ _ Ht).
  assert (component i s = Ok c s) as Hc.
  { unfold component. rewrite (bind_Ok _ _ _ _ _ (get_manager_Ok s)).
    apply list_find_Some in Hfind as [-> _]. done. }
  rewrite (bind_Ok _ _ _ _ _ Hc).
  by rewrite (bind_Ok _ _ _ _ _ (assign_Ok _ _ _ _ s Ho)).
Qed.

(** Once the file is registered, neither the reference nor the walk of
    the file's content settles, at any depth. *)
Lemma cycle_registered n i c lc :
  c_content c = VRef lc →
  (∀ s lr o,
     list_find (λ c, c_url c = target) (m_components (st_manager s))
       = Some (i, c) →
     st_heap s !! lc = Some (JObj [("$ref"%string, VStr x)]) →
     st_heap s !! lr = Some o → lr ≠ lc →
     handleRef W n (VRef lr) "$ref" (VStr x) file jsonPath s = Unsettled)
  ∧ (∀ s,
       list_find (λ c, c_url c = target) (m_components (st_manager s))
         = Some (i, c) →
       st_heap s !! lc = Some (JObj [("$ref"%string, VStr x)]) →
       mergeRefs W n (VRef lc) file jsonPath s = Unsettled).
Proof.
  intros Hcontent. induction n as [|n [IHr IHm]]; [done|]. split.
  - intros s lr o Hfind Hlc Ho Hne.
    rewrite (handleRef_registered n lr o i c s Hfind Ho).
    apply bind_Unsettled. rewrite Hcontent. apply IHm; [done|].
    cbn [st_heap]. by rewrite list_lookup_insert_ne.
  - intros s Hfind Hlc. pose proof (lookup_lt_Some _ _ _ Hlc) as Hlt.
    cbn [mergeRefs]. unfold mergeRefs_body. cbn [isObject negb].
    rewrite (bind_Ok _ _ _ _ _ (isArray_Ok _ _ s Hlc)). cbn [obj_is_array].
    rewrite (bind_Ok _ _ _ _ _ (new_obj_eq _ s)).
    set (s1 := mkState (st_heap s ++ [JObj []]) (st_manager s) (st_trace s)).
    assert (entries_of (VRef lc) s1 = Ok [("$ref"%string, VStr x)] s1) as Hent.
    { unfold entries_of, deref, mbind, M_bind. rewrite get_heap_Ok.
      cbn [s1 st_heap]. by rewrite lookup_app_l, Hlc. }
    rewrite (bind_Ok _ _ _ _ _ Hent), mergeRefs_loop_one.
    unfold mergeRefs_entry.
    assert (st_heap s1 !! length (st_heap s) = Some (JObj [])) as Hret
      by by apply list_lookup_middle.
    rewrite (bind_Ok _ _ _ _ _ (assign_Ok _ _ _ _ s1 Hret)).
    rewrite decide_True by done. apply bind_Unsettled.
    eapply (IHr _ (length (st_heap s))); [done| | |lia].
    + cbn [s1 st_heap]. rewrite list_lookup_insert_ne by lia.
      by rewrite lookup_app_l.
    + cbn [s1 st_heap]. apply list_lookup_insert_eq.
      rewrite length_app. simpl. lia.
Qed.

End Cycle.

(** X13.  A file whose content is a reference to the file itself, by a path:
    the same-document guard does not apply, and the first reference to
    the file in a pass does not settle, whatever the depth allowed to the
    nested calls. *)
Theorem self_reference_by_path_never_settles
    (W : World) n x file jsonPath pRef pFile pTarget lr o s :
  let target :=
    if isHttp pFile
    then Url_resolve W (Path_dirname W (hrefWoHash pFile) +:+ "/") x
    else Path_join W (Path_dirname W (hrefWoHash pFile)) x in
  parseUrl W (VStr x) = Some pRef →
  isHttp pRef = false →
  isLocal pRef = false →
  parseUrl W (VStr file) = Some pFile →
  parseUrl W (VStr target) = Some pTarget →
  hrefWoHash pTarget = file →
  shouldInclude W (getRefType W jsonPath) = false →
  loadContent W target = Some (NMap [("$ref"%string, NStr x)]) →
  list_find (λ c, c_url c = target) (m_components (st_manager s)) = None →
  st_heap s !! lr = Some o →
  handleRef W n (VRef lr) "$ref" (VStr x) file jsonPath s = Unsettled.
Proof.
  intros target Hx Hhttp Hlocal Hfile Hparsed Hnext Hhoist Hload Hnew Ho.
  destruct n as [|n]; [done|].
  pose proof (lookup_lt_Some _ _ _ Ho) as Hlt.
  cbn [handleRef]. unfold handleRef_body.
  rewrite (bind_Ok _ _ _ _ _ (parse_Some W _ _ s Hx)).
  rewrite (bind_Ok _ _ _ _ _ (parse_Some W _ _ s Hfile)).
  rewrite Hhoist.
  set (type := getRefType W jsonPath).
  set (name := match m_resolver (st_manager s) with
               | None => defaultName W target
               | Some cs => resolvedName W cs type target
               end).
  set (c := mkComponent type target name (VRef (length (st_heap s)))).
  set (s1 := mkState (st_heap s ++ [JObj [("$ref"%string, VStr x)]])
               (mkManager (m_components (st_manager s) ++ [c])
                          (m_resolver (st_manager s)))
               (st_trace s ++ [EvLoad target])).
  assert (getOrCreate W type target s
          = Ok (length (m_components (st_manager s))) s1) as Hget.
  { unfold getOrCreate. rewrite (bind_Ok _ _ _ _ _ (get_manager_Ok s)).
    rewrite Hnew, Hload. reflexivity. }
  assert (handleRef_target W (VStr x) pRef pFile type s
          = Ok (Some (length (m_components (st_manager s)), file)) s1) as Ht.
  { unfold handleRef_target. rewrite Hhttp, Hlocal.
    rewrite (bind_Ok _ _ _ _ _ (relative_target_Ok W _ _ s)). fold target.
    rewrite (bind_Ok _ _ _ _ _ (parse_Some W _ _ s Hparsed)).
    rewrite (bind_Ok _ _ _ _ _ Hget). by rewrite Hnext. }
  rewrite (bind_Ok _ _ _ _ _ Ht).
  assert (component (length (m_components (st_manager s))) s1 = Ok c s1)
    as Hc.
  { unfold component. rewrite (bind_Ok _ _ _ _ _ (get_manager_Ok s1)).
    cbn [s1 st_manager m_components]. by rewrite list_lookup_middle. }
  rewrite (bind_Ok _ _ _ _ _ Hc).
  assert (st_heap s1 !! lr = Some o) as Ho1
    by (cbn [s1 st_heap]; by rewrite lookup_app_l).
  rewrite (bind_Ok _ _ _ _ _ (assign_Ok _ _ _ _ s1 Ho1)).
  apply bind_Unsettled.
  eapply (proj2 (cycle_registered W x file jsonPath target pRef pFile pTarget
                   Hx Hhttp Hlocal Hfile eq_refl Hparsed Hnext Hhoist n
                   (length (m_components (st_manager s))) c
                   (length (st_heap s)) eq_refl)).
  - cbn [s1 st_manager m_components]. rewrite list_find_app_r by done.
    cbn. by rewrite decide_True.
  - cbn [s1 st_heap]. rewrite list_lookup_insert_ne by lia.
    by apply list_lookup_middle.
Qed.

(** * The deep merge of lodash, on trees *)

(** ** Reading and footprints *)

Lemma baseMerge_each_eq n dest kvs s :
  (fix each (kvs : list (string * value)) : M unit :=
     match kvs with
     | [] => mret ()
     | (k, v) :: kvs' =>
         match v with
         | VRef l => baseMerge_entry n dest k (VRef l)
         | _ => assignMergeValue dest k v
         end;;
         each kvs'
     end) kvs s
  = baseMerge_each n dest kvs s.
Proof.
  revert s. induction kvs as [|[k v] kvs IH]; intros s; [done|].
  cbn [baseMerge_each]. unfold mbind at 1 3, M_bind.
  destruct v; cbn [baseMerge_entry];
    (match goal with |- match ?x with _ => _ end = _ => destruct x end);
    try done; apply IH.
Qed.

Lemma baseMerge_S n dest src s :
  baseMerge (S n) dest src s = baseMerge_each n dest (merge_entries src) s.
Proof. apply (baseMerge_each_eq n dest (merge_entries src) s). Qed.

Lemma read_node_obj d h l :
  read_node (S d) h (VRef l) = h !! l ≫= read_obj d h.
Proof.
  rewrite read_node_ref. by destruct (h !! l) as [[ps|es [|]]|].
Qed.

Lemma read_node_scalar d h h' v :
  isObject v = false → read_node d h' v = read_node d h v.
Proof. by destruct d, v. Qed.

Lemma footprint_scalar d h v : isObject v = false → footprint d h v = [].
Proof. by destruct d, v. Qed.

Lemma footprint_ref d h l o :
  h !! l = Some o →
  footprint (S d) h (VRef l) = l :: (vals o ≫= footprint d h).
Proof. intros Ho. cbn [footprint]. by rewrite Ho. Qed.

Lemma mapM_ext_in {A B} (f g : A → option B) l :
  (∀ x, x ∈ l → f x = g x) → mapM f l = mapM g l.
Proof.
  induction l as [|x l IH]; intros H; [done|]. cbn.
  rewrite (H x) by left. rewrite IH; [done|]. intros y Hy. apply H. by right.
Qed.

Lemma bind_ext_in {A B} (f g : A → list B) (l : list A) :
  (∀ x, x ∈ l → f x = g x) → l ≫= f = l ≫= g.
Proof.
  induction l as [|x l IH]; intros H; [done|]. cbn.
  rewrite (H x) by left. rewrite IH; [done|]. intros y Hy. apply H. by right.
Qed.

Lemma elem_of_vals_JArr es v : v ∈ vals (JArr es []) ↔ Some v ∈ es.
Proof.
  cbn [vals]. rewrite app_nil_r, list_elem_of_omap. split.
  - intros ([x|] & Hin & Hx); [|done]. cbn in Hx. by injection Hx as ->.
  - intros Hin. by exists (Some v).
Qed.

(** What a value leads to and reads as depends on the objects of its
    footprint only. *)
Lemma footprint_agree d : ∀ h h' v,
  (∀ l, l ∈ footprint d h v → h' !! l = h !! l) →
  footprint d h' v = footprint d h v ∧ read_node d h' v = read_node d h v.
Proof.
  induction d as [|d IH]; intros h h' v Hag; [done|].
  destruct v as [| | | | |l]; try done.
  assert (h' !! l = h !! l) as Hl by (apply Hag; left).
  rewrite !read_node_obj. cbn [footprint] in Hag |- *. rewrite Hl.
  destruct (h !! l) as [o|] eqn:Ho; [|done].
  assert (∀ v, v ∈ vals o →
               footprint d h' v = footprint d h v
               ∧ read_node d h' v = read_node d h v) as Hv.
  { intros v Hv. apply IH. intros l' Hl'. apply Hag. right.
    apply list_elem_of_bind. eauto. }
  split.
  - f_equal. apply bind_ext_in. intros v Hin. by apply Hv.
  - cbn. destruct o as [ps|es [|]]; cbn [read_obj]; [| |done].
    + f_equal. apply mapM_ext_in. intros [k v] Hin. cbn [fst snd].
      destruct (Hv v) as [_ ->]; [|done].
      cbn [vals]. apply list_elem_of_fmap. by exists (k, v).
    + f_equal. apply mapM_ext_in. intros [v|] Hin; [|done]. cbn.
      apply Hv. by apply elem_of_vals_JArr.
Qed.

Lemma read_agree d h h' v :
  (∀ l, l ∈ footprint d h v → h' !! l = h !! l) →
  read_node d h' v = read_node d h v.
Proof. intros H. by apply footprint_agree. Qed.


(** ** Setting a name, on the object and on the tree *)

Lemma read_obj_JObj d h ps t :
  read_obj d h (JObj ps) = Some t ↔
  ∃ fs, t = NMap fs ∧ Forall2 (entry_reads d h) ps fs.
Proof.
  cbn [read_obj]. split.
  - destruct (mapM _ ps) as [fs|] eqn:Hm; [|done]. intros [= <-].
    exists fs. split; [done|]. apply mapM_Some in Hm.
    eapply Forall2_impl; [exact Hm|]. intros [k v] [k' n]. cbn.
    destruct (read_node d h v) eqn:E; [|done]. intros [= ? ?]. subst. by split.
  - intros (fs & -> & Hall).
    assert (mapM (λ kv, pair kv.1 <$> read_node d h kv.2) ps = Some fs)
      as ->; [|done].
    apply mapM_Some. eapply Forall2_impl; [exact Hall|].
    intros [k v] [k' n] [Hk Hr]. cbn in Hk, Hr |- *. by rewrite Hr, Hk.
Qed.

Lemma read_obj_JArr d h es ps t :
  read_obj d h (JArr es ps) = Some t ↔
  ∃ vs items, ps = [] ∧ es = Some <$> vs ∧ t = NSeq items
              ∧ Forall2 (λ v n, read_node d h v = Some n) vs items.
Proof.
  cbn [read_obj]. split.
  - destruct ps; [|done].
    destruct (mapM _ es) as [items|] eqn:Hm; [|done]. intros [= <-].
    apply mapM_Some, Forall2_present in Hm as (vs & -> & Hvs).
    by exists vs, items.
  - intros (vs & items & -> & -> & -> & Hall).
    assert (mapM (λ e, e ≫= read_node d h) (Some <$> vs) = Some items)
      as ->; [|done].
    apply mapM_Some, Forall2_fmap_l. eapply Forall2_impl; [exact Hall|]. done.
Qed.

Lemma vals_JArr_present vs : vals (JArr (Some <$> vs) []) = vs.
Proof.
  cbn [vals]. rewrite app_nil_r. induction vs as [|v vs IH]; [done|].
  cbn. by rewrite IH.
Qed.

Lemma entry_reads_get d h ps fs k :
  Forall2 (entry_reads d h) ps fs →
  match Deep.fields_get k fs with
  | None => alist_get k ps = None
  | Some told =>
      ∃ old, alist_get k ps = Some old ∧ read_node d h old = Some told
  end.
Proof.
  induction 1 as [|[k1 v] [k2 n] ps fs [Hk Hr] _ IH]; [done|].
  cbn in Hk, Hr. subst k2. cbn.
  destruct (decide (k1 = k)); [|done]. by exists v.
Qed.

(** The two lists split alike around the name that is set. *)
Lemma replace_split d h ps fs k x n told :
  Forall2 (entry_reads d h) ps fs →
  Deep.fields_get k fs = Some told →
  ∃ pre post fpre fpost old,
    ps = pre ++ (k, old) :: post
    ∧ fs = fpre ++ (k, told) :: fpost
    ∧ Forall2 (entry_reads d h) pre fpre
    ∧ Forall2 (entry_reads d h) post fpost
    ∧ alist_get k ps = Some old
    ∧ read_node d h old = Some told
    ∧ alist_replace k x ps = pre ++ (k, x) :: post
    ∧ Deep.fields_replace k n fs = fpre ++ (k, n) :: fpost.
Proof.
  induction 1 as [|[k1 v] [k2 n1] ps fs [Hk Hr] Hall IH]; [done|].
  cbn in Hk, Hr. subst k2. cbn.
  destruct (decide (k1 = k)) as [->|Hne].
  - intros [= ->]. by exists [], ps, [], fs, v.
  - intros (pre & post & fpre & fpost & old & Hps & Hfs & H1 & H2 & Hg & Ho
            & Hrp & Hfr)%IH.
    exists ((k1, v) :: pre), post, ((k1, n1) :: fpre), fpost, old.
    rewrite Hrp, Hfr. split_and!; try done; try by subst.
    by constructor.
Qed.

Lemma insert_index_split d h ps fs i k x n :
  Forall2 (entry_reads d h) ps fs →
  ∃ pre post fpre fpost,
    ps = pre ++ post
    ∧ fs = fpre ++ fpost
    ∧ Forall2 (entry_reads d h) pre fpre
    ∧ Forall2 (entry_reads d h) post fpost
    ∧ alist_insert_index i k x ps = pre ++ (k, x) :: post
    ∧ Deep.fields_insert_index i k n fs = fpre ++ (k, n) :: fpost.
Proof.
  induction 1 as [|[k1 v] [k2 n1] ps fs [Hk Hr] Hall IH].
  { by exists [], [], [], []. }
  cbn in Hk, Hr. subst k2. cbn.
  destruct (index_of k1) as [j|]; [destruct (decide (j < i))|].
  - destruct IH as (pre & post & fpre & fpost & Hps & Hfs & H1 & H2 & Hi & Hf).
    exists ((k1, v) :: pre), post, ((k1, n1) :: fpre), fpost.
    rewrite Hi, Hf, Hps, Hfs. split_and!; try done. by constructor.
  - exists [], ((k1, v) :: ps), [], ((k1, n1) :: fs).
    split_and!; try done. by constructor.
  - exists [], ((k1, v) :: ps), [], ((k1, n1) :: fs).
    split_and!; try done. by constructor.
Qed.

Lemma alist_set_split d h ps fs k x n :
  Forall2 (entry_reads d h) ps fs →
  ∃ pre post fpre fpost,
    alist_set k x ps = pre ++ (k, x) :: post
    ∧ Deep.fields_set k n fs = fpre ++ (k, n) :: fpost
    ∧ Forall2 (entry_reads d h) pre fpre
    ∧ Forall2 (entry_reads d h) post fpost
    ∧ match Deep.fields_get k fs with
      | None => alist_get k ps = None ∧ ps = pre ++ post
      | Some told =>
          ∃ old, alist_get k ps = Some old ∧ ps = pre ++ (k, old) :: post
                 ∧ read_node d h old = Some told
      end.
Proof.
  intros Hall. pose proof (entry_reads_get d h ps fs k Hall) as Hg.
  unfold alist_set, Deep.fields_set.
  destruct (Deep.fields_get k fs) as [told|] eqn:Hf.
  - destruct (replace_split d h ps fs k x n told Hall Hf)
      as (pre & post & fpre & fpost & old & Hps & Hfs & H1 & H2 & Hold & Hr
          & -> & ->).
    rewrite Hold. exists pre, post, fpre, fpost. split_and!; try done.
    by exists old.
  - rewrite Hg.
    destruct (index_of k) as [i|].
    + destruct (insert_index_split d h ps fs i k x n Hall)
        as (pre & post & fpre & fpost & -> & -> & H1 & H2 & -> & ->).
      exists pre, post, fpre, fpost. by split_and!.
    + exists ps, [], fs, []. rewrite !app_nil_r. by split_and!.
Qed.

Lemma Forall2_reads_agree d h h' (vs : list value) (ns : list Node) :
  (∀ v, v ∈ vs → read_node d h' v = read_node d h v) →
  Forall2 (λ v n, read_node d h v = Some n) vs ns →
  Forall2 (λ v n, read_node d h' v = Some n) vs ns.
Proof.
  intros Hag Hall. induction Hall as [|v n vs ns Hr _ IH]; [done|].
  constructor.
  - rewrite Hag; [done|left].
  - apply IH. intros v' Hv'. apply Hag. by right.
Qed.

Lemma entry_reads_agree d h h' ps fs :
  (∀ v, v ∈ ps.*2 → read_node d h' v = read_node d h v) →
  Forall2 (entry_reads d h) ps fs →
  Forall2 (entry_reads d h') ps fs.
Proof.
  intros Hag Hall. induction Hall as [|[k v] kn ps fs [Hk Hr] _ IH]; [done|].
  constructor.
  - split; [done|]. cbn in Hr |- *. rewrite Hag; [done|left].
  - apply IH. intros v' Hv'. apply Hag. by right.
Qed.

(** The slots of an object around the name that is set: the object with
    the name set holds the new value between the values that were before
    and after it; it reads as the tree with the name set, in any heap in
    which those values read as they did; and what the object held under
    the name is what the tree has there. *)
Lemma obj_set_slots d h o t k x n t' :
  read_obj d h o = Some t →
  Deep.node_set k n t = Some t' →
  ∃ pre post,
    vals (obj_set k x o) = pre ++ x :: post
    ∧ (∀ h', (∀ v, v ∈ pre ++ post → read_node d h' v = read_node d h v) →
             read_node d h' x = Some n →
             read_obj d h' (obj_set k x o) = Some t')
    ∧ match Deep.node_get k t with
      | None => obj_get k o = VUndef ∧ vals o = pre ++ post
      | Some told =>
          ∃ old, obj_get k o = old ∧ vals o = pre ++ old :: post
                 ∧ read_node d h old = Some told
      end.
Proof.
  destruct o as [ps|es ps0].
  - intros (fs & -> & Hall)%read_obj_JObj. cbn [Deep.node_set Deep.node_get].
    destruct (decide (k = "__proto__"%string)); [done|]. intros [= <-].
    destruct (alist_set_split d h ps fs k x n Hall)
      as (pre & post & fpre & fpost & Hset & Hfset & H1 & H2 & Hget).
    exists pre.*2, post.*2. cbn [obj_set vals obj_get]. rewrite Hset, Hfset.
    split_and!.
    + by rewrite fmap_app.
    + intros h' Hag Hx. apply read_obj_JObj. eexists. split; [done|].
      apply Forall2_app; [|constructor; [done|]].
      * eapply entry_reads_agree; [|done]. intros v Hv. apply Hag.
        apply elem_of_app. by left.
      * eapply entry_reads_agree; [|done]. intros v Hv. apply Hag.
        apply elem_of_app. by right.
    + destruct (Deep.fields_get k fs) as [told|].
      * destruct Hget as (old & -> & -> & Hr). exists old.
        by rewrite fmap_app.
      * destruct Hget as [-> ->]. by rewrite fmap_app.
  - intros (vs & items & -> & -> & -> & Hall)%read_obj_JArr.
    cbn [Deep.node_set Deep.node_get obj_set obj_get].
    pose proof (Forall2_length _ _ _ Hall) as Hlen.
    destruct (index_of k) as [i|]; [|done]. cbn [mbind option_bind].
    destruct (decide (i < length items)) as [Hi|Hi].
    + intros [= <-].
      destruct (lookup_lt_is_Some_2 vs i) as [old Hold]; [lia|].
      pose proof (take_drop_middle vs i old Hold) as Hvs.
      assert (length (take i vs) = i) as Hpre by (rewrite length_take; lia).
      revert Hvs Hpre. generalize (take i vs) (drop (S i) vs).
      intros pre post <- Hpre. clear Hold.
      apply Forall2_app_inv_l in Hall as (ipre & ipost' & Hp & Hq & ->).
      apply Forall2_cons_inv_l in Hq as (told & ipost & Ho & Hq & ->).
      pose proof (Forall2_length _ _ _ Hp) as Hlp.
      exists pre, post.
      assert (elems_set i x (Some <$> pre ++ old :: post)
              = Some <$> pre ++ x :: post) as ->.
      { unfold elems_set.
        rewrite decide_True
          by (rewrite length_fmap, length_app; simpl; lia).
        rewrite <- list_fmap_insert. f_equal.
        rewrite insert_app_r_alt by lia.
        by replace (i - length pre) with 0 by lia. }
      rewrite !vals_JArr_present. split_and!; [done| |].
      * intros h' Hag Hx. apply read_obj_JArr.
        exists (pre ++ x :: post), (<[i := n]> (ipre ++ told :: ipost)).
        split_and!; try done.
        rewrite insert_app_r_alt by lia.
        replace (i - length ipre) with 0 by lia. cbn.
        apply Forall2_app; [|constructor; [done|]].
        -- eapply Forall2_reads_agree; [|done]. intros v Hv. apply Hag.
           apply elem_of_app. by left.
        -- eapply Forall2_reads_agree; [|done]. intros v Hv. apply Hag.
           apply elem_of_app. by right.
      * rewrite lookup_app_r by lia.
        replace (i - length ipre) with 0 by lia. cbn.
        exists old. split_and!; [|done|done].
        rewrite list_lookup_fmap, lookup_app_r by lia.
        by replace (i - length pre) with 0 by lia.
    + destruct (decide (i = length items)) as [->|]; [|done]. intros [= <-].
      exists vs, [].
      assert (elems_set (length items) x (Some <$> vs) = Some <$> vs ++ [x])
        as ->.
      { unfold elems_set. rewrite length_fmap, decide_False by lia.
        replace (length items - length vs) with 0 by lia.
        by rewrite fmap_app. }
      rewrite !vals_JArr_present, !app_nil_r. split_and!; [done| |].
      * intros h' Hag Hx. apply read_obj_JArr.
        exists (vs ++ [x]), (items ++ [n]). split_and!; try done.
        apply Forall2_app; [|by constructor].
        eapply Forall2_reads_agree; [|done]. done.
      * rewrite lookup_ge_None_2 by lia. split; [|done].
        rewrite list_lookup_fmap, lookup_ge_None_2 by lia. done.
Qed.

(** ** [_.merge] goes by the tree *)

Lemma merge_value_NMap fs dst :
  Deep.merge_value (NMap fs) dst
  = Deep.map_base dst ≫= Deep.fold_entries Deep.merge_value fs.
Proof.
  cbn [Deep.merge_value]. destruct (Deep.map_base dst) as [base|]; [|done].
  cbn [mbind option_bind]. revert base.
  induction fs as [|[k c] fs IH]; intros base; [done|].
  cbn [Deep.fold_entries].
  destruct (Deep.merge_value c (Deep.node_get k base)) as [x|]; [|done].
  cbn [mbind option_bind].
  destruct (Deep.node_set k x base) as [acc|]; [|done].
  apply IH.
Qed.

Lemma merge_value_NSeq items dst :
  Deep.merge_value (NSeq items) dst
  = Deep.seq_base dst
      ≫= Deep.fold_entries Deep.merge_value
           (imap (λ i c, (index_key i, c)) items).
Proof.
  cbn [Deep.merge_value]. destruct (Deep.seq_base dst) as [base|]; [|done].
  cbn [mbind option_bind].
  change (λ i c, (index_key i, c))
    with (λ i (c : Node), (index_key (0 + i), c)).
  generalize 0. revert base.
  induction items as [|c items IH]; intros base i; [done|].
  cbn [imap Deep.fold_entries]. rewrite Nat.add_0_r.
  destruct (Deep.merge_value c (Deep.node_get (index_key i) base)) as [x|];
    [|done].
  cbn [mbind option_bind].
  destruct (Deep.node_set (index_key i) x base) as [acc|]; [|done].
  cbn [mbind option_bind]. rewrite IH. f_equal.
  apply imap_ext. intros j c' _. cbn. do 2 f_equal. lia.
Qed.

Lemma merge_value_scalar c dst :
  match c with NMap _ | NSeq _ => False | _ => True end →
  Deep.merge_value c dst = Some c.
Proof. by destruct c. Qed.

Lemma read_node_scalar_tree d h v c :
  isObject v = false → read_node d h v = Some c →
  v ≠ VUndef ∧ match c with NMap _ | NSeq _ => False | _ => True end.
Proof. destruct d, v; try done; by intros _ [= <-]. Qed.

(** The entries [baseMerge] takes from a source, and the entries of the
    tree it reads as. *)
Lemma merge_entries_reads d h src ts :
  read_obj d h src = Some ts →
  Forall2 (entry_reads d h) (merge_entries src) (Deep.node_entries ts)
  ∧ (merge_entries src).*2 = vals src.
Proof.
  destruct src as [ps|es ps0].
  - intros (fs & -> & Hall)%read_obj_JObj. done.
  - intros (vs & items & -> & -> & -> & Hall)%read_obj_JArr.
    cbn [merge_entries Deep.node_entries]. rewrite app_nil_r, vals_JArr_present.
    change (λ i c, (index_key i, c))
      with (λ i (c : Node), (index_key (0 + i), c)).
    change (λ i e, (index_key i, default VUndef e))
      with (λ i (e : option value), (index_key (0 + i), default VUndef e)).
    generalize 0. induction Hall as [|v n vs items Hr _ IH]; intros i; [done|].
    cbn [fmap list_fmap imap]. rewrite Nat.add_0_r.
    destruct (IH (S i)) as [IH1 IH2]. split.
    + constructor; [done|].
      erewrite imap_ext; [erewrite (imap_ext _ _ items); [exact IH1|]|];
        intros j ? _; cbn; do 2 f_equal; lia.
    + cbn. f_equal. etrans; [|exact IH2]. f_equal. apply imap_ext.
      intros j ? _. cbn. do 2 f_equal. lia.
Qed.

Lemma footprint_lt d : ∀ h v n l,
  read_node d h v = Some n → l ∈ footprint d h v → l < length h.
Proof.
  induction d as [|d IH]; intros h v n l; [done|].
  destruct v as [| | | | |l0]; try (by intros _ ?%elem_of_nil).
  rewrite read_node_obj. cbn [footprint].
  destruct (h !! l0) as [o|] eqn:Ho; [|done]. cbn.
  intros Hr [->|Hin]%elem_of_cons; [by eapply lookup_lt_Some|].
  apply list_elem_of_bind in Hin as (v & Hl & Hv).
  destruct o as [ps|es ps0].
  - apply read_obj_JObj in Hr as (fs & -> & Hall).
    cbn [vals] in Hv. apply list_elem_of_fmap in Hv as ([k v'] & -> & Hin).
    apply list_elem_of_lookup_1 in Hin as [i Hi].
    destruct (Forall2_lookup_l _ _ _ _ _ Hall Hi) as (kn & _ & _ & Hr).
    by eapply IH.
  - apply read_obj_JArr in Hr as (vs & items & -> & -> & -> & Hall).
    rewrite vals_JArr_present in Hv.
    apply list_elem_of_lookup_1 in Hv as [i Hi].
    destruct (Forall2_lookup_l _ _ _ _ _ Hall Hi) as (kn & _ & Hr).
    by eapply IH.
Qed.

Lemma read_obj_footprint_lt d h o t l :
  read_obj d h o = Some t → l ∈ vals o ≫= footprint d h → l < length h.
Proof.
  intros Hr (v & Hl & Hv)%list_elem_of_bind.
  destruct o as [ps|es ps0].
  - apply read_obj_JObj in Hr as (fs & -> & Hall).
    cbn [vals] in Hv. apply list_elem_of_fmap in Hv as ([k v'] & -> & Hin).
    apply list_elem_of_lookup_1 in Hin as [i Hi].
    destruct (Forall2_lookup_l _ _ _ _ _ Hall Hi) as (kn & _ & _ & Hr).
    by eapply footprint_lt.
  - apply read_obj_JArr in Hr as (vs & items & -> & -> & -> & Hall).
    rewrite vals_JArr_present in Hv.
    apply list_elem_of_lookup_1 in Hv as [i Hi].
    destruct (Forall2_lookup_l _ _ _ _ _ Hall Hi) as (kn & _ & Hr).
    by eapply footprint_lt.
Qed.

Lemma entry_reads_footprint_lt d h kvs kcs l :
  Forall2 (entry_reads d h) kvs kcs →
  l ∈ kvs.*2 ≫= footprint d h → l < length h.
Proof.
  intros Hall (v & Hl & Hv)%list_elem_of_bind.
  apply list_elem_of_fmap in Hv as ([k v'] & -> & Hin).
  apply list_elem_of_lookup_1 in Hin as [i Hi].
  destruct (Forall2_lookup_l _ _ _ _ _ Hall Hi) as (kn & _ & _ & Hr).
  by eapply footprint_lt.
Qed.

(** One part of a list without repetition gives way to another. *)
Lemma NoDup_swap_mid (ld B : nat) (Fpre Fold Fpost Fv R Fnew : list nat) :
  NoDup (ld :: (Fpre ++ Fold ++ Fpost) ++ Fv ++ R) →
  NoDup Fnew →
  (∀ l, l ∈ Fnew → l ∈ Fold ∨ B ≤ l) →
  ld < B →
  (∀ l, l ∈ Fpre ++ Fpost ++ R → l < B) →
  NoDup (ld :: (Fpre ++ Fnew ++ Fpost) ++ R).
Proof.
  rewrite !NoDup_cons, !NoDup_app.
  intros (Hld & (Hpre & Hpre' & Hold & Hold' & Hpost) & Hmid & Hv & Hv' & HR)
         Hnew Hin HB Hlt.
  assert (∀ l, l ∈ Fpre → l < B) as Hlt1.
  { intros l Hl. apply Hlt. rewrite !elem_of_app. auto. }
  assert (∀ l, l ∈ Fpost → l < B) as Hlt2.
  { intros l Hl. apply Hlt. rewrite !elem_of_app. auto. }
  assert (∀ l, l ∈ R → l < B) as Hlt3.
  { intros l Hl. apply Hlt. rewrite !elem_of_app. auto. }
  assert (∀ l, l ∈ Fpre → l ∉ Fold) as Hd1.
  { intros l Hl H. apply (Hpre' l Hl). rewrite elem_of_app. auto. }
  assert (∀ l, l ∈ Fpre → l ∉ Fpost) as Hd2.
  { intros l Hl H. apply (Hpre' l Hl). rewrite elem_of_app. auto. }
  assert (∀ l, l ∈ Fpre → l ∉ R) as Hd3.
  { intros l Hl H. apply (Hmid l); rewrite !elem_of_app; auto. }
  assert (∀ l, l ∈ Fold → l ∉ R) as Hd4.
  { intros l Hl H. apply (Hmid l); rewrite !elem_of_app; auto. }
  assert (∀ l, l ∈ Fpost → l ∉ R) as Hd5.
  { intros l Hl H. apply (Hmid l); rewrite !elem_of_app; auto. }
  assert (ld ∉ Fpre ∧ ld ∉ Fold ∧ ld ∉ Fpost ∧ ld ∉ R) as (Hl1 & Hl2 & Hl3 & Hl4).
  { split_and!; intros H; apply Hld; rewrite !elem_of_app; auto. }
  split_and!; try done.
  - rewrite !elem_of_app. intros [[H|[H|H]]|H]; try done.
    destruct (Hin _ H); [done|lia].
  - intros l Hl [H|H]%elem_of_app; [|by apply (Hd2 l)].
    destruct (Hin _ H) as [H'|H']; [by apply (Hd1 l)|].
    specialize (Hlt1 l Hl). lia.
  - intros l Hl H. destruct (Hin _ Hl) as [H'|H']; [by apply (Hold' l)|].
    specialize (Hlt2 l H). lia.
  - intros l [Hl|[Hl|Hl]%elem_of_app]%elem_of_app H.
    + by apply (Hd3 l).
    + destruct (Hin _ Hl) as [H'|H']; [by apply (Hd4 l)|].
      specialize (Hlt3 l H). lia.
    + by apply (Hd5 l).
Qed.

Lemma deref_Ok l o s : st_heap s !! l = Some o → deref l s = Ok o s.
Proof. intros Ho. unfold deref, mbind, M_bind. by rewrite get_heap_Ok, Ho. Qed.

Lemma assignMergeValue_Ok ld od k v s :
  st_heap s !! ld = Some od → v ≠ VUndef →
  assignMergeValue ld k v s
  = Ok () (mkState (<[ld := obj_set k v od]> (st_heap s))
                   (st_manager s) (st_trace s)).
Proof.
  intros Ho Hv. unfold assignMergeValue.
  rewrite (bind_Ok _ _ _ _ _ (deref_Ok _ _ _ Ho)).
  rewrite bool_decide_eq_false_2 by done. cbn [andb].
  exact (assign_Ok ld od k v s Ho).
Qed.

Lemma bind_agree d h h' (vs : list value) :
  (∀ l, l ∈ vs ≫= footprint d h → h' !! l = h !! l) →
  vs ≫= footprint d h' = vs ≫= footprint d h
  ∧ ∀ v, v ∈ vs → read_node d h' v = read_node d h v.
Proof.
  intros Hag.
  assert (∀ v, v ∈ vs → footprint d h' v = footprint d h v
                        ∧ read_node d h' v = read_node d h v) as Hv.
  { intros v Hv. apply footprint_agree. intros l Hl. apply Hag.
    apply list_elem_of_bind. eauto. }
  split.
  - apply bind_ext_in. intros v Hin. by apply Hv.
  - intros v Hin. by apply Hv.
Qed.

Lemma read_obj_agree d h h' o :
  (∀ l, l ∈ vals o ≫= footprint d h → h' !! l = h !! l) →
  read_obj d h' o = read_obj d h o.
Proof.
  intros Hag. destruct (bind_agree d h h' (vals o) Hag) as [_ Hv].
  destruct o as [ps|es [|]]; cbn [read_obj]; [| |done].
  - f_equal. apply mapM_ext_in. intros [k v] Hin. cbn [fst snd].
    rewrite Hv; [done|]. cbn [vals]. apply list_elem_of_fmap. by exists (k, v).
  - f_equal. apply mapM_ext_in. intros [v|] Hin; [|done]. cbn.
    apply Hv. by apply elem_of_vals_JArr.
Qed.

(** The end of a turn of the loop: the value is written under the name. *)
Lemma entry_finish n s s2 ld od td k nv x td' Fv R :
  st_heap s !! ld = Some od →
  read_obj n (st_heap s) od = Some td →
  Deep.node_set k x td = Some td' →
  NoDup (ld :: (vals od ≫= footprint n (st_heap s)) ++ Fv ++ R) →
  (∀ l, l ∈ R → l < length (st_heap s)) →
  nv ≠ VUndef →
  st_heap s2 !! ld = Some od →
  (∀ l, l < length (st_heap s) → l ≠ ld →
        l ∉ footprint n (st_heap s) (obj_get k od) →
        st_heap s2 !! l = st_heap s !! l) →
  length (st_heap s) ≤ length (st_heap s2) →
  read_node n (st_heap s2) nv = Some x →
  NoDup (footprint n (st_heap s2) nv) →
  (∀ l, l ∈ footprint n (st_heap s2) nv →
        l ∈ footprint n (st_heap s) (obj_get k od) ∨ length (st_heap s) ≤ l) →
  ∃ s1 od1,
    assignMergeValue ld k nv s2 = Ok () s1
    ∧ st_heap s1 !! ld = Some od1
    ∧ read_obj n (st_heap s1) od1 = Some td'
    ∧ NoDup (ld :: (vals od1 ≫= footprint n (st_heap s1)) ++ R)
    ∧ (∀ l, l ∈ vals od1 ≫= footprint n (st_heap s1) →
            l ∈ vals od ≫= footprint n (st_heap s) ∨ length (st_heap s) ≤ l)
    ∧ (∀ l, l < length (st_heap s) → l ≠ ld →
            l ∉ vals od ≫= footprint n (st_heap s) →
            st_heap s1 !! l = st_heap s !! l)
    ∧ length (st_heap s) ≤ length (st_heap s1)
    ∧ st_manager s1 = st_manager s2
    ∧ st_trace s1 = st_trace s2.
Proof.
  intros Hld Hod Hset Hnd HR Hnv Hld2 Hframe Hlen Hx Hndx Hinx.
  set (h := st_heap s) in *. set (h2 := st_heap s2) in *.
  destruct (obj_set_slots n h od td k nv x td' Hod Hset)
    as (pre & post & Hvals & Hread & Hmatch).
  set (Fpre := pre ≫= footprint n h). set (Fpost := post ≫= footprint n h).
  set (Fold := footprint n h (obj_get k od)) in *.
  assert (vals od ≫= footprint n h = Fpre ++ Fold ++ Fpost) as Hfp.
  { destruct (Deep.node_get k td) as [told|].
    - destruct Hmatch as (old & Hold & -> & _). subst Fold. rewrite Hold.
      rewrite bind_app, bind_cons. done.
    - destruct Hmatch as [Hu ->]. subst Fold. rewrite Hu.
      rewrite (footprint_scalar n h VUndef) by done. by rewrite bind_app. }
  rewrite Hfp in Hnd.
  assert (∀ l, l ∈ Fpre ++ Fpost → l < length h ∧ l ≠ ld ∧ l ∉ Fold) as Hpp.
  { intros l Hl.
    assert (l ∈ vals od ≫= footprint n h) as Hin.
    { rewrite Hfp, !elem_of_app. apply elem_of_app in Hl. tauto. }
    split; [by eapply read_obj_footprint_lt|].
    apply NoDup_cons in Hnd as [Hnin Hnd]. split.
    - intros ->. apply Hnin. rewrite <- Hfp, elem_of_app. by left.
    - apply NoDup_app in Hnd as (Hnd & _ & _).
      apply NoDup_app in Hnd as (_ & H1 & Hnd).
      apply NoDup_app in Hnd as (_ & H2 & _).
      intros Ho. apply elem_of_app in Hl as [Hl|Hl].
      + apply (H1 l Hl). apply elem_of_app. by left.
      + by apply (H2 l Ho). }
  set (h1 := <[ld := obj_set k nv od]> h2).
  assert (ld < length h) as Hldlt by (by eapply lookup_lt_Some).
  assert (∀ l, l ∈ Fpre ++ Fpost → h1 !! l = h !! l) as Hag.
  { intros l Hl. destruct (Hpp l Hl) as (H1 & H2 & H3). unfold h1.
    rewrite list_lookup_insert_ne by done. by apply Hframe. }
  destruct (bind_agree n h h1 pre) as [Hfpre Hrpre].
  { intros l Hl. apply Hag, elem_of_app. by left. }
  destruct (bind_agree n h h1 post) as [Hfpost Hrpost].
  { intros l Hl. apply Hag, elem_of_app. by right. }
  assert (ld ∉ footprint n h2 nv) as Hldx.
  { intros Hin. destruct (Hinx _ Hin) as [Ho|Ho]; [|lia].
    apply NoDup_cons in Hnd as [Hnin _]. apply Hnin.
    rewrite !elem_of_app. auto. }
  destruct (footprint_agree n h2 h1 nv) as [Hfx Hrx].
  { intros l Hl. unfold h1. apply list_lookup_insert_ne. by intros <-. }
  exists (mkState h1 (st_manager s2) (st_trace s2)), (obj_set k nv od).
  split; [by apply assignMergeValue_Ok|]. cbn [st_heap st_manager st_trace].
  assert ((vals (obj_set k nv od)) ≫= footprint n h1
          = Fpre ++ footprint n h2 nv ++ Fpost) as Hfp1.
  { by rewrite Hvals, bind_app, bind_cons, Hfx, Hfpre, Hfpost. }
  rewrite Hfp1. split_and!; try done.
  - unfold h1. apply list_lookup_insert_eq. fold h2 in Hld2.
    by eapply lookup_lt_Some.
  - apply Hread; [|by rewrite Hrx].
    intros v [Hv|Hv]%elem_of_app; [by apply Hrpre|by apply Hrpost].
  - eapply (NoDup_swap_mid ld (length h) Fpre Fold Fpost Fv R); try done.
    intros l [Hl|[Hl|Hl]%elem_of_app]%elem_of_app.
    + apply Hpp, elem_of_app. by left.
    + apply Hpp, elem_of_app. by right.
    + by apply HR.
  - intros l [Hl|[Hl|Hl]%elem_of_app]%elem_of_app.
    + left. rewrite Hfp, !elem_of_app. auto.
    + destruct (Hinx l Hl); [left|by right]. rewrite Hfp, !elem_of_app. auto.
    + left. rewrite Hfp, !elem_of_app. auto.
  - intros l Hl Hne Hnin. unfold h1. rewrite list_lookup_insert_ne by done.
    apply Hframe; [done..|]. intros Hin. apply Hnin.
    rewrite Hfp, !elem_of_app. auto.
  - unfold h1. by rewrite length_insert.
Qed.

Lemma read_obj_empty d h b :
  read_obj d h (if b : bool then JArr [] [] else JObj [])
  = Some (if b then NSeq [] else NMap []).
Proof. by destruct b. Qed.

(** The container a map or a sequence of the source is merged into: the
    one the destination holds under the name, or a new one. *)
Lemma merge_target m s l srcValue c objValue dst x :
  st_heap s !! l = Some srcValue →
  read_obj m (st_heap s) srcValue = Some c →
  match dst with
  | None => objValue = VUndef
  | Some told => read_node (S m) (st_heap s) objValue = Some told
  end →
  NoDup (footprint (S m) (st_heap s) objValue
         ++ footprint (S m) (st_heap s) (VRef l)) →
  Deep.merge_value c dst = Some x →
  ∃ isArr l' oc base s_pre,
    isArray objValue s = Ok isArr s
    ∧ (if obj_is_array srcValue then
         if isArr : bool then mret objValue else new_obj (JArr [] [])
       else
         if isObject objValue then mret objValue
         else new_obj (JObj [])) s = Ok (VRef l') s_pre
    ∧ Deep.merge_into c base = Some x
    ∧ st_heap s_pre !! l' = Some oc
    ∧ read_obj m (st_heap s_pre) oc = Some base
    ∧ read_obj m (st_heap s_pre) srcValue = Some c
    ∧ NoDup (l' :: (vals oc ≫= footprint m (st_heap s_pre))
                ++ (vals srcValue ≫= footprint m (st_heap s_pre)))
    ∧ l' ≠ l
    ∧ (∀ l0, l0 < length (st_heap s) → st_heap s_pre !! l0 = st_heap s !! l0)
    ∧ length (st_heap s) ≤ length (st_heap s_pre)
    ∧ (∀ l0, l0 ∈ l' :: (vals oc ≫= footprint m (st_heap s_pre)) →
             l0 ∈ footprint (S m) (st_heap s) objValue
             ∨ length (st_heap s) ≤ l0)
    ∧ st_manager s_pre = st_manager s
    ∧ st_trace s_pre = st_trace s.
Proof.
  intros Hl Hc Hdst Hnd Hmv. set (h := st_heap s) in *.
  (* the two ways to go on *)
  match goal with |- ?G => assert (∀ lo oo base isArr,
            objValue = VRef lo → h !! lo = Some oo →
            read_obj m h oo = Some base →
            Deep.merge_into c base = Some x →
            isArr = obj_is_array oo →
            (if obj_is_array srcValue then
               if isArr : bool then mret objValue else new_obj (JArr [] [])
             else
               if isObject objValue then mret objValue
               else new_obj (JObj [])) s = Ok objValue s →
            G) as Hplace end.
  { intros lo oo base isArr -> Hlo Hoo Hmi -> Hcomp.
    exists (obj_is_array oo), lo, oo, base, s.
    rewrite (footprint_ref m h lo oo Hlo) in Hnd.
    rewrite (footprint_ref m h l srcValue Hl) in Hnd.
    split; [by apply isArray_Ok|]. split; [exact Hcomp|].
    split_and!; try done.
    - eapply sublist_NoDup; [exact Hnd|]. cbn. apply sublist_skip.
      apply sublist_app; [done|]. by apply sublist_cons.
    - intros ->. apply NoDup_app in Hnd as (_ & Hd & _).
      apply (Hd l); left.
    - intros l0 Hl0. left. by rewrite (footprint_ref m h lo oo Hlo). }
  match goal with |- ?G => assert (∀ isArr b,
            isArray objValue s = Ok isArr s →
            b = obj_is_array srcValue →
            Deep.merge_into c (if b then NSeq [] else NMap []) = Some x →
            (if obj_is_array srcValue then
               if isArr : bool then mret objValue else new_obj (JArr [] [])
             else
               if isObject objValue then mret objValue
               else new_obj (JObj [])) s
            = new_obj (if b then JArr [] [] else JObj []) s →
            G) as Hfresh end.
  { intros isArr b HisArr Hb Hmi Hcomp.
    set (e := if b then JArr [] [] else JObj []) in *.
    exists isArr, (length h), e, (if b then NSeq [] else NMap []),
      (mkState (h ++ [e]) (st_manager s) (st_trace s)).
    cbn [st_heap st_manager st_trace].
    assert (vals e = []) as Hve by (by destruct b).
    assert (∀ l0, l0 ∈ vals srcValue ≫= footprint m h →
                  (h ++ [e]) !! l0 = h !! l0) as Hag.
    { intros l0 Hl0. apply lookup_app_l. by eapply read_obj_footprint_lt. }
    split; [done|]. split; [by rewrite Hcomp, new_obj_eq|].
    split_and!; try done.
    - by rewrite lookup_app_r, Nat.sub_diag by done.
    - apply read_obj_empty.
    - by rewrite (read_obj_agree m h (h ++ [e]) srcValue Hag).
    - rewrite Hve. cbn.
      destruct (bind_agree m h (h ++ [e]) (vals srcValue) Hag) as [-> _].
      apply NoDup_cons. split.
      + intros Hin. eapply read_obj_footprint_lt in Hin; [|done]. lia.
      + rewrite (footprint_ref m h l srcValue Hl) in Hnd.
        apply NoDup_app in Hnd as (_ & _ & Hnd).
        by apply NoDup_cons in Hnd as [_ Hnd].
    - apply lookup_lt_Some in Hl. fold h in Hl. lia.
    - intros l0 Hl0. by apply lookup_app_l.
    - rewrite length_app. lia.
    - rewrite Hve. cbn. intros l0 ->%list_elem_of_singleton. by right. }
  (* which way, by the kinds *)
  destruct srcValue as [ps|es ps0].
  - apply read_obj_JObj in Hc as Hc'. destruct Hc' as (fs & -> & _).
    rewrite merge_value_NMap in Hmv. cbn [obj_is_array] in *.
    destruct dst as [told|].
    + destruct objValue as [| | | | |lo];
        try (destruct told; try done;
             eapply (Hfresh false false); by try done).
      rewrite read_node_obj in Hdst.
      destruct (h !! lo) as [oo|] eqn:Hlo; [|done]. cbn in Hdst.
      eapply (Hplace lo oo told); try done.
      destruct oo as [ps'|es' ps0'].
      * apply read_obj_JObj in Hdst as (fd & -> & _). done.
      * apply read_obj_JArr in Hdst as (? & ? & _ & _ & -> & _). done.
    + subst objValue. eapply (Hfresh false false); by try done.
  - apply read_obj_JArr in Hc as Hc'.
    destruct Hc' as (vs & items & -> & -> & -> & _).
    rewrite merge_value_NSeq in Hmv. cbn [obj_is_array] in *.
    destruct dst as [told|].
    + destruct objValue as [| | | | |lo];
        try (destruct told; try done;
             eapply (Hfresh false true); by try done).
      rewrite read_node_obj in Hdst.
      destruct (h !! lo) as [oo|] eqn:Hlo; [|done]. cbn in Hdst.
      destruct oo as [ps'|es' ps0'].
      * apply read_obj_JObj in Hdst as Hd'. destruct Hd' as (fd & -> & _).
        cbn [Deep.seq_base] in Hmv.
        destruct (decide (is_Some (Deep.fields_get "length" fd))); [done|].
        eapply (Hfresh false true); try done.
        by apply (isArray_Ok lo (JObj ps')).
      * apply read_obj_JArr in Hdst as Hd'.
        destruct Hd' as (? & ? & _ & _ & -> & _).
        eapply (Hplace lo _ _ true); try done.
    + subst objValue. eapply (Hfresh false true); by try done.
Qed.

(** One turn of the loop of [baseMerge]. *)
Lemma baseMerge_entry_tree n :
  (∀ m, n = S m → merges_by_tree m) →
  ∀ s ld od td k v c x td' R,
    st_heap s !! ld = Some od →
    read_obj n (st_heap s) od = Some td →
    read_node n (st_heap s) v = Some c →
    NoDup (ld :: (vals od ≫= footprint n (st_heap s))
              ++ footprint n (st_heap s) v ++ R) →
    (∀ l, l ∈ R → l < length (st_heap s)) →
    Deep.merge_value c (Deep.node_get k td) = Some x →
    Deep.node_set k x td = Some td' →
    ∃ s1 od1,
      baseMerge_entry n ld k v s = Ok () s1
      ∧ st_heap s1 !! ld = Some od1
      ∧ read_obj n (st_heap s1) od1 = Some td'
      ∧ NoDup (ld :: (vals od1 ≫= footprint n (st_heap s1)) ++ R)
      ∧ (∀ l, l ∈ vals od1 ≫= footprint n (st_heap s1) →
              l ∈ vals od ≫= footprint n (st_heap s)
              ∨ length (st_heap s) ≤ l)
      ∧ (∀ l, l < length (st_heap s) → l ≠ ld →
              l ∉ vals od ≫= footprint n (st_heap s) →
              st_heap s1 !! l = st_heap s !! l)
      ∧ length (st_heap s) ≤ length (st_heap s1)
      ∧ st_manager s1 = st_manager s
      ∧ st_trace s1 = st_trace s.
Proof.
  intros IH s ld od td k v c x td' R Hld Hod Hv Hnd HR Hmv Hset.
  destruct (isObject v) eqn:Hobj.
  2:{ destruct (read_node_scalar_tree n _ v c Hobj Hv) as [Hne Hsc].
      rewrite (merge_value_scalar c _ Hsc) in Hmv. injection Hmv as <-.
      destruct (entry_finish n s s ld od td k v c td'
                  (footprint n (st_heap s) v) R)
        as (s1 & od1 & H); try done.
      - rewrite footprint_scalar by done. constructor.
      - rewrite footprint_scalar by done. by intros l ?%elem_of_nil.
      - exists s1, od1.
        replace (baseMerge_entry n ld k v) with (assignMergeValue ld k v)
          by (by destruct v).
        done. }
  destruct v as [| | | | |l]; try done.
  destruct n as [|m]; [done|]. specialize (IH m eq_refl).
  set (h := st_heap s) in *.
  rewrite read_node_obj in Hv.
  destruct (h !! l) as [srcValue|] eqn:Hl; [|done]. cbn in Hv.
  (* what the destination holds under the name *)
  destruct (obj_set_slots (S m) h od td k VNull x td' Hod Hset)
    as (pre0 & post0 & _ & _ & Hget).
  assert (∀ l0, l0 ∈ footprint (S m) h (obj_get k od) →
                l0 ∈ vals od ≫= footprint (S m) h) as Hsub.
  { destruct (Deep.node_get k td) as [told|].
    - destruct Hget as (old & <- & -> & _). intros l0 Hl0.
      rewrite bind_app, bind_cons, !elem_of_app. auto.
    - destruct Hget as [-> _]. by intros l0 ?%elem_of_nil. }
  destruct (merge_target m s l srcValue c (obj_get k od)
              (Deep.node_get k td) x Hl Hv)
    as (isArr & l' & oc & base & s_pre & HisArr & Hcomp & Hmi & Hl' & Hoc
        & Hsrc & Hndc & Hne & Hpre & Hlen & Hfc & Hm & Ht); [| |done|].
  { destruct (Deep.node_get k td) as [told|].
    - by destruct Hget as (old & <- & _ & Hr).
    - by destruct Hget as [-> _]. }
  { apply NoDup_cons in Hnd as [_ Hnd].
    apply NoDup_app in Hnd as (Hnd1 & Hd & Hnd2).
    apply NoDup_app in Hnd2 as (Hnd2 & _ & _).
    apply NoDup_app. split_and!; [| |done].
    2:{ intros l0 Hl0%Hsub Hin. apply (Hd l0 Hl0), elem_of_app. by left. }
    destruct (Deep.node_get k td) as [told|].
    - destruct Hget as (old & <- & Hvals & _). rewrite Hvals in Hnd1.
      rewrite bind_app, bind_cons in Hnd1.
      apply NoDup_app in Hnd1 as (_ & _ & Hnd1).
      by apply NoDup_app in Hnd1 as (Hnd1 & _ & _).
    - destruct Hget as [-> _]. constructor. }
  destruct (IH s_pre l' oc base srcValue c x Hl' Hoc Hsrc Hndc Hmi)
    as (s2 & Hrun & Hx & Hndx & Hinx & Hframe & Hlen2 & Hm2 & Ht2).
  assert (ld < length h) as Hldlt by (by eapply lookup_lt_Some).
  assert (ld ∉ vals od ≫= footprint (S m) h) as Hldn.
  { apply NoDup_cons in Hnd as [Hn _].
    apply not_elem_of_app in Hn as [Hn _]. exact Hn. }
  destruct (entry_finish (S m) s s2 ld od td k (VRef l') x td'
              (footprint (S m) h (VRef l)) R)
    as (s1 & od1 & Hfin & H); try done.
  - rewrite Hframe; [by rewrite Hpre|fold h in Hlen; lia|].
    intros Hin. destruct (Hfc ld Hin) as [Ho%Hsub|Ho]; [done|].
    fold h in Ho. lia.
  - intros l0 Hl0 Hne0 Hnin. rewrite Hframe; [by apply Hpre|lia|].
    intros Hin. destruct (Hfc l0 Hin) as [Ho|Ho]; [done|lia].
  - lia.
  - intros l0 Hl0. destruct (Hinx l0 Hl0) as [Hin|Hge]; [|right; lia].
    apply Hfc in Hin. done.
  - exists s1, od1. split.
    + cbn [baseMerge_entry].
      rewrite (bind_Ok _ _ _ _ _ (deref_Ok _ _ _ Hl)).
      rewrite (bind_Ok _ _ _ _ _ (deref_Ok _ _ _ Hld)).
      rewrite (bind_Ok _ _ _ _ _ HisArr).
      rewrite (bind_Ok _ _ _ _ _ Hcomp).
      rewrite bool_decide_eq_false_2 by done.
      rewrite (bind_Ok _ _ _ _ _ Hrun). exact Hfin.
    + destruct H as (H1 & H2 & H3 & H4 & H5 & H6 & H7 & H8).
      split_and!; try done; congruence.
Qed.

(** The loop of [baseMerge]. *)
Lemma baseMerge_each_tree n (ld : loc) t :
  (∀ m, n = S m → merges_by_tree m) →
  ∀ kvs kcs s od td,
    st_heap s !! ld = Some od →
    read_obj n (st_heap s) od = Some td →
    Forall2 (entry_reads n (st_heap s)) kvs kcs →
    NoDup (ld :: (vals od ≫= footprint n (st_heap s))
              ++ (kvs.*2 ≫= footprint n (st_heap s))) →
    Deep.fold_entries Deep.merge_value kcs td = Some t →
    ∃ s', baseMerge_each n ld kvs s = Ok () s'
          ∧ merged_into n ld (ld :: (vals od ≫= footprint n (st_heap s)))
              s s' t.
Proof.
  intros IH kvs. induction kvs as [|[k v] kvs IHk];
    intros kcs s od td Hld Hod Hall Hnd Hfold.
  { apply Forall2_nil_inv_l in Hall as ->. injection Hfold as <-.
    exists s. split; [done|]. rewrite app_nil_r in Hnd.
    unfold merged_into. rewrite read_node_obj, Hld.
    rewrite (footprint_ref n _ ld od Hld). split_and!; try done.
    intros l Hl. by left. }
  apply Forall2_cons_inv_l in Hall as ([k' c] & kcs' & [Hk Hc] & Hall & ->).
  cbn in Hk, Hc. subst k'. cbn [Deep.fold_entries] in Hfold.
  destruct (Deep.merge_value c (Deep.node_get k td)) as [x|] eqn:Hmv; [|done].
  cbn [mbind option_bind] in Hfold.
  destruct (Deep.node_set k x td) as [td'|] eqn:Hset; [|done].
  cbn [mbind option_bind] in Hfold.
  set (h := st_heap s) in *.
  cbn [fmap list_fmap] in Hnd. rewrite bind_cons in Hnd. cbn [snd] in Hnd.
  destruct (baseMerge_entry_tree n IH s ld od td k v c x td'
              (kvs.*2 ≫= footprint n h) Hld Hod Hc Hnd)
    as (s1 & od1 & Hrun & Hld1 & Hod1 & Hnd1 & Hin1 & Hframe1 & Hlen1 & Hm1
        & Ht1); [|done..|].
  { intros l Hl. by eapply entry_reads_footprint_lt. }
  set (h1 := st_heap s1) in *.
  assert (∀ l, l ∈ kvs.*2 ≫= footprint n h → h1 !! l = h !! l) as Hag.
  { intros l Hl. apply Hframe1.
    - by eapply entry_reads_footprint_lt.
    - intros ->. apply NoDup_cons in Hnd as [Hn _]. apply Hn.
      rewrite !elem_of_app. auto.
    - intros Hin. apply NoDup_cons in Hnd as [_ Hnd].
      apply NoDup_app in Hnd as (_ & Hd & _). apply (Hd l Hin).
      rewrite elem_of_app. auto. }
  destruct (bind_agree n h h1 kvs.*2 Hag) as [Hfp Hr].
  destruct (IHk kcs' s1 od1 td' Hld1 Hod1) as (s' & Hrun' & Hmi); [| |done|].
  { eapply Forall2_impl; [exact (entry_reads_agree n h h1 kvs kcs' Hr Hall)|].
    done. }
  { fold h1. by rewrite Hfp. }
  exists s'. split.
  { cbn [baseMerge_each]. by rewrite (bind_Ok _ _ _ _ _ Hrun). }
  destruct Hmi as (Hread & Hndf & Hinf & Hframef & Hlenf & Hmf & Htf).
  subst h h1. unfold merged_into. split_and!; try done; try congruence.
  - intros l Hl. destruct (Hinf l Hl) as [[->|Hin]%elem_of_cons|Hge].
    + left. left.
    + destruct (Hin1 l Hin); [left; by right|by right].
    + right. lia.
  - intros l Hl Hnin. apply not_elem_of_cons in Hnin as [Hne Hnin].
    rewrite Hframef.
    + by apply Hframe1.
    + lia.
    + intros [->|Hin]%elem_of_cons; [done|].
      destruct (Hin1 l Hin); [done|lia].
  - lia.
Qed.

(** [baseMerge] goes by the tree, at every depth. *)
Lemma baseMerge_tree n : merges_by_tree n.
Proof.
  induction n as [n IH] using lt_wf_ind.
  intros s ld od td src ts t Hld Hod Hsrc Hnd Hmi.
  destruct (merge_entries_reads n (st_heap s) src ts Hsrc) as [Hall Hvals].
  rewrite baseMerge_S.
  eapply (baseMerge_each_tree n ld t); try done.
  - intros m ->. apply IH. lia.
  - by rewrite Hvals.
Qed.

(** [_.merge(object, source)] goes by the tree. *)
Lemma lodash_merge_tree n s object ls td ts t :
  destination_tree (S n) (st_heap s) object = Some td →
  read_node (S n) (st_heap s) (VRef ls) = Some ts →
  NoDup (footprint (S n) (st_heap s) object
         ++ footprint (S n) (st_heap s) (VRef ls)) →
  Deep.merge_into ts td = Some t →
  ∃ ld s',
    lodash_merge (S n) object (VRef ls) s = Ok (VRef ld) s'
    ∧ (∀ l, object = VRef l → ld = l)
    ∧ read_node (S n) (st_heap s') (VRef ld) = Some t
    ∧ NoDup (footprint (S n) (st_heap s') (VRef ld))
    ∧ (∀ l, l ∈ footprint (S n) (st_heap s') (VRef ld) →
            l ∈ footprint (S n) (st_heap s) object
            ∨ length (st_heap s) ≤ l)
    ∧ (∀ l, l < length (st_heap s) →
            l ∉ footprint (S n) (st_heap s) object →
            st_heap s' !! l = st_heap s !! l)
    ∧ length (st_heap s) ≤ length (st_heap s')
    ∧ st_manager s' = st_manager s
    ∧ st_trace s' = st_trace s.
Proof.
  intros Hd Hs Hnd Hmi. set (h := st_heap s) in *.
  rewrite read_node_obj in Hs.
  destruct (h !! ls) as [src|] eqn:Hls; [|done]. cbn in Hs.
  rewrite (footprint_ref n h ls src Hls) in Hnd.
  destruct object as [| | | | |ld]; try done.
  5:{ cbn [destination_tree] in Hd. rewrite read_node_obj in Hd.
      destruct (h !! ld) as [od|] eqn:Hld; [|done]. cbn in Hd.
      rewrite (footprint_ref n h ld od Hld) in Hnd |- *.
      destruct (baseMerge_tree n s ld od td src ts t Hld Hd Hs) as
        (s' & Hrun & Hr & Hn & Hin & Hf & Hlen & Hm & Ht); [|done|].
      { eapply sublist_NoDup; [exact Hnd|]. cbn. apply sublist_skip.
        apply sublist_app; [done|]. by apply sublist_cons. }
      exists ld, s'. split_and!; try done.
      - unfold lodash_merge. cbn [to_object].
        rewrite (bind_Ok _ _ _ _ _ (mret_Ok _ s)). cbn [truthy].
        rewrite bool_decide_eq_false_2.
        + assert ((src ← deref ls; baseMerge (S n) ld src) s = Ok () s')
            as Hinner
            by (by rewrite (bind_Ok _ _ _ _ _ (deref_Ok _ _ _ Hls))).
          by rewrite (bind_Ok _ _ _ _ _ Hinner).
        + intros [= ->]. apply NoDup_app in Hnd as (_ & Hd' & _).
          apply (Hd' ls); left.
      - by intros l [= ->]. }
  all: cbn [destination_tree] in Hd; injection Hd as <-.
  all: set (s0 := mkState (h ++ [JObj []]) (st_manager s) (st_trace s)).
  all: assert (∀ l0, l0 ∈ vals src ≫= footprint n h →
                     (h ++ [JObj []]) !! l0 = h !! l0) as Hag
         by (intros l0 Hl0; apply lookup_app_l;
             by eapply read_obj_footprint_lt).
  all: destruct (baseMerge_tree n s0 (length h) (JObj []) (NMap []) src ts t)
         as (s' & Hrun & Hr & Hn & Hin & Hf & Hlen & Hm & Ht);
         [by (cbn; rewrite lookup_app_r, Nat.sub_diag by done)
         |done
         |by (cbn [st_heap s0]; rewrite (read_obj_agree n h _ src Hag))
         |cbn [st_heap s0];
          destruct (bind_agree n h (h ++ [JObj []]) (vals src) Hag) as [-> _];
          cbn; apply NoDup_cons; split;
          [intros Hin; eapply read_obj_footprint_lt in Hin; [|done];
           fold h in Hin; lia
          |by apply NoDup_cons in Hnd as [_ Hnd]]
         |done
         |].
  all: cbn [st_heap st_manager st_trace s0] in *.
  all: exists (length h), s'; split_and!; try done;
         [unfold lodash_merge;
          match goal with |- context [to_object ?v] =>
            assert (to_object v s = Ok (length h) s0) as Hto by reflexivity
          end;
          rewrite (bind_Ok _ _ _ _ _ Hto);
          cbn [truthy]; rewrite bool_decide_eq_false_2
            by (intros [= E]; apply lookup_lt_Some in Hls; lia);
          assert ((src ← deref ls; baseMerge (S n) (length h) src) s0
                  = Ok () s') as Hinner
            by (by rewrite (bind_Ok _ _ _ _ _
                              (deref_Ok ls src s0
                                 ltac:(by apply lookup_app_l_Some))));
          by rewrite (bind_Ok _ _ _ _ _ Hinner)
         |intros l Hl; right;
          destruct (Hin l Hl) as [?%list_elem_of_singleton|Hge];
          [subst; done|rewrite length_app in Hge; lia]
         |intros l Hl _; rewrite Hf;
          [by apply lookup_app_l|rewrite length_app; lia
          |intros ?%list_elem_of_singleton; lia]
         |rewrite length_app in Hlen; lia].
Qed.

Lemma getComponentsSection_ref s v s' :
  getComponentsSection s = Ok v s' → ∃ l, v = VRef l.
Proof.
  unfold getComponentsSection.
  intros (m & s0 & H0 & H)%bind_inv_Ok.
  apply bind_inv_Ok in H as (section & s1 & H1 & H).
  rewrite new_obj_eq in H1. injection H1 as <- <-.
  apply bind_inv_Ok in H as (u & s2 & H2 & H).
  injection H as <- <-. eauto.
Qed.

Section MergeComponents.

Context (W : World).


End MergeComponents.

(** ** The map an inclusion leaves *)

Lemma entry_reads_filter d h (P : string → bool) ps fs :
  Forall2 (entry_reads d h) ps fs →
  Forall2 (entry_reads d h) (filter (λ kv, P kv.1 = true) ps)
                            (filter (λ kn, P kn.1 = true) fs).
Proof.
  induction 1 as [|[k v] [k' c] ps fs [Hk Hr] _ IH]; [done|].
  cbn in Hk. subst k'. rewrite !filter_cons. cbn [fst].
  destruct (decide (P k = true)); [|done]. by constructor.
Qed.

Lemma entry_reads_delete d h k ps fs :
  Forall2 (entry_reads d h) ps fs →
  Forall2 (entry_reads d h) (alist_delete k ps) (Deep.fields_delete k fs).
Proof.
  unfold Deep.fields_delete.
  induction 1 as [|[k1 v] [k' c] ps fs [Hk Hr] _ IH]; [done|].
  cbn in Hk. subst k'. rewrite filter_cons. cbn.
  destruct (decide (k1 = k)) as [->|Hne].
  - by rewrite decide_False by (intros H; by apply H).
  - rewrite decide_True by done. by constructor.
Qed.

Lemma alist_delete_sublist k (ps : list (string * value)) :
  alist_delete k ps `sublist_of` ps.
Proof.
  induction ps as [|[k1 v] ps IH]; [done|]. cbn.
  destruct (decide (k1 = k)); [by apply sublist_cons|by apply sublist_skip].
Qed.

Lemma filter_retained_all W (fs : list (string * Node)) :
  filter (λ kn, retained W None kn.1 = true) fs = fs.
Proof.
  induction fs as [|kn fs IH]; [done|].
  rewrite filter_cons_True by done. by rewrite IH.
Qed.

Section IncludeMap.

Context (W : World).

(** [filterObject] on a map that reads as a tree. *)
Lemma filterObject_tree n s lm pm included keyPattern (A : list loc) :
  st_heap s !! lm = Some (JObj pm) →
  Forall2 (entry_reads n (st_heap s)) pm included →
  NoDup (A ++ footprint (S n) (st_heap s) (VRef lm)) →
  (∀ l, l ∈ A → l < length (st_heap s)) →
  ∃ lf s3,
    filterObject W (VRef lm) keyPattern s = Ok (VRef lf) s3
    ∧ read_node (S n) (st_heap s3) (VRef lf)
      = Some (NMap (filter (λ kn, retained W keyPattern kn.1 = true)
                           included))
    ∧ NoDup (A ++ footprint (S n) (st_heap s3) (VRef lf))
    ∧ (∀ l, l < length (st_heap s) → st_heap s3 !! l = st_heap s !! l)
    ∧ length (st_heap s) ≤ length (st_heap s3)
    ∧ st_manager s3 = st_manager s
    ∧ st_trace s3 = st_trace s.
Proof.
  intros Hlm Hall Hnd HA. set (h := st_heap s) in *.
  destruct keyPattern as [p|].
  2:{ exists lm, s. rewrite filter_retained_all. split_and!; try done.
      rewrite read_node_obj. fold h. rewrite Hlm. cbn.
      apply read_obj_JObj. eauto. }
  set (qs := filter (λ kv : string * value, re_test W p kv.1 = true) pm).
  exists (length h), (mkState (h ++ [JObj qs]) (st_manager s) (st_trace s)).
  cbn [st_heap st_manager st_trace].
  rewrite (footprint_ref n h lm _ Hlm) in Hnd. cbn [vals] in Hnd.
  assert (qs.*2 ≫= footprint n h `sublist_of` pm.*2 ≫= footprint n h) as Hsub.
  { apply bind_sublist, fmap_sublist, sublist_filter. }
  assert (∀ l, l ∈ pm.*2 ≫= footprint n h → l < length h) as Hlt.
  { intros l Hl. by eapply entry_reads_footprint_lt. }
  assert (∀ l, l ∈ qs.*2 ≫= footprint n h → (h ++ [JObj qs]) !! l = h !! l)
    as Hag.
  { intros l Hl. apply lookup_app_l, Hlt. by eapply elem_of_sublist. }
  destruct (bind_agree n h (h ++ [JObj qs]) qs.*2 Hag) as [Hfp Hr].
  split_and!; try done.
  - unfold filterObject. rewrite (bind_Ok _ _ _ _ _ (deref_Ok _ _ _ Hlm)).
    by rewrite new_obj_eq.
  - rewrite read_node_obj, lookup_app_r, Nat.sub_diag by done. cbn.
    apply read_obj_JObj. eexists. split; [done|].
    eapply entry_reads_agree; [exact Hr|].
    by apply (entry_reads_filter n h (re_test W p)).
  - rewrite (footprint_ref n _ (length h) (JObj qs))
      by (by rewrite lookup_app_r, Nat.sub_diag by done).
    cbn [vals]. rewrite Hfp.
    apply NoDup_app in Hnd as (HndA & Hd & Hndm).
    apply NoDup_cons in Hndm as [_ Hndm].
    apply NoDup_app. split_and!; [done| |].
    + intros l Hl [->|Hin]%elem_of_cons.
      * apply HA in Hl. lia.
      * apply (Hd l Hl). right. by eapply elem_of_sublist.
    + apply NoDup_cons. split.
      * intros Hin. eapply elem_of_sublist in Hin; [|done].
        apply Hlt in Hin. lia.
      * by eapply sublist_NoDup.
  - intros l Hl. by apply lookup_app_l.
  - rewrite length_app. lia.
Qed.

End IncludeMap.

Section IncludeMapResult.

Context (W : World).

Lemma handleInclude_S m :
  handleInclude W (S m)
  = handleInclude_body W (mergeRefs W m) (handleInclude W m) m.
Proof. reflexivity. Qed.

Lemma handleInclude_content_None hInc key val file jsonPath pRef pFile s s1 :
  handleInclude_content W hInc key val file jsonPath pRef pFile s
    = Ok None s1 →
  s1 = s.
Proof.
  unfold handleInclude_content. destruct (isHttp pRef).
  { intros (? & ? & _ & [=])%bind_inv_Ok. }
  destruct (isLocal pRef).
  - intros (m & s0 & H0 & H)%bind_inv_Ok.
    rewrite get_manager_Ok in H0. injection H0 as <- <-.
    destruct (manager_get W (st_manager s) val); [by injection H|].
    by apply bind_inv_Ok in H as (? & ? & _ & [=]).
  - intros (? & ? & _ & H)%bind_inv_Ok.
    apply bind_inv_Ok in H as (? & ? & _ & H).
    by apply bind_inv_Ok in H as (? & ? & _ & [=]).
Qed.

(** What becomes of the surrounding map once the included content is
    merged, where the content is a map. *)
Lemma include_result_tree n (ret : loc) key val jsonPath lm s around
    included t :
  read_node (S n) (st_heap s) (VRef ret) = Some (NMap around) →
  read_node (S n) (st_heap s) (VRef lm) = Some (NMap included) →
  NoDup (footprint (S n) (st_heap s) (VRef ret)
         ++ footprint (S n) (st_heap s) (VRef lm)) →
  Deep.merge_into
    (NMap (filter (λ kn, retained W (getKeyPattern key) kn.1 = true)
                  included))
    (NMap around) = Some (NMap t) →
  ∃ s',
    include_result W (S n) (VRef ret) key val jsonPath (getKeyPattern key)
      (VRef lm) s = Ok (VRef ret) s'
    ∧ read_node (S n) (st_heap s') (VRef ret)
      = Some (NMap (Deep.fields_delete key t))
    ∧ (∀ l, l < length (st_heap s) →
            l ∉ footprint (S n) (st_heap s) (VRef ret) →
            st_heap s' !! l = st_heap s !! l)
    ∧ st_manager s' = st_manager s
    ∧ st_trace s' = st_trace s.
Proof.
  intros Hr Hm Hnd Hmi. set (h := st_heap s) in *.
  pose proof Hm as Hm'. rewrite read_node_obj in Hm'.
  destruct (h !! lm) as [[pm|]|] eqn:Hlm; try done.
  2:{ cbn in Hm'. by apply read_obj_JArr in Hm' as (? & ? & _ & _ & ? & _). }
  cbn in Hm'. apply read_obj_JObj in Hm' as (? & [= <-] & Hall).
  destruct (filterObject_tree W n s lm pm included (getKeyPattern key)
              (footprint (S n) h (VRef ret)) Hlm Hall Hnd)
    as (lf & s3 & Hfilter & Hrf & Hnd3 & Hpre3 & Hlen3 & Hm3 & Ht3).
  { intros l Hl. eapply footprint_lt; [exact Hr|exact Hl]. }
  assert (∀ l, l ∈ footprint (S n) h (VRef ret) → st_heap s3 !! l = h !! l)
    as Hag.
  { intros l Hl. apply Hpre3. eapply footprint_lt; [exact Hr|exact Hl]. }
  destruct (footprint_agree (S n) h (st_heap s3) (VRef ret) Hag) as [Hfp3 Hr3].
  destruct (lodash_merge_tree n s3 (VRef ret) lf (NMap around)
              (NMap (filter (λ kn, retained W (getKeyPattern key) kn.1 = true)
                            included))
              (NMap t))
    as (ld & s4 & Hrun & Hld & Hr4 & Hnd4 & Hin4 & Hf4 & Hlen4 & Hm4 & Ht4);
    [by (cbn [destination_tree]; rewrite Hr3)|exact Hrf
    |by rewrite Hfp3|exact Hmi|].
  rewrite (Hld ret eq_refl) in *. clear Hld.
  pose proof Hr4 as Hr4'. rewrite read_node_obj in Hr4'.
  destruct (st_heap s4 !! ret) as [[p4|]|] eqn:Hret4; try done.
  2:{ cbn in Hr4'. by apply read_obj_JArr in Hr4' as (? & ? & _ & _ & ? & _). }
  cbn in Hr4'. apply read_obj_JObj in Hr4' as (? & [= <-] & Hall4).
  rewrite (footprint_ref n _ ret _ Hret4) in Hnd4, Hin4. cbn [vals] in *.
  set (h5 := <[ret := JObj (alist_delete key p4)]> (st_heap s4)).
  exists (mkState h5 (st_manager s4) (st_trace s4)).
  cbn [st_heap st_manager st_trace]. split_and!.
  - unfold include_result.
    rewrite (bind_Ok _ _ _ _ _ (isArray_Ok lm _ s Hlm)). cbn [obj_is_array].
    rewrite (bind_Ok _ _ _ _ _ Hfilter).
    rewrite (bind_Ok _ _ _ _ _ Hrun).
    assert (delete_ (VRef ret) key s4
            = Ok () (mkState h5 (st_manager s4) (st_trace s4))) as Hdel.
    { cbn [delete_]. unfold delete_prop, mbind, M_bind, put_heap.
      rewrite get_heap_Ok. by rewrite (heap_update_Some _ _ _ _ Hret4). }
    by rewrite (bind_Ok _ _ _ _ _ Hdel).
  - rewrite read_node_obj. unfold h5.
    rewrite list_lookup_insert_eq by (by eapply lookup_lt_Some). cbn.
    apply read_obj_JObj. eexists. split; [done|].
    apply entry_reads_delete.
    eapply entry_reads_agree; [|exact Hall4].
    apply bind_agree. intros l Hl. apply list_lookup_insert_ne.
    intros <-. by apply NoDup_cons in Hnd4 as [Hn _].
  - intros l Hl Hnin. unfold h5.
    rewrite list_lookup_insert_ne.
    + rewrite Hf4; [by apply Hpre3|fold h in Hlen3; lia|by rewrite Hfp3].
    + intros <-. apply Hnin.
      destruct (h !! ret) as [o|] eqn:E; [|by rewrite read_node_obj, E in Hr].
      rewrite (footprint_ref n h ret o E). left.
  - congruence.
  - congruence.
Qed.


End IncludeMapResult.

(** * The further properties, at the examples *)

Section MoreRuns.
Import Fixture Examples Samples.

Lemma NoDup_decided (l : list nat) : bool_decide (NoDup l) = true → NoDup l.
Proof. apply bool_decide_eq_true_1. Qed.



Lemma merge_rejects_scalar_document_witness :
  merge W0 1 VNull "main.yaml" start = Throw TypeError
  ∧ merge W0 1 (VStr "text") "main.yaml" start = Throw TypeError.
Proof.
  split; by apply merge_rejects_scalar_document.
Defined.

Lemma merge_returns_components_witness :
  ∃ v s' l o lc,
    merged 8 doc_two_refs = Ok v s'
    ∧ v = VRef l ∧ st_heap s' !! l = Some o
    ∧ obj_get "components" o = VRef lc.
Proof.
  assert (∃ v s', merge W0 8 (enter doc_two_refs).1 "main.yaml"
                    (enter doc_two_refs).2 = Ok v s') as (v & s' & Hrun)
    by (eexists _, _; vm_compute; reflexivity).
  destruct (merge_returns_components W0 8 (enter doc_two_refs).1 "main.yaml"
              (enter doc_two_refs).2 v s' Hrun)
    as (l & o & lc & Hv & Ho & Hc).
  exists v, s', l, o, lc. split; [exact Hrun|]. split; [exact Hv|].
  split; [exact Ho|exact Hc].
Defined.

Lemma merge_result_is_fresh_witness :
  ∃ l s',
    merged 8 doc_conflict = Ok (VRef l) s'
    ∧ length (st_heap (enter doc_conflict).2) ≤ l.
Proof.
  eexists _, _. split; [vm_compute; reflexivity|].
  eapply (merge_result_is_fresh W0 8 (enter doc_conflict).1 "main.yaml"
            (enter doc_conflict).2 _ _ _ _
            (world_parses_no_object _ _) (world_slices_held _ _)).
  - vm_compute. reflexivity.
  - vm_compute. reflexivity.
  - intros l [= <-]. vm_compute. lia.
  - vm_compute. reflexivity.
  - reflexivity.
  - apply reach_here.
Defined.

Lemma getKeyPattern_after_fragment_witness :
  getKeyPattern "$include#/paths/" = Some "paths"%string
  ∧ getKeyPattern "$include#defs/^x-/" = Some "^x-"%string.
Proof.
  split.
  - apply (getKeyPattern_after_fragment "" "paths"); [|done..].
    by intros [|i].
  - apply (getKeyPattern_after_fragment "defs" "^x-"); [|done..].
    by intros [|[|[|[|[|i]]]]].
Defined.

Lemma getKeyPattern_sound_witness :
  ∃ pre, "$include/^a/"%string = "$include" +:+ pre +:+ "/" +:+ "^a" +:+ "/".
Proof.
  destruct (getKeyPattern_sound "$include/^a/" "^a" eq_refl) as (pre & H & _).
  by exists pre.
Defined.

Lemma single_match_reads_target_witness :
  Glob_sync W1 "E*.yaml" = ["Error.yaml"%string]
  ∧ handleInclude_content W1 (handleInclude W1 1) "$include" (VStr "E*.yaml")
      "main.yaml" "$" (parse_string "E*.yaml") (parse_string "main.yaml") start
    = Ok (Some (VNull, "E*.yaml"%string))
         (mkState [JObj []] (ComponentManager_new None) [EvRead "E*.yaml"]).
Proof.
  split; [reflexivity|].
  apply (single_match_reads_target W1 (handleInclude W1 1) "$include"
           "E*.yaml" "main.yaml" "$" (parse_string "E*.yaml")
           (parse_string "main.yaml") (parse_string "E*.yaml") NNull VNull
           [JObj []] start); try reflexivity.
  all: vm_compute; lia.
Defined.

Lemma include_loader_errors_witness :
  handleInclude W0 1 (VRef 0) "$include" (VStr "http://host/a.yaml")
    "main.yaml" "$" start = Throw FetchError
  ∧ handleInclude W0 1 (VRef 0) "$include" (VStr "#/a") "gone.yaml" "$" start
    = Throw LoadError.
Proof.
  split.
  - by apply (proj1 (include_loader_errors W0 0 (VRef 0) "$include"
                       (VStr "http://host/a.yaml") "main.yaml" "$"
                       _ _ start eq_refl eq_refl)).
  - by apply (proj1 (proj2 (include_loader_errors W0 0 (VRef 0) "$include"
                       (VStr "#/a") "gone.yaml" "$"
                       _ _ start eq_refl eq_refl))).
Defined.

Lemma registered_mapping_unchanged_witness :
  handleDiscriminator W0 1 (VRef 2) "discriminator" (VRef 1) "main.yaml" "$"
    mapped = Ok () mapped.
Proof.
  apply (registered_mapping_unchanged W0 0 (VRef 2) "discriminator" (VRef 1)
           "main.yaml" "$" 0
           (JObj [("cat", VStr "#/components/schemas/Pet"); ("none", VStr "")])
           mapped); [reflexivity..|].
  intros k v Hin. cbn [obj_entries] in Hin.
  rewrite !elem_of_cons, elem_of_nil in Hin.
  destruct Hin as [[= -> ->]|[[= -> ->]|[]]]; eexists; (split; [reflexivity|]).
  - left. split; [reflexivity|]. by exists 0.
  - by right.
Defined.


Lemma merge_copies_plain_document_witness :
  ∃ r s',
    merged 4 codes = Ok r s'
    ∧ read_node 5 (st_heap s') r
      = Some (NMap [("200", NStr "ok"); ("404", NStr "missing");
                    ("tags", NSeq [NStr "a"; NMap [("b", NNull)]]);
                    ("components", NMap [])]).
Proof.
  destruct (merge_copies_plain_document W0 4 (enter codes).1
              [("200", NStr "ok"); ("404", NStr "missing");
               ("tags", NSeq [NStr "a"; NMap [("b", NNull)]])]%string
              "main.yaml" (enter codes).2)
    as (r & s' & Hrun & Hread & _).
  - vm_compute. reflexivity.
  - vm_compute. reflexivity.
  - cbn [fmap list_fmap fst]. rewrite !not_elem_of_cons.
    split_and!; [discriminate..|]. apply not_elem_of_nil.
  - exists r, s'. split; [exact Hrun|exact Hread].
Defined.

Lemma include_result_sequence_witness :
  include_result W0 1 (VRef 0) "$include" (VStr "list.yaml") "$" None (VRef 1)
    arrays
  = Ok (VRef 3)
       (mkState (st_heap arrays ++ [JArr [Some (VNum 1); Some (VNum 2)] []])
                (st_manager arrays) (st_trace arrays))
  ∧ include_result W0 1 (VRef 2) "$include" (VStr "list.yaml") "$" None
      (VRef 1) arrays
    = Ok (VRef 1) arrays.
Proof.
  destruct (include_result_sequence W0 1 (VRef 0) "$include"
              (VStr "list.yaml") "$" None 1 [Some (VNum 2)] [] arrays eq_refl)
    as [Harr _].
  destruct (include_result_sequence W0 1 (VRef 2) "$include"
              (VStr "list.yaml") "$" None 1 [Some (VNum 2)] [] arrays eq_refl)
    as [_ Hmap].
  split.
  - exact (Harr 0 [Some (VNum 1)] [] eq_refl eq_refl).
  - exact (Hmap 2 [("$include", VStr "list.yaml")] eq_refl eq_refl).
Defined.


Lemma self_reference_by_path_witness :
  handleRef W2 9 (VRef 0) "$ref" (VStr "loop.yaml") "loop.yaml" "$" looping
  = Unsettled.
Proof.
  by apply (self_reference_by_path_never_settles W2 9 "loop.yaml" "loop.yaml"
              "$" (parse_string "loop.yaml") (parse_string "loop.yaml")
              (parse_string "loop.yaml") 0
              (JObj [("$ref", VStr "loop.yaml")]) looping).
Defined.

End MoreRuns.
